(** * diffpy: motion features of 2D particle trajectories

    A shallow embedding of [diffpy/features.py].  The Python functions are
    written once, over an abstract number type [T] with the arithmetic the
    source uses, and are read at two instances: IEEE binary64 ([float], what
    NumPy computes with) and the exact reals ([R], the arithmetic the
    formulas are meant in).  Python exceptions are values of [result]. *)

From Stdlib Require Import ZArith Reals Floats Lra Lia Psatz Bool.
From stdpp Require Import base list.

(** ** Exceptions *)

(** The exceptions a call of [features.py] can end in.  [RuntimeError],
    [QhullError] and [LinAlgError] come from the collaborators
    ([scipy.optimize.curve_fit], [scipy.spatial.ConvexHull],
    [numpy.linalg.eig]); the others are raised by Python and NumPy. *)
Inductive exn : Set :=
| IndexError
| ValueError
| NameError
| RuntimeError
| QhullError
| LinAlgError.

Inductive result (A : Type) : Type :=
| Ok (a : A)
| Raise (e : exn).
Arguments Ok {A} a.
Arguments Raise {A} e.

(** Sequencing: [x ← m; k] runs [k] on the value of [m] and passes an
    exception of [m] on. *)
Definition bind {A B} (m : result A) (k : A → result B) : result B :=
  match m with
  | Ok a => k a
  | Raise e => Raise e
  end.

#[global] Instance result_ret : MRet result := @Ok.
#[global] Instance result_bind : MBind result := λ A B f m, bind m f.
#[global] Instance result_fmap : FMap result :=
  λ A B f m, match m with Ok a => Ok (f a) | Raise e => Raise e end.

Declare Scope result_scope.
Delimit Scope result_scope with result.
Notation "x ← y ; z" := (bind y (λ x, z))
  (at level 20, y at level 100, z at level 200, only parsing) : result_scope.
Notation "' x ← y ; z" := (bind y (λ x, z))
  (at level 20, x pattern, y at level 100, z at level 200, only parsing) : result_scope.
Open Scope result_scope.

Definition raises {A} (m : result A) : Prop := ∃ e, m = Raise e.
Definition returns {A} (m : result A) : Prop := ∃ a, m = Ok a.

(** ** Numbers *)

(** The arithmetic of the source: the four operations, negation, absolute
    value, square root, comparisons, and the conversion of a Python [int]. *)
Class Num (T : Type) : Type := {
  of_Z : Z → T;
  nadd : T → T → T;
  nsub : T → T → T;
  nmul : T → T → T;
  ndiv : T → T → T;
  nopp : T → T;
  nabs : T → T;
  nsqrt : T → T;
  neqb : T → T → bool;
  nltb : T → T → bool
}.

Declare Scope num_scope.
Delimit Scope num_scope with num.
Infix "+" := nadd : num_scope.
Infix "-" := nsub : num_scope.
Infix "*" := nmul : num_scope.
Infix "/" := ndiv : num_scope.
Notation "- x" := (nopp x) : num_scope.

(** NumPy's float64. *)
Definition float_of_Z (z : Z) : float :=
  match z with
  | Z0 => PrimFloat.zero
  | Zpos _ => PrimFloat.of_uint63 (Uint63.of_Z z)
  | Zneg p => PrimFloat.opp (PrimFloat.of_uint63 (Uint63.of_Z (Zpos p)))
  end.

#[global] Instance float_num : Num float := {|
  of_Z := float_of_Z;
  nadd := PrimFloat.add;
  nsub := PrimFloat.sub;
  nmul := PrimFloat.mul;
  ndiv := PrimFloat.div;
  nopp := PrimFloat.opp;
  nabs := PrimFloat.abs;
  nsqrt := PrimFloat.sqrt;
  neqb := PrimFloat.eqb;
  nltb := PrimFloat.ltb
|}.

(** Exact real arithmetic. *)
#[global] Instance R_num : Num R := {|
  of_Z := IZR;
  nadd := Rplus;
  nsub := Rminus;
  nmul := Rmult;
  ndiv := Rdiv;
  nopp := Ropp;
  nabs := Rabs;
  nsqrt := R_sqrt.sqrt;
  neqb := λ x y, if Req_dec_T x y then true else false;
  nltb := λ x y, if Rlt_dec x y then true else false
|}.

Section Arith.
Context {T : Type} `{Num T}.
Local Open Scope num_scope.

(** A decimal literal [m / 10^e], e.g. [0.2048 = dec 2048 4]: the division
    is rounded once, as the parser of the literal does. *)
Definition dec (m : Z) (e : nat) : T := of_Z m / of_Z (10 ^ Z.of_nat e).

(** [x**2] and [x**4], as repeated products (exact over [R]; on [float]
    they are exactly NumPy's values whenever the products are exact). *)
Definition sqr (x : T) : T := x * x.
Definition pow4 (x : T) : T := sqr (sqr x).

Definition ngtb (x y : T) : bool := nltb y x.
(** [x != x], true of NaN only. *)
Definition isnan (x : T) : bool := negb (neqb x x).
End Arith.

(** ** NumPy arrays *)

(** A 1-D array is a list.  A 2-D array keeps its column count, so that the
    shape [(0, N)] is not lost; row [k] is [M[k, :]]. *)
Record array2 (T : Type) : Type := Array2 {
  ncols : nat;
  rows : list (list T)
}.
Arguments Array2 {T} ncols rows.
Arguments ncols {T} a.
Arguments rows {T} a.

Definition nrows {T} (M : array2 T) : nat := length (rows M).

(** Every row has [ncols] entries. *)
Definition rectangular {T} (M : array2 T) : Prop :=
  Forall (λ r, length r = ncols M) (rows M).

Definition same_shape {T} (A B : array2 T) : Prop :=
  nrows A = nrows B ∧ ncols A = ncols B.

Module np.
Section numpy.
Context {T : Type} `{Num T}.
Local Open Scope num_scope.

(** [a[i]] for a Python index: negative indices count from the end. *)
Definition getitem {A} (a : list A) (i : Z) : result A :=
  let n := Z.of_nat (length a) in
  let k := if (i <? 0)%Z then (n + i)%Z else i in
  if ((k <? 0) || (n <=? k))%Z then Raise IndexError
  else match a !! Z.to_nat k with
       | Some v => Ok v
       | None => Raise IndexError
       end.

(** [a[i] = v]. *)
Definition setitem {A} (a : list A) (i : Z) (v : A) : result (list A) :=
  let n := Z.of_nat (length a) in
  let k := if (i <? 0)%Z then (n + i)%Z else i in
  if ((k <? 0) || (n <=? k))%Z then Raise IndexError
  else Ok (<[Z.to_nat k := v]> a).

(** [M[:, i]], for [0 ≤ i]. *)
Definition column (M : array2 T) (i : nat) : result (list T) :=
  if (i <? ncols M)%nat then Ok ((λ r, default (of_Z 0) (r !! i)) <$> rows M)
  else Raise IndexError.

(** [M[k, :]]. *)
Definition row (M : array2 T) (k : Z) : result (list T) :=
  getitem (rows M) k.

Definition zeros (n : nat) : list T := replicate n (of_Z 0).

(** Elementwise binary operation of two 1-D arrays, with broadcasting. *)
Definition map2 (f : T → T → T) (a b : list T) : result (list T) :=
  if (length a =? length b)%nat then Ok (zip_with f a b)
  else match a, b with
       | [u], _ => Ok (f u <$> b)
       | _, [v] => Ok ((λ x, f x v) <$> a)
       | _, _ => Raise ValueError
       end.






(** [np.diff(a)]: [a[1:] - a[:-1]]. *)
Definition diff (a : list T) : list T := zip_with nsub (tail a) a.


(** [np.sum(a)] of a 1-D array, as NumPy's add-reduction computes it:
    the result starts at [0], and the array is handed over in pieces of
    at most [BUFSIZE = 8192] entries, each of which is summed by NumPy's
    routine [pairwise_sum] and added to the result.

    [pairwise_sum] adds fewer than 8 entries one after the other onto [0].
    Up to [PW_BLOCKSIZE = 128] entries go into eight running sums, entry
    [i] into sum [i mod 8]; the eight sums are then added two by two, and
    the entries behind the last full group of eight are added one by one.
    A longer piece is cut near its middle, at a multiple of 8, and the
    sums of the two parts are added.  (The start value [0] is the
    identity of [np.add].) *)
Definition BUFSIZE : nat := Z.to_nat 8192.
Definition PW_BLOCKSIZE : nat := 128.

(** The eight running sums [r] after [blocks] more groups of eight
    entries of [a], and the entries not yet added. *)
Fixpoint pairwise_lanes (blocks : nat) (r a : list T) : list T * list T :=
  match blocks with
  | O => (r, a)
  | S blocks' =>
      pairwise_lanes blocks' (zip_with nadd r (take 8 a)) (drop 8 a)
  end.

(** [((r[0] + r[1]) + (r[2] + r[3])) + ((r[4] + r[5]) + (r[6] + r[7]))]. *)
Definition pairwise_tree (r : list T) : T :=
  match r with
  | [r0; r1; r2; r3; r4; r5; r6; r7] =>
      ((r0 + r1) + (r2 + r3)) + ((r4 + r5) + (r6 + r7))
  | _ => of_Z 0
  end.

(** From 8 to 128 entries. *)
Definition pairwise_block (a : list T) : T :=
  let '(r, rest) :=
    pairwise_lanes (length a / 8 - 1) (take 8 a) (drop 8 a) in
  foldl nadd (pairwise_tree r) rest.

(** The recursion of [pairwise_sum] is on halves of the array; [fuel]
    bounds its depth, and the length of the array is always enough. *)
Fixpoint pairwise_sum (fuel : nat) (a : list T) : T :=
  let n := length a in
  if (n <? 8)%nat then foldl nadd (of_Z 0) a
  else if (n <=? PW_BLOCKSIZE)%nat then pairwise_block a
  else match fuel with
       | O => pairwise_block a
       | S fuel' =>
           let n2 := (n / 2 - (n / 2) mod 8)%nat in
           pairwise_sum fuel' (take n2 a) + pairwise_sum fuel' (drop n2 a)
       end.

(** The pieces of [a] added to the result [acc], one after the other. *)
Fixpoint add_pieces (fuel : nat) (acc : T) (a : list T) : T :=
  match fuel, a with
  | S fuel', _ :: _ =>
      let piece := take BUFSIZE a in
      add_pieces fuel' (acc + pairwise_sum (length piece) piece)
        (drop BUFSIZE a)
  | _, _ => acc
  end.

Definition sum (a : list T) : T := add_pieces (length a) (of_Z 0) a.


(** [np.maximum]: a NaN wins. *)
Definition maximum (x y : T) : T :=
  if nltb y x || neqb x y || isnan x then x else y.

(** [np.max(a)]: no maximum of an empty array. *)
Definition max (a : list T) : result T :=
  match a with
  | [] => Raise ValueError
  | v :: a' => Ok (foldl maximum v a')
  end.


Definition mean (a : list T) : T := sum a / of_Z (Z.of_nat (length a)).

(** [np.std(a)], the population standard deviation. *)
Definition std (a : list T) : T :=
  let m := mean a in
  nsqrt (mean ((λ v, sqr (v - m)) <$> a)).

(** [np.dot] of two vectors of one length: the products are added from
    left to right. *)
Definition dot (a b : list T) : T :=
  match zip_with nmul a b with
  | [] => of_Z 0
  | p :: ps => foldl nadd p ps
  end.

(** [np.linspace(start, stop, num)], as NumPy computes it. *)
Definition linspace (start stop : T) (num : nat) : list T :=
  let d := (num - 1)%nat in
  let delta := stop - start in
  let y := (λ k, of_Z (Z.of_nat k)) <$> seq 0 num in
  let y :=
    if (0 <? d)%nat then
      let step := delta / of_Z (Z.of_nat d) in
      if neqb step (of_Z 0)
      then (λ v, (v / of_Z (Z.of_nat d)) * delta) <$> y
      else (λ v, v * step) <$> y
    else (λ v, v * delta) <$> y in
  let y := (λ v, v + start) <$> y in
  if (1 <? num)%nat then <[(num - 1)%nat := stop]> y else y.

(** [X, Y = np.meshgrid(a, b)]: [X[r][c] = a[c]] and [Y[r][c] = b[r]]. *)
Definition meshgrid (a b : list T) : list (list T) * list (list T) :=
  (replicate (length b) a, (λ v, replicate (length a) v) <$> b).

(** [np.minimum]: a NaN wins. *)
Definition minimum (x y : T) : T :=
  if nltb x y || neqb x y || isnan x then x else y.

(** [np.min(a)]. *)
Definition min (a : list T) : result T :=
  match a with
  | [] => Raise ValueError
  | v :: a' => Ok (foldl minimum v a')
  end.

(** [np.nanmin(a)] and [np.nanmax(a)]: the NaNs are left out; an array of
    NaNs only gives NaN. *)
Definition nanmin (a : list T) : result T :=
  match filter (λ v, Is_true (negb (isnan v))) a with
  | [] => match a with [] => Raise ValueError | v :: _ => Ok v end
  | v :: a' => Ok (foldl minimum v a')
  end.

Definition nanmax (a : list T) : result T :=
  match filter (λ v, Is_true (negb (isnan v))) a with
  | [] => match a with [] => Raise ValueError | v :: _ => Ok v end
  | v :: a' => Ok (foldl maximum v a')
  end.

(** [np.argmin(a)]: the first least entry, a NaN counting as least. *)
Fixpoint argmin_from (best : T) (ibest i : nat) (a : list T) : nat :=
  match a with
  | [] => ibest
  | v :: a' =>
      if negb (isnan best) && (nltb v best || isnan v)
      then argmin_from v i (S i) a'
      else argmin_from best ibest (S i) a'
  end.

Definition argmin (a : list T) : result nat :=
  match a with
  | [] => Raise ValueError
  | v :: a' => Ok (argmin_from v 0 1 a')
  end.

(** [np.unique(a)]: the entries in increasing order, each once; NaNs
    come last. *)
Definition before (x y : T) : bool :=
  isnan y || (negb (isnan x) && negb (nltb y x)).

Fixpoint place (v : T) (a : list T) : list T :=
  match a with
  | [] => [v]
  | w :: a' => if before v w then v :: a else w :: place v a'
  end.

Fixpoint once (a : list T) : list T :=
  match a with
  | [] => []
  | v :: a' =>
      match a' with
      | w :: _ => if neqb v w || (isnan v && isnan w) then once a' else v :: once a'
      | [] => [v]
      end
  end.

Definition unique (a : list T) : list T := once (foldr place [] a).
End numpy.
End np.

(** ** Python built-ins *)

Module py.
Section builtins.
Context {T : Type} `{Num T}.

(** [range(start, stop, step)]; a zero step is a [ValueError]. *)
Definition range (start stop step : Z) : result (list Z) :=
  if (step =? 0)%Z then Raise ValueError
  else if (0 <? step)%Z
    then Ok ((λ k, start + k * step)%Z <$> seqZ 0 ((stop - start + step - 1) / step))
    else Ok ((λ k, start + k * step)%Z <$> seqZ 0 ((start - stop - step - 1) / - step)).

(** [a[:i]]. *)
Definition upto {A} (a : list A) (i : Z) : list A :=
  if (i <? 0)%Z then take (Z.to_nat (Z.of_nat (length a) + i)) a
  else take (Z.to_nat i) a.

(** [for v in l: acc = body(acc, v)], stopping at the first exception. *)
Fixpoint for_ {A S} (l : list A) (body : S → A → result S) (acc : S) : result S :=
  match l with
  | [] => Ok acc
  | v :: l' => acc' ← body acc v; for_ l' body acc'
  end.

(** [min(a)] and [max(a)] of Python: the first extreme entry under [<]. *)
Definition min (a : list T) : result T :=
  match a with
  | [] => Raise ValueError
  | v :: a' => Ok (foldl (λ m w, if nltb w m then w else m) v a')
  end.

Definition max (a : list T) : result T :=
  match a with
  | [] => Raise ValueError
  | v :: a' => Ok (foldl (λ m w, if nltb m w then w else m) v a')
  end.
End builtins.
End py.

(** ** Diffusion-model module *)

Section diffusion.
Context {T : Type} `{Num T}.
Local Open Scope num_scope.

(** [x ** alpha] for a real exponent (libm). *)
Variable pow : T → T → T.

(** [scipy.optimize.curve_fit(f, xdata, ydata, p0)]: the fitted
    parameters [popt], or the solver's exception. *)
Variable curve_fit :
  (T → T → T → T) → list T → list T → T * T → result (T * T).

Definition anomalous (x D alpha dt : T) : T :=
  of_Z 4 * D * pow (x * dt) alpha.

Definition p0 : T * T := (of_Z 6, of_Z 1).

(** One turn of the loop of [anomModels]. *)
Definition anomModels_body (MSD N : list T) (dt : T)
    (acc : list T * list T) (i : Z) : result (list T * list T) :=
  let anom x D alpha := anomalous x D alpha dt in
  ps ← curve_fit anom (py.upto N i) (py.upto MSD i) p0;
  Ds ← np.setitem acc.1 i ps.1;
  alphas ← np.setitem acc.2 i ps.2;
  Ok (Ds, alphas).

Definition anomModels (MSD : list T) (dt : T) (skips : Z)
    : result (list T * list T) :=
  let steps := (Z.of_nat (length MSD) + 1)%Z in
  let N := np.linspace (of_Z 1) (of_Z (steps - 1)) (Z.to_nat (steps - 1)) in
  let alphas := np.zeros (Z.to_nat (steps - 1)) in
  let Ds := np.zeros (Z.to_nat (steps - 1)) in
  idx ← py.range 10 (steps - 1) skips;
  py.for_ idx (anomModels_body MSD N dt) (Ds, alphas).

Definition anomModel (MSD : list T) (dt : T) (frame : Z) : result (T * T) :=
  let anom x D alpha := anomalous x D alpha dt in
  let steps := (Z.of_nat (length MSD) + 1)%Z in
  let N := np.linspace (of_Z 1) (of_Z (steps - 1)) (Z.to_nat (steps - 1)) in
  ps ← curve_fit anom (py.upto N frame) (py.upto MSD frame) p0;
  Ok (ps.1, ps.2).

(** One turn of the loop of [anomModelN]. *)
Definition anomModelN_body (MSD : array2 T) (n : list T) (dt : T) (frame : Z)
    (acc : list T * list T) (i : Z) : result (list T * list T) :=
  let anom x D alpha := anomalous x D alpha dt in
  col ← np.column MSD (Z.to_nat i);
  ps ← curve_fit anom (py.upto n frame) (py.upto col frame) p0;
  Ds ← np.setitem acc.1 i ps.1;
  alphas ← np.setitem acc.2 i ps.2;
  Ok (Ds, alphas).

Definition anomModelN (MSD : array2 T) (dt : T) (frame : Z)
    : result (list T * list T) :=
  let steps := nrows MSD in
  let N := ncols MSD in
  let n := np.linspace (of_Z 1) (of_Z (Z.of_nat steps)) steps in
  let Ds := np.zeros N in
  let alphas := np.zeros N in
  idx ← py.range 0 (Z.of_nat N) 1;
  py.for_ idx (anomModelN_body MSD n dt frame) (Ds, alphas).

(** [A[frame, i] = v] on a 2-D array given by its rows. *)
Definition setitem2 (A : list (list T)) (frame i : Z) (v : T)
    : result (list (list T)) :=
  r ← np.getitem A frame;
  r' ← np.setitem r i v;
  np.setitem A frame r'.

(** One turn of the inner loop of [anomModelsN]. *)
Definition anomModelsN_body (MSD : array2 T) (n : list T) (dt : T) (i : Z)
    (acc : list (list T) * list (list T)) (frame : Z)
    : result (list (list T) * list (list T)) :=
  let anom x D alpha := anomalous x D alpha dt in
  col ← np.column MSD (Z.to_nat i);
  ps ← curve_fit anom (py.upto n frame) (py.upto col frame) p0;
  Ds ← setitem2 acc.1 frame i ps.1;
  alphas ← setitem2 acc.2 frame i ps.2;
  Ok (Ds, alphas).

Definition anomModelsN (MSD : array2 T) (dt : T) (skips : Z)
    : result (array2 T * array2 T) :=
  let steps := nrows MSD in
  let N := ncols MSD in
  let n := np.linspace (of_Z 1) (of_Z (Z.of_nat steps)) steps in
  let Ds := replicate steps (np.zeros N) in
  let alphas := replicate steps (np.zeros N) in
  idx ← py.range 0 (Z.of_nat N) 1;
  out ← py.for_ idx (λ acc i,
           frames ← py.range 10 (Z.of_nat steps) skips;
           py.for_ frames (anomModelsN_body MSD n dt i) acc) (Ds, alphas);
  Ok (Array2 N out.1, Array2 N out.2).
End diffusion.

(** ** Shape-statistics module *)

Section shape.
Context {T : Type} `{Num T}.
Local Open Scope num_scope.

(** [np.log] (libm). *)
Variable log : T → T.

(** [np.linalg.eig] of a square matrix given by its rows: the
    eigenvalues, in the order the decomposition finds them, and the
    matrix whose column [k] is the eigenvector of eigenvalue [k]. *)
Variable eig : list (list T) → result (list T * list (list T)).

(** [np.cov(x, y)]: the rows are centred, multiplied together and scaled
    by [1 / (n - 1)]. *)
Definition cov (x y : list T) : result (list (list T)) :=
  if negb (length x =? length y)%nat then Raise ValueError
  else
    let fact := of_Z (Z.max (Z.of_nat (length x) - 1) 0) in
    let X := (λ r, let avg := np.mean r in (λ v, v - avg) <$> r) <$> [x; y] in
    let scale := of_Z 1 / fact in
    Ok ((λ a, (λ b, np.dot a b * scale) <$> X) <$> X).

(** [a[:, k]] of a matrix given by its rows. *)
Definition col_of (a : list (list T)) (k : Z) : result (list T) :=
  mapM (λ r, np.getitem r k) a.

(** [np.dot(xy, v)] for the [n × 2] matrix [xy] of the points. *)
Definition project (x y v : list T) : list T :=
  zip_with (λ xi yi, np.dot [xi; yi] v) x y.

(** [np.sum((xp - np.mean(xp))**4/np.std(xp)**4)/n]. *)
Definition moment4 (xp : list T) (n : nat) : T :=
  let m := np.mean xp in
  let s := np.std xp in
  np.sum ((λ v, pow4 (v - m) / pow4 s) <$> xp) / of_Z (Z.of_nat n).

Definition asym (x y : list T)
    : result (list T * list T * list (list T) * T) :=
  c ← cov x y;
  '(eigs, vecs) ← eig c;
  e0 ← np.getitem eigs 0;
  e1 ← np.getitem eigs 1;
  let a1 := sqr (sqr e0 - sqr e1) / sqr (sqr e0 + sqr e1) in
  lo ← py.min eigs;
  hi ← py.max eigs;
  let a2 := lo / hi in
  let a3 := - log (of_Z 1 - dec 5 1 * sqr (e0 - e1) / sqr (e0 + e1)) in
  let n := length x in
  v0 ← col_of vecs 0;
  let xp := project x y v0 in
  let K := moment4 xp n in
  Ok ([a1; a2; a3], eigs, vecs, K).

(** One turn of the loop of [asyms]. *)
Definition asyms_body (x y : array2 T)
    (acc : list T * list T * list T * list T) (i : Z)
    : result (list T * list T * list T * list T) :=
  let '(a1, a2, a3, Ks) := acc in
  xi ← np.column x (Z.to_nat i);
  yi ← np.column y (Z.to_nat i);
  '(a123, eigs, vecs, K) ← asym xi yi;
  Ks ← np.setitem Ks i K;
  v1 ← np.getitem a123 0;
  v2 ← np.getitem a123 1;
  v3 ← np.getitem a123 2;
  a1 ← np.setitem a1 i v1;
  a2 ← np.setitem a2 i v2;
  a3 ← np.setitem a3 i v3;
  Ok (a1, a2, a3, Ks).

Definition asyms (x y : array2 T)
    : result (list T * list T * list T * list T) :=
  let N := ncols x in
  idx ← py.range 0 (Z.of_nat N) 1;
  py.for_ idx (asyms_body x y)
    (np.zeros N, np.zeros N, np.zeros N, np.zeros N).
End shape.

(** ** Geometry module *)

Section geometry.
Context {T : Type} `{Num T}.
Local Open Scope num_scope.

(** [np.pi], [np.cos], [np.arctan2] and [np.mod] (libm). *)
Variable pi : T.
Variable cos : T → T.
Variable arctan2 : T → T → T.
Variable mod_ : T → T → T.

(** [scipy.spatial.ConvexHull(points).vertices]: the indices of the hull's
    corners, or Qhull's exception on a degenerate point set. *)
Variable ConvexHull : list (list T) → result (list Z).

(** [np.dot(v, r)] of a pair and a [2 × 2] matrix. *)
Definition vecmat (v : list T) (r : list (list T)) : result (list T) :=
  c0 ← col_of r 0;
  c1 ← col_of r 1;
  Ok [np.dot v c0; np.dot v c1].

Definition minBoundRect (x y : list T)
    : result (list (list T) * list T) :=
  points ← (if (length x =? length y)%nat
            then Ok (zip_with (λ a b, [a; b]) x y) else Raise ValueError);
  let pi2 := pi / of_Z 2 in
  vertices ← ConvexHull points;
  hull_points ← mapM (np.getitem points) vertices;
  let edges :=
    zip_with (zip_with nsub) (tail hull_points) (take (length hull_points - 1) hull_points) in
  e1 ← col_of edges 1;
  e0 ← col_of edges 0;
  let angles := zip_with arctan2 e1 e0 in
  let angles := (λ a, nabs (mod_ a pi2)) <$> angles in
  let angles := np.unique angles in
  let rotations :=
    (λ a, [[cos a; cos (a - pi2)]; [cos (a + pi2); cos a]]) <$> angles in
  let rot_points :=
    (λ r : list (list T), (λ ra, (λ p, np.dot ra p) <$> hull_points) <$> r)
      <$> rotations in
  rx ← mapM (λ rp, np.getitem rp 0) rot_points;
  ry ← mapM (λ rp, np.getitem rp 1) rot_points;
  min_x ← mapM np.nanmin rx;
  max_x ← mapM np.nanmax rx;
  min_y ← mapM np.nanmin ry;
  max_y ← mapM np.nanmax ry;
  let areas := zip_with nmul (zip_with nsub max_x min_x) (zip_with nsub max_y min_y) in
  best_idx ← np.argmin areas;
  x1 ← np.getitem max_x (Z.of_nat best_idx);
  x2 ← np.getitem min_x (Z.of_nat best_idx);
  y1 ← np.getitem max_y (Z.of_nat best_idx);
  y2 ← np.getitem min_y (Z.of_nat best_idx);
  r ← np.getitem rotations (Z.of_nat best_idx);
  r0 ← vecmat [x1; y2] r;
  r1 ← vecmat [x2; y2] r;
  r2 ← vecmat [x2; y1] r;
  r3 ← vecmat [x1; y1] r;
  let rval := [r0; r1; r2; r3] in
  let xsq := (λ d : list T, sqr <$> d) <$> zip_with (zip_with nsub) (tail rval) rval in
  q0 ← col_of xsq 0;
  q1 ← col_of xsq 1;
  let ls := nsqrt <$> zip_with nadd q0 q1 in
  Ok (rval, take 2 ls).

Definition aspectRatio (x y : list T) : result (T * T) :=
  '(rs, ls) ← minBoundRect x y;
  hi ← np.max ls;
  lo ← np.min ls;
  Ok (hi / lo, of_Z 1 - lo / hi).

(** One turn of the loop of [aspectRatios]. *)
Definition aspectRatios_body (x y : array2 T)
    (acc : list T * list T) (i : Z) : result (list T * list T) :=
  xi ← np.column x (Z.to_nat i);
  yi ← np.column y (Z.to_nat i);
  '(ar, elong) ← aspectRatio xi yi;
  ars ← np.setitem acc.1 i ar;
  elongs ← np.setitem acc.2 i elong;
  Ok (ars, elongs).

Definition aspectRatios (x y : array2 T) : result (list T * list T) :=
  let N := ncols x in
  let ars := np.zeros N in
  let elongs := np.zeros N in
  idx ← py.range 0 (Z.of_nat N) 1;
  py.for_ idx (aspectRatios_body x y) (ars, elongs).
End geometry.

(** ** Path-statistics module *)

Section path.
Context {T : Type} `{Num T}.
Local Open Scope num_scope.

(** [np.exp] and [np.log] (libm). *)
Variable exp : T → T.
Variable log : T → T.

(** [np.diff(x)**2 + np.diff(y)**2], the squared step lengths. *)
Definition steps2 (x y : list T) : result (list T) :=
  np.map2 nadd (sqr <$> np.diff x) (sqr <$> np.diff y).


Definition trapped (bd : T) : T :=
  of_Z 1 - exp (dec 2048 4 - dec 25117 5 * bd).

Definition bound (x y M : list T) : result (T * T) :=
  let N := length M in
  m1 ← np.getitem M 1;
  m0 ← np.getitem M 0;
  let D := (m1 - m0) / of_Z 4 in
  s ← steps2 x y;
  mx ← np.max s;
  let r := nsqrt mx / of_Z 2 in
  let bd := D * of_Z (Z.of_nat N) / sqr r in
  Ok (bd, trapped bd).


Definition efficiency (x y : list T) : result T :=
  xl ← np.getitem x (-1);
  x0 ← np.getitem x 0;
  yl ← np.getitem y (-1);
  y0 ← np.getitem y 0;
  let netD := sqr (xl - x0) + sqr (yl - y0) in
  s ← steps2 x y;
  let total := np.sum s in
  Ok (netD / total).


Definition straight (x y : list T) : result T :=
  xl ← np.getitem x (-1);
  x0 ← np.getitem x 0;
  yl ← np.getitem y (-1);
  y0 ← np.getitem y 0;
  let netD := nsqrt (sqr (xl - x0) + sqr (yl - y0)) in
  s ← steps2 x y;
  let total := np.sum (nsqrt <$> s) in
  Ok (netD / total).


Definition fractDim (x y : list T) : result T :=
  let n := (Z.of_nat (length x) - 1)%Z in
  s ← steps2 x y;
  let total := np.sum (nsqrt <$> s) in
  s' ← steps2 x y;
  mx ← np.max s';
  let d := nsqrt mx in
  Ok (log (of_Z n) / log (of_Z (n * n) * d / total)).

End path.

(** ** MSD-consistency module *)

Section msd.
Context {T : Type} `{Num T}.
Local Open Scope num_scope.

(** Elementwise operation of two 2-D, and of two 3-D arrays of one shape. *)
Definition zip2 {A B C} (f : A → B → C) (a : list (list A)) (b : list (list B))
    : list (list C) :=
  zip_with (zip_with f) a b.

Definition zip3 {A B C} (f : A → B → C)
    (a : list (list (list A))) (b : list (list (list B)))
    : list (list (list C)) :=
  zip_with (zip2 f) a b.

(** [np.tile(g.reshape((n,n,1)), (1,1,N))]. *)
Definition tile3 (g : list (list T)) (N : nat) : list (list (list T)) :=
  (λ r : list T, (λ v, replicate N v) <$> r) <$> g.

(** [a[:, :, i] = g]. *)
Definition setslice3 (a : list (list (list T))) (i : nat) (g : list (list T))
    : list (list (list T)) :=
  zip2 (λ cell v, <[i := v]> cell) a g.

(** [a[mask] = 0]. *)
Definition clear (mask : bool) (v : T) : T := if mask then of_Z 0 else v.

(** [M2x/M2y - n2x/n2y] at one cell. *)
Definition ratio (M2x M2y n2x n2y : list (list T)) : list (list T) :=
  zip2 nsub (zip2 ndiv M2x M2y) (zip2 ndiv n2x n2y).

(** The function computes the ratio matrix and then returns [MRatio], a
    name that is bound nowhere ([Mratio] is): a [NameError]. *)
Definition msdRatio (M : list T) : result (list (list T)) :=
  let n := length M in
  let ns := np.linspace (of_Z 1) (of_Z (Z.of_nat n)) n in
  let '(n2y, n2x) := np.meshgrid ns ns in
  let '(M2y, M2x) := np.meshgrid M M in
  let Mratio := ratio M2x M2y n2x n2y in
  let Mratio := zip2 clear (zip2 ngtb n2x n2y) Mratio in
  Raise NameError.

(** One turn of the loop of [msdRatios]. *)
Definition msdRatios_body (Ms : array2 T)
    (acc : list (list (list T)) * list (list (list T))) (i : Z)
    : result (list (list (list T)) * list (list (list T))) :=
  col ← np.column Ms (Z.to_nat i);
  let '(gy, gx) := np.meshgrid col col in
  Ok (setslice3 acc.1 (Z.to_nat i) gy, setslice3 acc.2 (Z.to_nat i) gx).

Definition msdRatios (Ms : array2 T) : result (list (list (list T))) :=
  let n := nrows Ms in
  let N := ncols Ms in
  let ns := np.linspace (of_Z 1) (of_Z (Z.of_nat n)) n in
  let '(n2y, n2x) := np.meshgrid ns ns in
  let '(n2y, n2x) := (tile3 n2y N, tile3 n2x N) in
  let z := replicate n (replicate n (np.zeros N)) in
  idx ← py.range 0 (Z.of_nat N) 1;
  '(M2y, M2x) ← py.for_ idx (msdRatios_body Ms) (z, z);
  let Mratio := zip3 nsub (zip3 ndiv M2x M2y) (zip3 ndiv n2x n2y) in
  let Mratio := zip3 clear (zip3 ngtb n2x n2y) Mratio in
  Ok Mratio.
End msd.

(** * Vocabulary of the properties *)

Section vocabulary.
Context {T : Type} `{Num T}.
Local Open Scope num_scope.

(** The shape of the batch loops: turn [i] computes a pair with [g] and
    stores its components at index [i] of the two output vectors. *)
Definition store2 (g : Z → result (T * T))
    (acc : list T * list T) (i : Z) : result (list T * list T) :=
  ps ← g i;
  a ← np.setitem acc.1 i ps.1;
  b ← np.setitem acc.2 i ps.2;
  Ok (a, b).

(** The window lengths the sliding-window loops visit:
    [range(10, K, skips)]. *)
Definition windows (K skips : Z) : list Z :=
  (λ k, 10 + k * skips)%Z <$> seqZ 0 ((K - 10 + skips - 1) / skips).

(** The entry of a matrix given by its rows, and of a 3-D array. *)
Definition at2 {A} (a : list (list A)) (r c : nat) : option A :=
  a !! r ≫= λ l, l !! c.
Definition at3 {A} (a : list (list (list A))) (r c t : nat) : option A :=
  a !! r ≫= λ l, l !! c ≫= λ m, m !! t.

(** The pure part of [M[:, i]]. *)
Definition colv (M : array2 T) (i : nat) : list T :=
  (λ r, default (of_Z 0) (r !! i)) <$> rows M.
End vocabulary.

Section diffusion_vocabulary.
Context {T : Type} `{Num T}.
Variable pow : T → T → T.
Variable curve_fit :
  (T → T → T → T) → list T → list T → T * T → result (T * T).

(** The lag times [1, ..., K] of a profile of [K] points, as the source
    builds them. *)
Definition lags (K : nat) : list T :=
  np.linspace (of_Z 1) (of_Z (Z.of_nat K)) K.

(** The fit of the first [i] points of a profile: the call of
    [curve_fit] in the loops of [anomModels] and [anomModelsN]. *)
Definition fit_window (MSD : list T) (dt : T) (i : Z) : result (T * T) :=
  curve_fit (λ x D alpha, anomalous pow x D alpha dt)
    (py.upto (lags (length MSD)) i) (py.upto MSD i) p0.
End diffusion_vocabulary.

(** ** The single-trajectory computation at column [i] of a batch *)

Section batch_vocabulary.
Context {T : Type} `{Num T}.
Local Open Scope num_scope.

(** [anomModel(MSD[:, i], dt, frame)]. *)
Definition anomModel_at (pow : T → T → T)
    (curve_fit : (T → T → T → T) → list T → list T → T * T → result (T * T))
    (MSD : array2 T) (dt : T) (frame : Z) (i : Z) : result (T * T) :=
  col ← np.column MSD (Z.to_nat i);
  anomModel pow curve_fit col dt frame.

(** [aspectRatio(x[:, i], y[:, i])]. *)
Definition aspectRatio_at (pi : T) (cos : T → T) (arctan2 mod_ : T → T → T)
    (ConvexHull : list (list T) → result (list Z))
    (x y : array2 T) (i : Z) : result (T * T) :=
  xi ← np.column x (Z.to_nat i);
  yi ← np.column y (Z.to_nat i);
  aspectRatio pi cos arctan2 mod_ ConvexHull xi yi.

(** A finite number: [x - x] is zero (it is NaN for NaN and infinities). *)
Definition is_finite (x : T) : bool := neqb (x - x) (of_Z 0).

(** The input check of [curve_fit] ([check_finite=True]): data with a NaN
    or an infinity is a [ValueError]. *)
Definition finite_checked
    (solver : (T → T → T → T) → list T → list T → T * T → result (T * T))
    (f : T → T → T → T) (xdata ydata : list T) (p0 : T * T) : result (T * T) :=
  if forallb is_finite (xdata ++ ydata) then solver f xdata ydata p0
  else Raise ValueError.

(** Points on one line: every point is on the line of the first two. *)
Definition cross (p q r : list T) : T :=
  match p, q, r with
  | [px; py], [qx; qy], [rx; ry] => (qx - px) * (ry - py) - (qy - py) * (rx - px)
  | _, _, _ => of_Z 0
  end.

Definition flat (points : list (list T)) : bool :=
  match points with
  | p :: q :: rest => forallb (λ r, neqb (cross p q r) (of_Z 0)) rest
  | _ => true
  end.

(** Qhull's precondition in the plane: fewer than three points, or points
    on one line, have no hull. *)
Definition qhull_checked (hull : list (list T) → result (list Z))
    (points : list (list T)) : result (list Z) :=
  if (length points <? 3)%nat || flat points then Raise QhullError
  else hull points.
End batch_vocabulary.

(** ** Inputs for running the model *)

(** A stand-in for [curve_fit] that returns at once: it answers with the
    number of points it was given and the initial exponent.  It lets a
    loop be run to see which windows are fitted. *)
Definition counting_fit {T} `{Num T}
    (f : T → T → T → T) (xdata ydata : list T) (p0 : T * T) : result (T * T) :=
  Ok (of_Z (Z.of_nat (length xdata)), p0.2).

(** A stand-in for [x ** alpha] where the power is never evaluated. *)
Definition no_pow (x alpha : float) : float := x.

(** A profile of [K] points, all [1.0]. *)
Definition flat_profile (K : nat) : list float := replicate K 1%float.

(** Stand-ins for libm where no value of it is computed. *)
Definition no_fun (x : float) : float := x.

(** A hull routine that names every point a corner; only its precondition
    check matters below. *)
Definition every_point (points : list (list float)) : result (list Z) :=
  Ok (seqZ 0 (Z.of_nat (length points))).

(** Two trajectories of three frames: the first moves along a line, the
    second walks a triangle. *)
Definition line_and_triangle_x : array2 float :=
  Array2 2 [[0; 0]; [1; 1]; [2; 0]]%float.
Definition line_and_triangle_y : array2 float :=
  Array2 2 [[0; 0]; [0; 0]; [0; 1]]%float.

(** Two MSD profiles of three lags; the second one is missing (NaN). *)
Definition one_profile_missing : array2 float :=
  Array2 2 [[1; nan]; [2; nan]; [3; nan]]%float.

Section msd_vocabulary.
Context {T : Type} `{Num T}.

(** The lag times of a profile of [n] points are computed exactly: they
    are the integers [1, ..., n], and comparing two of them compares the
    integers.  This holds of every [n] over the reals and of every [n]
    that binary64 counts exactly. *)
Definition exact_lags (n : nat) : Prop :=
  lags n = (λ k, of_Z (Z.of_nat (S k))) <$> seq 0 n
  ∧ ∀ i j : nat, (i < n)%nat → (j < n)%nat →
      nltb (of_Z (Z.of_nat (S j))) (of_Z (Z.of_nat (S i))) = (j <? i)%nat.

(** The state of the two grids after the first [k] columns. *)
Definition filled (Ms : array2 T) (k : nat)
    (acc : list (list (list T)) * list (list (list T))) : Prop :=
  ∀ r c t : nat, (r < nrows Ms)%nat → (c < nrows Ms)%nat → (t < ncols Ms)%nat →
    ∃ mr mc, colv Ms t !! r = Some mr ∧ colv Ms t !! c = Some mc
      ∧ at3 acc.1 r c t = Some (if (t <? k)%nat then mc else of_Z 0)
      ∧ at3 acc.2 r c t = Some (if (t <? k)%nat then mr else of_Z 0).
End msd_vocabulary.

(** Two MSD profiles of three lags. *)
Definition two_profiles : array2 float :=
  Array2 2 [[1; 2]; [2; 8]; [4; 16]]%float.

Section column_vocabulary.
Context {T : Type} `{Num T}.

(** Entry [i] of every row of a list of rows. *)
Definition coll (rs : list (list T)) (i : nat) : list T :=
  (λ r, default (of_Z 0) (r !! i)) <$> rs.

End column_vocabulary.

Section path_vocabulary.
Context {T : Type} `{Num T}.
Local Open Scope num_scope.

(** The squared step lengths of a trajectory with as many [x] as [y]. *)
Definition steps_of (x y : list T) : list T :=
  zip_with nadd (sqr <$> np.diff x) (sqr <$> np.diff y).



End path_vocabulary.

Section shape_vocabulary.
Context {T : Type} `{Num T}.

(** The eigenvector of the larger eigenvalue: column 1 of [vecs] when
    [eigs[0] < eigs[1]], column 0 otherwise. *)
Definition dominant (eigs : list T) (vecs : list (list T)) : result (list T) :=
  e0 ← np.getitem eigs 0;
  e1 ← np.getitem eigs 1;
  if nltb e0 e1 then col_of vecs 1 else col_of vecs 0.

(** A stand-in for [np.linalg.eig] on a diagonal 2 by 2 matrix, the one
    case where the decomposition is read off: the eigenvalues are the
    diagonal entries, in their order, the eigenvectors the unit vectors.
    Other matrices are outside it. *)
Definition eig_of_diagonal (c : list (list T))
    : result (list T * list (list T)) :=
  match c with
  | [[a; b]; [b'; d]] =>
      if neqb b (of_Z 0) && neqb b' (of_Z 0)
      then Ok ([a; d], [[of_Z 1; of_Z 0]; [of_Z 0; of_Z 1]])
      else Raise LinAlgError
  | _ => Raise LinAlgError
  end.
End shape_vocabulary.

(** A stand-in for [np.log] where only [log(1) = 0] is taken. *)
Definition log_at_one (x : float) : float :=
  if PrimFloat.eqb x 1 then 0%float else nan.

(** The straight line from (0,0) to (10,0) in 11 equally spaced frames. *)
Definition straight_line_x : list float := of_Z <$> seqZ 0 11.
Definition straight_line_y : list float := replicate 11 0%float.

(** One point, repeated over three frames. *)
Definition stationary_x : list float := [1; 1; 1]%float.
Definition stationary_y : list float := [2; 2; 2]%float.

(** Four points on the unit circle: the covariance is a multiple of the
    identity, its two eigenvalues are equal. *)
Definition circle_x : list float := [1; 0; -1; 0]%float.
Definition circle_y : list float := [0; 1; 0; -1]%float.

(** Four points on a circle of radius [2^-300]: the two eigenvalues are
    equal and not zero, but the square of their sum is below the smallest
    binary64 number. *)
Definition small_circle_x : list float :=
  [0x1p-300; 0; -0x1p-300; 0]%float.
Definition small_circle_y : list float :=
  [0; 0x1p-300; 0; -0x1p-300]%float.

(** A trajectory that spreads more along [y] than along [x], with
    uncorrelated coordinates: the covariance is diagonal and its larger
    eigenvalue is the second one. *)
Definition tall_x : list float := [-1; 1; -1; 1]%float.
Definition tall_y : list float := [7; -1; -7; 1]%float.



(** ** Paths over the reals *)

Section real_vocabulary.
Local Open Scope R_scope.

Definition sumR (l : list R) : R := foldr Rplus 0 l.

(** The length of a step. *)
Definition norm (v : R * R) : R := R_sqrt.sqrt (v.1 * v.1 + v.2 * v.2).

(** The steps of a trajectory, as vectors. *)
Definition stepsR (x y : list R) : list (R * R) := zip (np.diff x) (np.diff y).

(** The net displacement along one coordinate. *)
Definition displacement (x : list R) : R :=
  default 0 (last x) - default 0 (head x).

(** A straight line walked without turning back: every step is a
    non-negative multiple of the net displacement. *)
Definition aligned (x y : list R) : Prop :=
  Forall (λ v, ∃ t, 0 <= t ∧ v.1 = t * displacement x ∧ v.2 = t * displacement y)
    (stepsR x y).
End real_vocabulary.

(** Two MSD profiles of thirteen lags. *)
Definition two_flat_profiles : array2 float :=
  Array2 2 (replicate 13 [1; 2]%float).

(** The path from (0,0) to (3,4) in one step, over the reals. *)
Definition one_step_x : list R := [0; 3]%R.
Definition one_step_y : list R := [0; 4]%R.

(** ** Checking the lag times in binary64 *)

Definition float_list_eqb (a b : list float) : bool :=
  (length a =? length b)%nat
  && forallb (λ p, PrimFloat.Leibniz.eqb p.1 p.2) (zip a b).

(** [exact_lags n], decided by evaluation. *)
Definition exact_lags_check (n : nat) : bool :=
  float_list_eqb (lags n) ((λ k, of_Z (Z.of_nat (S k))) <$> seq 0 n)
  && forallb (λ i,
       forallb (λ j,
         Bool.eqb (nltb (of_Z (Z.of_nat (S j)) : float) (of_Z (Z.of_nat (S i))))
                  (j <? i)%nat)
         (seq 0 n))
       (seq 0 n).

(** ** Signs in binary64 *)



(** ** Further inputs *)

(** A profile of 13 points with a NaN at lag 12. *)
Definition profile_with_gap : list float :=
  replicate 11 1%float ++ [nan; 1%float].

Section more_batch_vocabulary.
Context {T : Type} `{Num T}.

(** [asym(x[:, i], y[:, i])]. *)
Definition asym_at (log : T → T)
    (eig : list (list T) → result (list T * list (list T)))
    (x y : array2 T) (i : Z)
    : result (list T * list T * list (list T) * T) :=
  xi ← np.column x (Z.to_nat i);
  yi ← np.column y (Z.to_nat i);
  asym log eig xi yi.

(** Every row of a list of rows has [N] entries. *)
Definition rows_of (N : nat) (rs : list (list T)) : Prop :=
  Forall (λ r, length r = N) rs.
End more_batch_vocabulary.

(** ** Trajectories over the reals, moved and rescaled *)

Section more_real_vocabulary.
Local Open Scope R_scope.

(** A coordinate vector translated by [c], and rescaled by [k]. *)
Definition moved (c : R) (x : list R) : list R := (λ v, v + c) <$> x.
Definition scaled (k : R) (x : list R) : list R := (λ v, k * v) <$> x.

(** The lengths of the steps of a trajectory. *)
Definition step_lengths (x y : list R) : list R := norm <$> stepsR x y.

(** Collaborators of [minBoundRect] on a polygon whose corners are given
    in order and whose edges run along the axes in the positive direction:
    the hull routine names every point, the angle of an edge is [0] along
    [x] and [PI / 2] along [y], and the remainder of an angle in
    [[0, m]] is taken. *)
Definition hull_in_order (points : list (list R)) : result (list Z) :=
  Ok (seqZ 0 (Z.of_nat (length points))).
Definition axis_arctan2 (dy dx : R) : R :=
  if Req_dec_T dy 0 then 0 else PI / 2.
Definition mod_below (a m : R) : R := if Req_dec_T a m then 0 else a.
End more_real_vocabulary.

(** * Reading trajectories: [diffpy/utils.py] *)

From Stdlib Require String.

Module utils.
Import String.
Local Open Scope string_scope.

(** An element of a parsed XML document ([xml.etree.ElementTree]): its
    attributes, a dictionary from names to strings, and its children in
    document order.  Parsing the file itself is [ElementTree]'s part. *)
#[local] Unset Elimination Schemes.
Inductive element : Type :=
| Element (attrib : list (string * string)) (children : list element).
#[local] Set Elimination Schemes.

Definition attrib (e : element) : list (string * string) :=
  match e with Element a _ => a end.

Definition children (e : element) : list element :=
  match e with Element _ c => c end.

(** What a call of [read_xml] can end in: the [KeyError] of a missing
    attribute, or an exception of a built-in or of NumPy. *)
Inductive error : Set :=
| KeyError
| Builtin (e : exn).

Inductive outcome (A : Type) : Type :=
| Done (a : A)
| Fail (e : error).
Arguments Done {A} a.
Arguments Fail {A} e.

Definition and_then {A B} (m : outcome A) (k : A → outcome B) : outcome B :=
  match m with
  | Done a => k a
  | Fail e => Fail e
  end.

Declare Scope outcome_scope.
Delimit Scope outcome_scope with outcome.
Notation "x ← y ; z" := (and_then y (λ x, z))
  (at level 20, y at level 100, z at level 200, only parsing) : outcome_scope.
Notation "' x ← y ; z" := (and_then y (λ x, z))
  (at level 20, x pattern, y at level 100, z at level 200, only parsing) : outcome_scope.
Local Open Scope outcome_scope.

(** A call of a built-in or of NumPy inside [read_xml]. *)
Definition lift {A} (m : result A) : outcome A :=
  match m with
  | Ok a => Done a
  | Raise e => Fail (Builtin e)
  end.

(** [d[key]] of a dictionary. *)
Fixpoint getitem (d : list (string * string)) (key : string) : outcome string :=
  match d with
  | [] => Fail KeyError
  | (k, v) :: d' => if String.eqb k key then Done v else getitem d' key
  end.

(** [for v in l: acc = body(acc, v)]. *)
Fixpoint for_ {A S} (l : list A) (body : S → A → outcome S) (acc : S)
    : outcome S :=
  match l with
  | [] => Done acc
  | v :: l' => acc' ← body acc v; for_ l' body acc'
  end.

Section read.
(** The built-ins [int] and [float] on a string: the number, or
    [ValueError]. *)
Variable int_ : string → result Z.
Variable float_ : string → result float.

(** [int(child.attrib['nSpots'])]. *)
Definition nspots_of (child : element) : outcome Z :=
  s ← getitem (attrib child) "nSpots";
  lift (int_ s).

(** One turn of the first loop: the largest [nSpots] so far, and the
    number of tracks. *)
Definition count_body (acc : Z * Z) (child : element) : outcome (Z * Z) :=
  nspots ← nspots_of child;
  Done (if (acc.1 <? nspots)%Z then nspots else acc.1, (acc.2 + 1)%Z).

(** The first loop: [(frames, particles)]. *)
Definition shape_of (root : element) : outcome (Z * Z) :=
  for_ (children root) count_body (0%Z, 0%Z).

(** [np.ones((frames, particles))*np.nan], by its rows. *)
Definition nan_rows (frames particles : Z) : list (list float) :=
  replicate (Z.to_nat frames) (replicate (Z.to_nat particles) (1 * nan)%float).

(** One turn of the inner loop: the spot [particle] of track [part] is
    stored at row [frame]. *)
Definition spot_body (part : Z)
    (acc : list (list float) * list (list float) * Z) (particle : element)
    : outcome (list (list float) * list (list float) * Z) :=
  let '(xs, ys, frame) := acc in
  sx ← getitem (attrib particle) "x";
  vx ← lift (float_ sx);
  xs ← lift (setitem2 xs frame part vx);
  sy ← getitem (attrib particle) "y";
  vy ← lift (float_ sy);
  ys ← lift (setitem2 ys frame part vy);
  Done (xs, ys, (frame + 1)%Z).

(** One turn of the outer loop: the track [child] fills column [part]. *)
Definition track_body
    (acc : list (list float) * list (list float) * Z) (child : element)
    : outcome (list (list float) * list (list float) * Z) :=
  let '(xs, ys, part) := acc in
  '(xs, ys, _) ← for_ (children child) (spot_body part) (xs, ys, 0%Z);
  Done (xs, ys, (part + 1)%Z).

(** [read_xml] on the root of the parsed document. *)
Definition read_xml (root : element) : outcome (array2 float * array2 float) :=
  '(frames, particles) ← shape_of root;
  let xs := nan_rows frames particles in
  let ys := nan_rows frames particles in
  '(xs, ys, _) ← for_ (children root) track_body (xs, ys, 0%Z);
  Done (Array2 (Z.to_nat particles) xs, Array2 (Z.to_nat particles) ys).

(** The coordinates of a spot, when both attributes are there and are
    numbers. *)
Definition coords_of (particle : element) : outcome (float * float) :=
  sx ← getitem (attrib particle) "x";
  vx ← lift (float_ sx);
  sy ← getitem (attrib particle) "y";
  vy ← lift (float_ sy);
  Done (vx, vy).

(** A track whose spots can all be read. *)
Definition readable (child : element) : Prop :=
  Forall (λ particle, ∃ v, coords_of particle = Done v) (children child).
End read.

(** Stand-ins for [int] and [float] that read one decimal digit. *)
Definition digit (s : string) : result Z :=
  match s with
  | "0" => Ok 0%Z
  | "1" => Ok 1%Z
  | "2" => Ok 2%Z
  | "3" => Ok 3%Z
  | "4" => Ok 4%Z
  | "5" => Ok 5%Z
  | "6" => Ok 6%Z
  | "7" => Ok 7%Z
  | "8" => Ok 8%Z
  | "9" => Ok 9%Z
  | _ => Raise ValueError
  end.

Definition digit_float (s : string) : result float :=
  match digit s with
  | Ok z => Ok (float_of_Z z)
  | Raise e => Raise e
  end.

(** A spot with both coordinates, and a track that declares [n] spots. *)
Definition spot (x y : string) : element :=
  Element [("t", "0"); ("x", x); ("y", y)] [].

Definition track (n : string) (spots : list element) : element :=
  Element [("nSpots", n)] spots.

(** Two tracks: one of three spots, one of one spot. *)
Definition two_tracks : element :=
  Element [] [track "3" [spot "1" "2"; spot "3" "4"; spot "5" "6"];
              track "1" [spot "7" "8"]].

(** A track that declares one spot and holds two, alone in a document. *)
Definition long_track : element :=
  track "1" [spot "1" "2"; spot "3" "4"].

Definition under_declared : element := Element [] [long_track].
End utils.

(** * Properties *)

(** ** The model at work *)

Example range_with_stride : py.range 10 20 3 = Ok [10; 13; 16; 19]%Z.
Proof. reflexivity. Qed.

Example range_empty : py.range 10 9 1 = Ok [].
Proof. reflexivity. Qed.

Example range_zero_step : py.range 10 20 0 = Raise ValueError.
Proof. reflexivity. Qed.

Example linspace_lags : np.linspace 1%float 5%float 5 = [1; 2; 3; 4; 5]%float.
Proof. reflexivity. Qed.

Example last_entry : np.getitem [1; 2; 3]%Z (-1) = Ok 3%Z.
Proof. reflexivity. Qed.

Example index_out_of_range : np.getitem [1; 2; 3]%Z 3 = Raise IndexError.
Proof. reflexivity. Qed.

Example diff_steps : np.diff [0; 1; 3; 6]%float = [1; 2; 3]%float.
Proof. reflexivity. Qed.

Example max_of_nothing : np.max (@nil float) = Raise ValueError.
Proof. reflexivity. Qed.

Example bound_needs_two_lags :
  bound (λ v : float, v) [0; 1]%float [0; 0]%float [1]%float = Raise IndexError.
Proof. reflexivity. Qed.

Example single_frame_efficiency : efficiency [1]%float [2]%float = Ok nan.
Proof. reflexivity. Qed.

(** ** Results, indexing and loops *)

Section basics.
Context {A : Type}.

Lemma index_nat (n : nat) (i : nat) :
  (if (Z.of_nat i <? 0)%Z then (Z.of_nat n + Z.of_nat i)%Z else Z.of_nat i)
  = Z.of_nat i.
Proof. destruct (Z.ltb_spec (Z.of_nat i) 0); [lia|reflexivity]. Qed.

Lemma getitem_nat (a : list A) (i : nat) (v : A) :
  a !! i = Some v → np.getitem a (Z.of_nat i) = Ok v.
Proof.
  intros Hi. unfold np.getitem. cbv zeta. rewrite index_nat.
  pose proof (lookup_lt_Some _ _ _ Hi) as Hlt.
  destruct (Z.ltb_spec (Z.of_nat i) 0); [lia|].
  destruct (Z.leb_spec (Z.of_nat (length a)) (Z.of_nat i)); [lia|].
  simpl. rewrite Nat2Z.id, Hi. reflexivity.
Qed.

Lemma getitem_out (a : list A) (i : nat) :
  (length a ≤ i)%nat → np.getitem a (Z.of_nat i) = Raise IndexError.
Proof.
  intros Hle. unfold np.getitem. cbv zeta. rewrite index_nat.
  destruct (Z.ltb_spec (Z.of_nat i) 0); [lia|].
  destruct (Z.leb_spec (Z.of_nat (length a)) (Z.of_nat i)); [|lia].
  reflexivity.
Qed.

Lemma getitem_at (a : list A) (k : Z) :
  (0 ≤ k)%Z →
  np.getitem a k
  = match a !! Z.to_nat k with Some v => Ok v | None => Raise IndexError end.
Proof.
  intros Hk. rewrite <- (Z2Nat.id k Hk) at 1.
  destruct (a !! Z.to_nat k) as [v|] eqn:E.
  - by apply getitem_nat.
  - apply getitem_out. by apply lookup_ge_None.
Qed.

Lemma getitem_last (a : list A) (v : A) :
  last a = Some v → np.getitem a (-1) = Ok v.
Proof.
  intros Hl. unfold np.getitem. cbv zeta.
  destruct a as [|w a]; [discriminate|].
  change ((-1 <? 0)%Z) with true. cbv iota.
  destruct (Z.ltb_spec (Z.of_nat (length (w :: a)) + -1) 0) as [Hn|Hn];
    [simpl in Hn; lia|].
  destruct (Z.leb_spec (Z.of_nat (length (w :: a))) (Z.of_nat (length (w :: a)) + -1));
    [lia|].
  simpl orb. cbv iota.
  replace (Z.to_nat (Z.of_nat (length (w :: a)) + -1)) with (length a)
    by (simpl; lia).
  rewrite last_lookup in Hl. simpl in Hl. rewrite Hl. reflexivity.
Qed.

Lemma getitem_nil (i : Z) : np.getitem (@nil A) i = Raise IndexError.
Proof.
  unfold np.getitem. cbv zeta.
  destruct (_ || _); [reflexivity|].
  rewrite lookup_nil. reflexivity.
Qed.

Lemma setitem_nat (a : list A) (i : nat) (v : A) :
  (i < length a)%nat → np.setitem a (Z.of_nat i) v = Ok (<[i := v]> a).
Proof.
  intros Hlt. unfold np.setitem. cbv zeta. rewrite index_nat.
  destruct (Z.ltb_spec (Z.of_nat i) 0); [lia|].
  destruct (Z.leb_spec (Z.of_nat (length a)) (Z.of_nat i)); [lia|].
  simpl. rewrite Nat2Z.id. reflexivity.
Qed.

Lemma setitem_out (a : list A) (i : nat) (v : A) :
  (length a ≤ i)%nat → np.setitem a (Z.of_nat i) v = Raise IndexError.
Proof.
  intros Hle. unfold np.setitem. cbv zeta. rewrite index_nat.
  destruct (Z.ltb_spec (Z.of_nat i) 0); [lia|].
  destruct (Z.leb_spec (Z.of_nat (length a)) (Z.of_nat i)); [|lia].
  reflexivity.
Qed.
End basics.

Lemma range_up (start stop step : Z) :
  (0 < step)%Z →
  py.range start stop step
  = Ok ((λ k, start + k * step)%Z <$> seqZ 0 ((stop - start + step - 1) / step)).
Proof.
  intros Hs. unfold py.range.
  destruct (Z.eqb_spec step 0); [lia|].
  destruct (Z.ltb_spec 0 step); [reflexivity|lia].
Qed.

Lemma range_count (N : nat) :
  py.range 0 (Z.of_nat N) 1 = Ok (Z.of_nat <$> seq 0 N).
Proof.
  rewrite range_up by lia. f_equal.
  replace ((Z.of_nat N - 0 + 1 - 1) / 1)%Z with (Z.of_nat N) by (rewrite Z.div_1_r; lia).
  unfold seqZ. rewrite Nat2Z.id, <- list_fmap_compose.
  apply list_fmap_ext. intros _ k _. simpl. lia.
Qed.

Lemma range_windows (K skips : Z) :
  (0 < skips)%Z → py.range 10 K skips = Ok (windows K skips).
Proof. intros Hs. rewrite range_up by lia. reflexivity. Qed.

(** A window length that is visited: at least 10, below [K], and on the
    stride. *)
Lemma windows_spec (K skips i : Z) :
  (0 < skips)%Z →
  i ∈ windows K skips ↔ (10 ≤ i < K ∧ (i - 10) mod skips = 0)%Z.
Proof.
  intros Hs. unfold windows. rewrite list_elem_of_fmap. split.
  - intros (k & -> & Hk). apply elem_of_seqZ in Hk.
    assert (k * skips < K - 10)%Z.
    { destruct (Z.lt_ge_cases (k * skips) (K - 10)) as [|Hge]; [assumption|].
      exfalso.
      assert ((K - 10 + skips - 1) / skips < k + 1)%Z; [|lia].
      apply Z.div_lt_upper_bound; [lia|]. nia. }
    assert (0 <= k * skips)%Z by (apply Z.mul_nonneg_nonneg; lia).
    split; [lia|].
    replace (10 + k * skips - 10)%Z with (k * skips)%Z by lia.
    apply Z_mod_mult.
  - intros ((Hlo & Hhi) & Hm).
    exists ((i - 10) / skips)%Z.
    pose proof (Z_div_mod_eq_full (i - 10) skips) as Hd.
    split; [nia|].
    apply elem_of_seqZ. split; [apply Z.div_pos; lia|].
    rewrite Z.add_0_l.
    apply Z.div_lt_upper_bound; [lia|].
    assert (skips * ((K - 10 + skips - 1) / skips) > K - 10 - 1)%Z; [|nia].
    pose proof (Z_div_mod_eq_full (K - 10 + skips - 1) skips).
    pose proof (Z.mod_pos_bound (K - 10 + skips - 1) skips Hs). lia.
Qed.

(** ** The loops that fill two output vectors *)

Lemma bind_ok {A B} (m : result A) (k : A → result B) (b : B) :
  bind m k = Ok b → ∃ a, m = Ok a ∧ k a = Ok b.
Proof. destruct m as [a|e]; simpl; [eauto|discriminate]. Qed.

Lemma setitem_ok {A} (a a' : list A) (i : Z) (v : A) :
  (0 ≤ i)%Z → np.setitem a i v = Ok a' →
  (Z.to_nat i < length a)%nat ∧ a' = <[Z.to_nat i := v]> a.
Proof.
  intros Hi. rewrite <- (Z2Nat.id i Hi) at 1.
  destruct (Nat.lt_ge_cases (Z.to_nat i) (length a)) as [Hlt|Hge].
  - rewrite setitem_nat by assumption. intros [= <-]. auto.
  - rewrite setitem_out by assumption. discriminate.
Qed.

Lemma setitem_run {A} (a : list A) (i : Z) (v : A) :
  (0 ≤ i)%Z → (Z.to_nat i < length a)%nat →
  np.setitem a i v = Ok (<[Z.to_nat i := v]> a).
Proof.
  intros Hi Hlt. rewrite <- (Z2Nat.id i Hi) at 1. by apply setitem_nat.
Qed.

Section loops.
Context {T : Type} `{Num T}.
Variable g : Z → result (T * T).

Lemma store2_ok (a b a' b' : list T) (i : Z) :
  (0 ≤ i)%Z → store2 g (a, b) i = Ok (a', b') →
  ∃ p, g i = Ok p
       ∧ (Z.to_nat i < length a)%nat ∧ (Z.to_nat i < length b)%nat
       ∧ a' = <[Z.to_nat i := p.1]> a ∧ b' = <[Z.to_nat i := p.2]> b.
Proof.
  intros Hi Hs. unfold store2 in Hs.
  apply bind_ok in Hs as (p & Hg & Hs).
  apply bind_ok in Hs as (a1 & Ha & Hs).
  apply bind_ok in Hs as (b1 & Hb & Hs).
  injection Hs as <- <-.
  apply setitem_ok in Ha as [? ->]; [|assumption].
  apply setitem_ok in Hb as [? ->]; [|assumption].
  exists p. auto.
Qed.

Lemma store2_run (a b : list T) (i : Z) (p : T * T) :
  (0 ≤ i)%Z → (Z.to_nat i < length a)%nat → (Z.to_nat i < length b)%nat →
  g i = Ok p →
  store2 g (a, b) i = Ok (<[Z.to_nat i := p.1]> a, <[Z.to_nat i := p.2]> b).
Proof.
  intros Hi Ha Hb Hg. unfold store2. rewrite Hg. simpl.
  rewrite !setitem_run by assumption. reflexivity.
Qed.

Lemma store2_raise (acc : list T * list T) (i : Z) (e : exn) :
  g i = Raise e → store2 g acc i = Raise e.
Proof. intros Hg. unfold store2. rewrite Hg. reflexivity. Qed.

(** What a loop that returned has done: the vectors keep their lengths,
    a visited index holds the pair computed for it, any other index is
    untouched. *)
Lemma for_store2_ok (l : list Z) (a b a' b' : list T) :
  Forall (λ i, 0 ≤ i)%Z l →
  py.for_ l (store2 g) (a, b) = Ok (a', b') →
  length a' = length a ∧ length b' = length b
  ∧ ∀ j : nat,
      (Z.of_nat j ∈ l →
         ∃ p, g (Z.of_nat j) = Ok p ∧ a' !! j = Some p.1 ∧ b' !! j = Some p.2)
      ∧ (Z.of_nat j ∉ l → a' !! j = a !! j ∧ b' !! j = b !! j).
Proof.
  intros Hl. revert a b. induction Hl as [|i l Hi Hl IH]; intros a b Hrun.
  - injection Hrun as <- <-. repeat split; [|done..].
    intros Hj. by apply elem_of_nil in Hj.
  - simpl in Hrun. apply bind_ok in Hrun as ([a1 b1] & Hstep & Hrun).
    apply store2_ok in Hstep as (p & Hg & Hia & Hib & -> & ->); [|assumption].
    destruct (IH _ _ Hrun) as (Hla & Hlb & Hj).
    rewrite length_insert in Hla, Hlb.
    split; [assumption|]. split; [assumption|].
    intros j. destruct (Hj j) as [Hin Hout]. split.
    + intros Hjl. destruct (decide (Z.of_nat j ∈ l)) as [Hjl'|Hjl'].
      { by apply Hin. }
      apply elem_of_cons in Hjl as [Hji|?]; [|done].
      destruct (Hout Hjl') as [-> ->].
      exists p. rewrite <- Hji, Nat2Z.id in *.
      rewrite !list_lookup_insert_eq by assumption. auto.
    + intros Hjl. apply not_elem_of_cons in Hjl as [Hji Hjl].
      destruct (Hout Hjl) as [-> ->].
      rewrite !list_lookup_insert_ne by lia. auto.
Qed.

(** A loop whose every turn finds its index and a result returns. *)
Lemma for_store2_returns (l : list Z) (a b : list T) :
  Forall (λ i, (0 ≤ i)%Z ∧ (Z.to_nat i < length a)%nat
               ∧ (Z.to_nat i < length b)%nat ∧ returns (g i)) l →
  returns (py.for_ l (store2 g) (a, b)).
Proof.
  intros Hl. revert a b Hl. induction l as [|i l IH]; intros a b Hl.
  - by eexists.
  - apply Forall_cons in Hl as [(Hi & Ha & Hb & p & Hg) Hl].
    simpl. rewrite (store2_run _ _ _ p) by assumption. simpl.
    apply IH. eapply Forall_impl; [exact Hl|].
    intros k (? & ? & ? & ?). by rewrite !length_insert.
Qed.

(** The first turn that raises ends the loop with its exception. *)
Lemma for_store2_raises (l1 l2 : list Z) (i : Z) (e : exn) (a b : list T) :
  Forall (λ i, (0 ≤ i)%Z ∧ (Z.to_nat i < length a)%nat
               ∧ (Z.to_nat i < length b)%nat ∧ returns (g i)) l1 →
  g i = Raise e →
  py.for_ (l1 ++ i :: l2) (store2 g) (a, b) = Raise e.
Proof.
  intros Hl Hg. revert a b Hl. induction l1 as [|k l1 IH]; intros a b Hl.
  - simpl. by rewrite (store2_raise _ _ e).
  - apply Forall_cons in Hl as [(Hi & Ha & Hb & p & Hk) Hl].
    simpl. rewrite (store2_run _ _ _ p) by assumption. simpl.
    apply IH. eapply Forall_impl; [exact Hl|].
    intros k' (? & ? & ? & ?). by rewrite !length_insert.
Qed.
End loops.

(** An invariant of the turns of a loop holds of what the loop returns. *)
Lemma for_invariant {A S} (P : S → Prop) (l : list A)
    (body : S → A → result S) (acc acc' : S) :
  (∀ s s' v, v ∈ l → P s → body s v = Ok s' → P s') →
  P acc → py.for_ l body acc = Ok acc' → P acc'.
Proof.
  revert acc. induction l as [|v l IH]; intros acc Hbody Hacc Hrun.
  - by injection Hrun as <-.
  - simpl in Hrun. apply bind_ok in Hrun as (s & Hstep & Hrun).
    apply (IH s); [| |assumption].
    + intros s1 s2 w Hw. apply Hbody. by right.
    + apply (Hbody acc s v); [by left|assumption..].
Qed.

(** ** The summation of a 1-D array *)

Section summation.
Context {T : Type} `{Num T}.
Local Open Scope num_scope.

(** The eight running sums stay eight, and every turn takes eight
    entries. *)
Lemma pairwise_lanes_length (blocks : nat) (r a r' rest : list T) :
  length r = 8%nat → (8 * blocks ≤ length a)%nat →
  np.pairwise_lanes blocks r a = (r', rest) →
  length r' = 8%nat ∧ length rest = (length a - 8 * blocks)%nat.
Proof.
  revert r a. induction blocks as [|k IH]; intros r a Hr Ha Hrun.
  - injection Hrun as <- <-. split; [assumption|lia].
  - cbn [np.pairwise_lanes] in Hrun. apply IH in Hrun as [Hr' Hrest].
    + split; [assumption|]. rewrite Hrest, length_drop. lia.
    + rewrite length_zip_with, length_take. lia.
    + rewrite length_drop. lia.
Qed.

Lemma pairwise_sum_unfold (fuel : nat) (a : list T) :
  np.pairwise_sum fuel a
  = if (length a <? 8)%nat then foldl nadd (of_Z 0) a
    else if (length a <=? np.PW_BLOCKSIZE)%nat then np.pairwise_block a
    else match fuel with
         | O => np.pairwise_block a
         | S fuel' =>
             let n2 := (length a / 2 - (length a / 2) mod 8)%nat in
             np.pairwise_sum fuel' (take n2 a) + np.pairwise_sum fuel' (drop n2 a)
         end.
Proof. destruct fuel; reflexivity. Qed.

(** Where a long array is cut: both parts are shorter. *)
Lemma pairwise_cut (n : nat) :
  (128 < n)%nat →
  let n2 := (n / 2 - (n / 2) mod 8)%nat in (0 < n2 < n)%nat.
Proof.
  intros Hn. cbv zeta.
  pose proof (Nat.mod_upper_bound (n / 2) 8 ltac:(lia)).
  pose proof (Nat.Div0.div_lt_upper_bound n 2 n ltac:(lia)).
  assert (64 ≤ n / 2)%nat by (apply Nat.div_le_lower_bound; lia).
  lia.
Qed.

(** The length of the array is fuel enough: more changes nothing. *)
Lemma pairwise_sum_fuel (f1 f2 : nat) (a : list T) :
  (length a ≤ f1)%nat → (length a ≤ f2)%nat →
  np.pairwise_sum f1 a = np.pairwise_sum f2 a.
Proof.
  revert f2 a. induction f1 as [|f1 IH]; intros f2 a H1 H2.
  - rewrite !pairwise_sum_unfold.
    destruct (Nat.ltb_spec (length a) 8); [reflexivity|lia].
  - rewrite !pairwise_sum_unfold.
    destruct (Nat.ltb_spec (length a) 8); [reflexivity|].
    unfold np.PW_BLOCKSIZE.
    destruct (Nat.leb_spec (length a) 128); [reflexivity|].
    destruct f2 as [|f2]; [lia|]. cbv zeta.
    pose proof (pairwise_cut (length a) ltac:(lia)) as Hcut. cbv zeta in Hcut.
    f_equal; apply IH; rewrite ?length_take, ?length_drop; lia.
Qed.


Lemma BUFSIZE_value : np.BUFSIZE = Z.to_nat 8192.
Proof. reflexivity. Qed.

Lemma add_pieces_unfold (fuel : nat) (acc v : T) (a : list T) :
  np.add_pieces (S fuel) acc (v :: a)
  = np.add_pieces fuel
      (acc + np.pairwise_sum (length (take np.BUFSIZE (v :: a)))
               (take np.BUFSIZE (v :: a)))
      (drop np.BUFSIZE (v :: a)).
Proof. reflexivity. Qed.

Lemma add_pieces_nil (fuel : nat) (acc : T) : np.add_pieces fuel acc [] = acc.
Proof. by destruct fuel. Qed.

(** So is it for the pieces. *)
Lemma add_pieces_fuel (f1 f2 : nat) (acc : T) (a : list T) :
  (length a ≤ f1)%nat → (length a ≤ f2)%nat →
  np.add_pieces f1 acc a = np.add_pieces f2 acc a.
Proof.
  revert f2 acc a. induction f1 as [|f1 IH]; intros f2 acc a H1 H2.
  - destruct a; [by rewrite !add_pieces_nil|simpl in H1; lia].
  - destruct a as [|v a]; [by rewrite !add_pieces_nil|].
    destruct f2 as [|f2]; [simpl in H2; lia|].
    rewrite !add_pieces_unfold. apply IH;
      rewrite length_drop, BUFSIZE_value; simpl in *; lia.
Qed.

Lemma sum_nil : np.sum (T := T) [] = of_Z 0.
Proof. reflexivity. Qed.


End summation.

(** ** Diffusion-model module: the sliding-window fits *)

Section sliding.
Context {T : Type} `{Num T}.
Variable pow : T → T → T.
Variable curve_fit :
  (T → T → T → T) → list T → list T → T * T → result (T * T).

Local Abbreviation fit := (fit_window pow curve_fit).

Lemma anomModels_unfold (MSD : list T) (dt : T) (skips : Z) :
  (0 < skips)%Z →
  anomModels pow curve_fit MSD dt skips
  = py.for_ (windows (Z.of_nat (length MSD)) skips) (store2 (fit MSD dt))
      (np.zeros (length MSD), np.zeros (length MSD)).
Proof.
  intros Hs. unfold anomModels. cbv zeta.
  replace (Z.of_nat (length MSD) + 1 - 1)%Z with (Z.of_nat (length MSD)) by lia.
  rewrite range_windows by assumption. rewrite Nat2Z.id. reflexivity.
Qed.

Lemma windows_nonneg (K skips : Z) :
  (0 < skips)%Z → Forall (λ i, 0 ≤ i)%Z (windows K skips).
Proof.
  intros Hs. apply Forall_forall. intros i Hi.
  apply windows_spec in Hi; [lia|assumption].
Qed.

Lemma zeros_lookup (n i : nat) :
  (i < n)%nat → np.zeros (T := T) n !! i = Some (of_Z 0).
Proof. intros Hi. unfold np.zeros. by apply lookup_replicate_2. Qed.

Lemma zeros_length (n : nat) : length (np.zeros (T := T) n) = n.
Proof. apply length_replicate. Qed.

(** What [anomModels] returns, entry by entry. *)
Lemma anomModels_entries (MSD : list T) (dt : T) (skips : Z) (Ds alphas : list T) :
  (0 < skips)%Z →
  anomModels pow curve_fit MSD dt skips = Ok (Ds, alphas) →
  length Ds = length MSD ∧ length alphas = length MSD
  ∧ ∀ i : nat, (i < length MSD)%nat →
      ((10 ≤ i)%nat ∧ ((Z.of_nat i - 10) mod skips = 0)%Z →
         ∃ D alpha, fit MSD dt (Z.of_nat i) = Ok (D, alpha)
                    ∧ Ds !! i = Some D ∧ alphas !! i = Some alpha)
      ∧ (¬ ((10 ≤ i)%nat ∧ ((Z.of_nat i - 10) mod skips = 0)%Z) →
         Ds !! i = Some (of_Z 0) ∧ alphas !! i = Some (of_Z 0)).
Proof.
  intros Hs Hrun. rewrite anomModels_unfold in Hrun by assumption.
  apply for_store2_ok in Hrun as (Hl1 & Hl2 & Hent);
    [|by apply windows_nonneg].
  rewrite zeros_length in Hl1, Hl2.
  split; [assumption|]. split; [assumption|].
  intros i Hi. destruct (Hent i) as [Hin Hout]. split.
  - intros [Hlo Hm].
    destruct Hin as ([D alpha] & Hfit & HD & Ha).
    { apply windows_spec; [assumption|]. lia. }
    by exists D, alpha.
  - intros Hno.
    destruct Hout as [-> ->].
    { intros Hw. apply windows_spec in Hw; [|assumption]. apply Hno. lia. }
    by rewrite zeros_lookup.
Qed.

(** [anomModels] returns as soon as every fit it asks for does. *)
Lemma anomModels_returns (MSD : list T) (dt : T) (skips : Z) :
  (0 < skips)%Z →
  (∀ i, i ∈ windows (Z.of_nat (length MSD)) skips → returns (fit MSD dt i)) →
  returns (anomModels pow curve_fit MSD dt skips).
Proof.
  intros Hs Hfit. rewrite anomModels_unfold by assumption.
  apply for_store2_returns. apply Forall_forall. intros i Hi.
  pose proof Hi as Hw. apply windows_spec in Hw; [|assumption].
  rewrite zeros_length. repeat split; try lia. by apply Hfit.
Qed.
End sliding.

Section sliding_batch.
Context {T : Type} `{Num T}.
Variable pow : T → T → T.
Variable curve_fit :
  (T → T → T → T) → list T → list T → T * T → result (T * T).

(** [A[frame, i] = v] leaves the other rows as they are. *)
Lemma setitem2_other (A A' : list (list T)) (frame i : Z) (v : T) (r c : nat) :
  (0 ≤ frame)%Z → Z.of_nat r ≠ frame →
  setitem2 A frame i v = Ok A' → at2 A' r c = at2 A r c.
Proof.
  intros Hf Hr Hset. unfold setitem2 in Hset.
  apply bind_ok in Hset as (row & _ & Hset).
  apply bind_ok in Hset as (row' & _ & Hset).
  apply setitem_ok in Hset as [_ ->]; [|assumption].
  unfold at2. rewrite list_lookup_insert_ne by lia. reflexivity.
Qed.

Lemma anomModelsN_body_other (MSD : array2 T) (n : list T) (dt : T) (i frame : Z)
    (acc acc' : list (list T) * list (list T)) (r c : nat) :
  (0 ≤ frame)%Z → Z.of_nat r ≠ frame →
  anomModelsN_body pow curve_fit MSD n dt i acc frame = Ok acc' →
  at2 acc'.1 r c = at2 acc.1 r c ∧ at2 acc'.2 r c = at2 acc.2 r c.
Proof.
  intros Hf Hr Hrun. unfold anomModelsN_body in Hrun.
  apply bind_ok in Hrun as (col & _ & Hrun).
  apply bind_ok in Hrun as (ps & _ & Hrun).
  apply bind_ok in Hrun as (Ds & HD & Hrun).
  apply bind_ok in Hrun as (al & Ha & Hrun).
  injection Hrun as <-. simpl.
  split; eapply setitem2_other; eassumption.
Qed.

(** An entry of a row that is no visited window length is still zero
    when [anomModelsN] returns. *)
Lemma anomModelsN_unvisited (MSD : array2 T) (dt : T) (skips : Z)
    (Ds alphas : array2 T) (r c : nat) :
  (0 < skips)%Z →
  anomModelsN pow curve_fit MSD dt skips = Ok (Ds, alphas) →
  (r < nrows MSD)%nat → (c < ncols MSD)%nat →
  Z.of_nat r ∉ windows (Z.of_nat (nrows MSD)) skips →
  at2 (rows Ds) r c = Some (of_Z 0) ∧ at2 (rows alphas) r c = Some (of_Z 0).
Proof.
  intros Hs Hrun Hr Hc Hw. unfold anomModelsN in Hrun. cbv zeta in Hrun.
  apply bind_ok in Hrun as (idx & _ & Hrun).
  apply bind_ok in Hrun as ([D a] & Hloop & Hrun).
  injection Hrun as <- <-. simpl.
  set (P := λ s : list (list T) * list (list T),
         at2 s.1 r c = Some (of_Z 0) ∧ at2 s.2 r c = Some (of_Z 0)).
  change (P (D, a)).
  eapply for_invariant; [| |exact Hloop].
  - intros s s' i _ Hinv Hbody.
    rewrite range_windows in Hbody by assumption. simpl in Hbody.
    eapply for_invariant; [|exact Hinv|exact Hbody].
    intros s1 s2 frame Hframe [HD Ha] Hstep.
    assert (Hne : Z.of_nat r ≠ frame) by (intros <-; contradiction).
    assert (Hpos : (0 ≤ frame)%Z).
    { apply windows_spec in Hframe; [lia|assumption]. }
    destruct (anomModelsN_body_other _ _ _ _ _ _ _ r c Hpos Hne Hstep) as [E1 E2].
    unfold P. by rewrite E1, E2.
  - unfold P, at2. simpl.
    rewrite !lookup_replicate_2 by assumption. simpl.
    unfold np.zeros. rewrite lookup_replicate_2 by assumption. auto.
Qed.
End sliding_batch.

(** ** The batch loops over the columns *)

Section columns.
Context {T : Type} `{Num T}.

Lemma column_ok (M : array2 T) (i : nat) :
  (i < ncols M)%nat → np.column M i = Ok (colv M i).
Proof.
  intros Hi. unfold np.column.
  destruct (Nat.ltb_spec i (ncols M)); [reflexivity|lia].
Qed.

Lemma column_out (M : array2 T) (i : nat) :
  (ncols M ≤ i)%nat → np.column M i = Raise IndexError.
Proof.
  intros Hi. unfold np.column.
  destruct (Nat.ltb_spec i (ncols M)); [lia|reflexivity].
Qed.

Lemma column_length (M : array2 T) (i : nat) (c : list T) :
  np.column M i = Ok c → length c = nrows M.
Proof.
  unfold np.column. destruct (i <? ncols M)%nat; [|discriminate].
  intros [= <-]. apply length_fmap.
Qed.

Lemma colv_length (M : array2 T) (i : nat) : length (colv M i) = nrows M.
Proof. apply length_fmap. Qed.

Variable g : Z → result (T * T).

(** A batch loop returns when every column's computation does, and then
    holds each column's pair at the column's index. *)
Lemma collect_returns (N : nat) :
  (∀ i : nat, (i < N)%nat → returns (g (Z.of_nat i))) →
  ∃ a b,
    py.for_ (Z.of_nat <$> seq 0 N) (store2 g) (np.zeros N, np.zeros N) = Ok (a, b)
    ∧ length a = N ∧ length b = N
    ∧ ∀ i : nat, (i < N)%nat →
        ∃ p, g (Z.of_nat i) = Ok p ∧ a !! i = Some p.1 ∧ b !! i = Some p.2.
Proof.
  intros Hg.
  assert (Hall : Forall (λ i, (0 ≤ i)%Z
                   ∧ (Z.to_nat i < length (np.zeros (T := T) N))%nat
                   ∧ (Z.to_nat i < length (np.zeros (T := T) N))%nat
                   ∧ returns (g i)) (Z.of_nat <$> seq 0 N)).
  { apply Forall_fmap, Forall_forall. intros i Hi. apply elem_of_seq in Hi.
    simpl. rewrite zeros_length, Nat2Z.id. repeat split; try lia.
    apply Hg. lia. }
  destruct (for_store2_returns g _ _ _ Hall) as ([a b] & Hrun).
  exists a, b. split; [assumption|].
  apply for_store2_ok in Hrun as (Ha & Hb & Hent).
  - rewrite zeros_length in Ha, Hb. split; [assumption|]. split; [assumption|].
    intros i Hi. destruct (Hent i) as [Hin _]. apply Hin.
    apply list_elem_of_fmap. exists i. split; [reflexivity|].
    apply elem_of_seq. lia.
  - apply Forall_fmap, Forall_forall. intros i _. simpl. lia.
Qed.

(** A batch loop raises what the first failing column raises. *)
Lemma collect_raises (N i : nat) (e : exn) :
  (i < N)%nat →
  (∀ j : nat, (j < i)%nat → returns (g (Z.of_nat j))) →
  g (Z.of_nat i) = Raise e →
  py.for_ (Z.of_nat <$> seq 0 N) (store2 g) (np.zeros N, np.zeros N) = Raise e.
Proof.
  intros Hi Hbefore Hg.
  replace N with (i + S (N - S i))%nat at 1 by lia.
  rewrite seq_app, fmap_app. simpl.
  apply for_store2_raises; [|assumption].
  apply Forall_fmap, Forall_forall. intros j Hj. apply elem_of_seq in Hj.
  simpl. rewrite zeros_length, Nat2Z.id. repeat split; try lia.
  apply Hbefore. lia.
Qed.
End columns.

Section batch.
Context {T : Type} `{Num T}.
Variable pow : T → T → T.
Variable curve_fit :
  (T → T → T → T) → list T → list T → T * T → result (T * T).
Variable pi : T.
Variable cos : T → T.
Variable arctan2 mod_ : T → T → T.
Variable ConvexHull : list (list T) → result (list Z).

Lemma anomModelN_loop (MSD : array2 T) (dt : T) (frame : Z) :
  anomModelN pow curve_fit MSD dt frame
  = py.for_ (Z.of_nat <$> seq 0 (ncols MSD))
      (store2 (anomModel_at pow curve_fit MSD dt frame))
      (np.zeros (ncols MSD), np.zeros (ncols MSD)).
Proof.
  unfold anomModelN. cbv zeta. rewrite range_count. simpl.
  generalize (np.zeros (T := T) (ncols MSD), np.zeros (T := T) (ncols MSD)).
  induction (Z.of_nat <$> seq 0 (ncols MSD)) as [|i l IH]; intros acc;
    [reflexivity|].
  simpl. replace (anomModelN_body pow curve_fit MSD
                    (np.linspace (of_Z 1) (of_Z (Z.of_nat (nrows MSD))) (nrows MSD))
                    dt frame acc i)
    with (store2 (anomModel_at pow curve_fit MSD dt frame) acc i).
  { destruct (store2 _ acc i); simpl; [apply IH|reflexivity]. }
  unfold store2, anomModel_at, anomModelN_body.
  destruct (np.column MSD (Z.to_nat i)) as [col|e] eqn:Hcol; [|reflexivity].
  simpl. unfold anomModel. cbv zeta.
  apply column_length in Hcol. rewrite Hcol.
  replace (Z.of_nat (nrows MSD) + 1 - 1)%Z with (Z.of_nat (nrows MSD)) by lia.
  rewrite Nat2Z.id.
  destruct (curve_fit _ _ _ _) as [ps|e]; reflexivity.
Qed.

Lemma aspectRatios_loop (x y : array2 T) :
  aspectRatios pi cos arctan2 mod_ ConvexHull x y
  = py.for_ (Z.of_nat <$> seq 0 (ncols x))
      (store2 (aspectRatio_at pi cos arctan2 mod_ ConvexHull x y))
      (np.zeros (ncols x), np.zeros (ncols x)).
Proof.
  unfold aspectRatios. cbv zeta. rewrite range_count. simpl.
  generalize (np.zeros (T := T) (ncols x), np.zeros (T := T) (ncols x)).
  induction (Z.of_nat <$> seq 0 (ncols x)) as [|i l IH]; intros acc;
    [reflexivity|].
  simpl. replace (aspectRatios_body pi cos arctan2 mod_ ConvexHull x y acc i)
    with (store2 (aspectRatio_at pi cos arctan2 mod_ ConvexHull x y) acc i).
  { destruct (store2 _ acc i); simpl; [apply IH|reflexivity]. }
  unfold store2, aspectRatio_at, aspectRatios_body.
  destruct (np.column x (Z.to_nat i)) as [xi|e]; [|reflexivity].
  destruct (np.column y (Z.to_nat i)) as [yi|e]; [|reflexivity].
  simpl. destruct (aspectRatio _ _ _ _ _ xi yi) as [[ar elong]|e]; reflexivity.
Qed.
End batch.

(** ** MSD-consistency module *)

Section grids.
Context {T : Type} `{Num T}.

Lemma at2_zip2 {A B C} (f : A → B → C) (a : list (list A)) (b : list (list B))
    (r c : nat) :
  at2 (zip2 f a b) r c
  = at2 a r c ≫= λ u, at2 b r c ≫= λ v, Some (f u v).
Proof.
  unfold at2, zip2. rewrite lookup_zip_with.
  destruct (a !! r) as [la|]; simpl; [|reflexivity].
  destruct (b !! r) as [lb|]; simpl.
  - rewrite lookup_zip_with. destruct (la !! c); reflexivity.
  - destruct (la !! c); reflexivity.
Qed.

Lemma at3_zip3 {A B C} (f : A → B → C)
    (a : list (list (list A))) (b : list (list (list B))) (r c t : nat) :
  at3 (zip3 f a b) r c t
  = at3 a r c t ≫= λ u, at3 b r c t ≫= λ v, Some (f u v).
Proof.
  unfold at3, zip3, zip2. rewrite lookup_zip_with.
  destruct (a !! r) as [la|]; simpl; [|reflexivity].
  destruct (b !! r) as [lb|]; simpl.
  - rewrite lookup_zip_with.
    destruct (la !! c) as [ma|]; simpl; [|reflexivity].
    destruct (lb !! c) as [mb|]; simpl.
    + rewrite lookup_zip_with. destruct (ma !! t); reflexivity.
    + destruct (ma !! t); reflexivity.
  - destruct (la !! c) as [ma|]; simpl; [|reflexivity].
    destruct (ma !! t); reflexivity.
Qed.

Lemma at3_tile3 (g : list (list T)) (N r c t : nat) (v : T) :
  at2 g r c = Some v → (t < N)%nat → at3 (tile3 g N) r c t = Some v.
Proof.
  unfold at2, at3, tile3. intros Hv Ht. rewrite list_lookup_fmap.
  destruct (g !! r) as [l|]; simpl in *; [|discriminate].
  rewrite list_lookup_fmap, Hv. simpl. by apply lookup_replicate_2.
Qed.

(** The two grids of [np.meshgrid(a, a)]. *)
Lemma meshgrid_fst (a : list T) (r c : nat) (v : T) :
  (r < length a)%nat → a !! c = Some v →
  at2 (np.meshgrid a a).1 r c = Some v.
Proof.
  intros Hr Hc. unfold at2. simpl.
  rewrite lookup_replicate_2 by assumption. exact Hc.
Qed.

Lemma meshgrid_snd (a : list T) (r c : nat) (v : T) :
  a !! r = Some v → (c < length a)%nat →
  at2 (np.meshgrid a a).2 r c = Some v.
Proof.
  intros Hr Hc. unfold at2. simpl.
  rewrite list_lookup_fmap, Hr. simpl. by apply lookup_replicate_2.
Qed.

(** [a[:, :, i] = g], entry by entry. *)
Lemma at3_setslice3 (a : list (list (list T))) (g : list (list T))
    (i r c t : nat) (u v : T) :
  at3 a r c t = Some u → at2 g r c = Some v →
  at3 (setslice3 a i g) r c t = Some (if decide (t = i) then v else u).
Proof.
  unfold at3, at2, setslice3, zip2. intros Hu Hv. rewrite lookup_zip_with.
  destruct (a !! r) as [la|]; simpl in *; [|discriminate].
  destruct (g !! r) as [lg|]; simpl in *; [|discriminate].
  rewrite lookup_zip_with.
  destruct (la !! c) as [m|]; simpl in *; [|discriminate].
  rewrite Hv. simpl.
  destruct (decide (t = i)) as [->|Hne].
  - apply list_lookup_insert_eq. by eapply lookup_lt_Some.
  - by rewrite list_lookup_insert_ne.
Qed.
End grids.

Section msd_loop.
Context {T : Type} `{Num T}.
Local Open Scope num_scope.

(** The entry of row [r] and column [t] of a well-formed matrix. *)
Lemma rectangular_at2 (Ms : array2 T) (r t : nat) :
  rectangular Ms → (r < nrows Ms)%nat → (t < ncols Ms)%nat →
  ∃ v, at2 (rows Ms) r t = Some v ∧ colv Ms t !! r = Some v.
Proof.
  intros Hwf Hr Ht. unfold at2, colv.
  destruct (lookup_lt_is_Some_2 (rows Ms) r Hr) as [l Hl].
  assert (Hlen : length l = ncols Ms).
  { eapply (proj1 (Forall_lookup _ _) Hwf); eassumption. }
  destruct (lookup_lt_is_Some_2 l t) as [v Hv]; [lia|].
  exists v. rewrite list_lookup_fmap, Hl. simpl. by rewrite Hv.
Qed.

Lemma msdRatios_body_filled (Ms : array2 T) (k : nat)
    (acc : list (list (list T)) * list (list (list T))) :
  rectangular Ms → (k < ncols Ms)%nat → filled Ms k acc →
  ∃ acc', msdRatios_body Ms acc (Z.of_nat k) = Ok acc' ∧ filled Ms (S k) acc'.
Proof.
  intros Hwf Hk Hacc. unfold msdRatios_body.
  rewrite Nat2Z.id, column_ok by assumption. simpl.
  eexists. split; [reflexivity|].
  intros r c t Hr Hc Ht. simpl.
  destruct (Hacc r c t Hr Hc Ht) as (mr & mc & Hmr & Hmc & H1 & H2).
  destruct (rectangular_at2 Ms r k Hwf Hr Hk) as (kr & _ & Hkr).
  destruct (rectangular_at2 Ms c k Hwf Hc Hk) as (kc & _ & Hkc).
  exists mr, mc. split; [assumption|]. split; [assumption|].
  rewrite (at3_setslice3 _ _ k r c t _ kc H1);
    [|apply (meshgrid_fst (colv Ms k)); [by rewrite colv_length|assumption]].
  rewrite (at3_setslice3 _ _ k r c t _ kr H2);
    [|apply (meshgrid_snd (colv Ms k)); [assumption|by rewrite colv_length]].
  destruct (decide (t = k)) as [->|Hne].
  - destruct (Nat.ltb_spec k (S k)); [|lia].
    rewrite Hkr in Hmr. rewrite Hkc in Hmc.
    injection Hmr as <-. injection Hmc as <-. auto.
  - destruct (Nat.ltb_spec t k), (Nat.ltb_spec t (S k)); auto; lia.
Qed.

Lemma msdRatios_loop_filled (Ms : array2 T) (m k : nat)
    (acc : list (list (list T)) * list (list (list T))) :
  rectangular Ms → (k + m = ncols Ms)%nat → filled Ms k acc →
  ∃ acc', py.for_ (Z.of_nat <$> seq k m) (msdRatios_body Ms) acc = Ok acc'
          ∧ filled Ms (ncols Ms) acc'.
Proof.
  intros Hwf. revert k acc. induction m as [|m IH]; intros k acc Hkm Hacc.
  - exists acc. split; [reflexivity|]. by replace (ncols Ms) with k by lia.
  - simpl.
    destruct (msdRatios_body_filled Ms k acc) as (acc1 & -> & Hacc1);
      [assumption|lia|assumption|].
    simpl. apply IH; [lia|assumption].
Qed.
End msd_loop.

Section msd_result.
Context {T : Type} `{Num T}.
Local Open Scope num_scope.

Lemma zero_grids_filled (Ms : array2 T) :
  rectangular Ms →
  filled Ms 0 (replicate (nrows Ms) (replicate (nrows Ms) (np.zeros (ncols Ms))),
               replicate (nrows Ms) (replicate (nrows Ms) (np.zeros (ncols Ms)))).
Proof.
  intros Hwf r c t Hr Hc Ht.
  destruct (rectangular_at2 Ms r t Hwf Hr Ht) as (mr & _ & Hmr).
  destruct (rectangular_at2 Ms c t Hwf Hc Ht) as (mc & _ & Hmc).
  exists mr, mc. split; [assumption|]. split; [assumption|].
  simpl. unfold at3.
  rewrite !lookup_replicate_2 by assumption. simpl.
  rewrite !lookup_replicate_2 by assumption. simpl.
  by rewrite zeros_lookup.
Qed.

(** What [msdRatios] returns, entry by entry (rows and columns from 0). *)
Lemma msdRatios_at3 (Ms : array2 T) :
  rectangular Ms → exact_lags (nrows Ms) →
  ∃ R, msdRatios Ms = Ok R
    ∧ ∀ r c t : nat,
        (r < nrows Ms)%nat → (c < nrows Ms)%nat → (t < ncols Ms)%nat →
        ∃ mr mc,
          at2 (rows Ms) r t = Some mr ∧ at2 (rows Ms) c t = Some mc
          ∧ at3 R r c t
            = Some (if (c <? r)%nat then of_Z 0
                    else mr / mc - of_Z (Z.of_nat (S r)) / of_Z (Z.of_nat (S c))).
Proof.
  intros Hwf [Hns Hcmp]. unfold msdRatios. cbv zeta.
  fold (lags (T := T) (nrows Ms)).
  rewrite range_count. simpl.
  destruct (msdRatios_loop_filled Ms (ncols Ms) 0 _ Hwf eq_refl
              (zero_grids_filled Ms Hwf)) as ([M2y M2x] & -> & Hfill).
  simpl. eexists. split; [reflexivity|].
  intros r c t Hr Hc Ht.
  destruct (Hfill r c t Hr Hc Ht) as (mr & mc & Hmr & Hmc & Hy & Hx).
  simpl in Hy, Hx.
  destruct (Nat.ltb_spec t (ncols Ms)); [|lia].
  destruct (rectangular_at2 Ms r t Hwf Hr Ht) as (mr' & Hr2 & Hr1).
  destruct (rectangular_at2 Ms c t Hwf Hc Ht) as (mc' & Hc2 & Hc1).
  rewrite Hmr in Hr1. injection Hr1 as <-.
  rewrite Hmc in Hc1. injection Hc1 as <-.
  exists mr, mc. split; [assumption|]. split; [assumption|].
  assert (Hlen : length (lags (T := T) (nrows Ms)) = nrows Ms).
  { by rewrite Hns, length_fmap, length_seq. }
  assert (Hlag : ∀ k, (k < nrows Ms)%nat →
            lags (T := T) (nrows Ms) !! k = Some (of_Z (Z.of_nat (S k)))).
  { intros k Hk. rewrite Hns, list_lookup_fmap, lookup_seq_lt by assumption.
    reflexivity. }
  assert (Hn2y : at3 (tile3 (replicate (length (lags (T := T) (nrows Ms)))
                               (lags (nrows Ms))) (ncols Ms)) r c t
                 = Some (of_Z (Z.of_nat (S c)))).
  { apply at3_tile3; [|assumption].
    apply (meshgrid_fst (lags (nrows Ms))); [by rewrite Hlen|by apply Hlag]. }
  assert (Hn2x : at3 (tile3 ((λ v, replicate (length (lags (T := T) (nrows Ms))) v)
                               <$> lags (nrows Ms)) (ncols Ms)) r c t
                 = Some (of_Z (Z.of_nat (S r)))).
  { apply at3_tile3; [|assumption].
    apply (meshgrid_snd (lags (nrows Ms))); [by apply Hlag|by rewrite Hlen]. }
  rewrite !at3_zip3, Hy, Hx, Hn2y, Hn2x. simpl.
  unfold ngtb, clear. rewrite Hcmp by assumption. reflexivity.
Qed.
End msd_result.

(** Over the reals the lag times are exact, whatever the length. *)
Lemma exact_lags_R (n : nat) : exact_lags (T := R) n.
Proof.
  split.
  - unfold lags, np.linspace. cbv zeta.
    destruct (Nat.ltb_spec 0 (n - 1)) as [Hd|Hd].
    + destruct (Nat.ltb_spec 1 n); [|lia].
      assert (Hstep : ((IZR (Z.of_nat n) - IZR 1) / IZR (Z.of_nat (n - 1)) = 1)%R).
      { rewrite <- minus_IZR.
        replace (Z.of_nat n - 1)%Z with (Z.of_nat (n - 1)) by lia.
        apply Rdiv_diag. apply not_0_IZR. lia. }
      cbn [nsub ndiv of_Z nadd nmul neqb R_num]. rewrite Hstep.
      destruct (Req_dec_T 1 (IZR 0)) as [E|_]; [lra|].
      apply list_eq. intros k.
      destruct (Nat.lt_ge_cases k n) as [Hk|Hk].
      * rewrite list_lookup_fmap, (lookup_seq_lt _ _ _ Hk). simpl.
        destruct (decide (k = n - 1)%nat) as [->|Hne].
        { rewrite list_lookup_insert_eq
            by (rewrite !length_fmap, length_seq; lia).
          do 2 f_equal. lia. }
        rewrite list_lookup_insert_ne by lia.
        rewrite !list_lookup_fmap, (lookup_seq_lt _ _ _ Hk). simpl. f_equal.
        rewrite Rmult_1_r, <- plus_IZR. f_equal. lia.
      * rewrite !lookup_ge_None_2; [reflexivity| |].
        { by rewrite length_fmap, length_seq. }
        { by rewrite length_insert, !length_fmap, length_seq. }
    + destruct n as [|[|n]]; [reflexivity| |simpl in Hd; lia].
      simpl. f_equal.
      change (Z.of_nat 0) with 0%Z. change (Z.of_nat 1) with 1%Z. lra.
  - intros i j _ _. simpl.
    destruct (Rlt_dec _ _) as [Hlt|Hnlt], (Nat.ltb_spec j i); try reflexivity.
    + apply lt_IZR in Hlt. lia.
    + exfalso. apply Hnlt, IZR_lt. lia.
Qed.

(** In binary64 the lag times are exact for every profile of at most 64
    points, by evaluation. *)
Lemma float_list_eqb_eq (a b : list float) :
  float_list_eqb a b = true → a = b.
Proof.
  unfold float_list_eqb. intros Hab. apply andb_true_iff in Hab as [Hl Hz].
  apply Nat.eqb_eq in Hl.
  revert b Hl Hz. induction a as [|u a IH]; intros [|v b] Hl Hz;
    try discriminate; [reflexivity|].
  simpl in Hz. apply andb_true_iff in Hz as [Huv Hz].
  apply FloatAxioms.Leibniz.eqb_spec in Huv. subst v. f_equal.
  apply IH; [by injection Hl|assumption].
Qed.

Lemma exact_lags_check_sound (n : nat) :
  exact_lags_check n = true → exact_lags (T := float) n.
Proof.
  unfold exact_lags_check. intros Hc. apply andb_true_iff in Hc as [Hl Hcmp].
  split; [by apply float_list_eqb_eq|].
  intros i j Hi Hj.
  rewrite forallb_forall in Hcmp.
  assert (Hrow := Hcmp i). rewrite forallb_forall in Hrow.
  apply Bool.eqb_prop, Hrow.
  - apply in_seq. lia.
  - apply in_seq. lia.
Qed.

Lemma exact_lags_float (n : nat) : (n ≤ 64)%nat → exact_lags (T := float) n.
Proof.
  intros Hn. apply exact_lags_check_sound.
  assert (Hall : forallb exact_lags_check (seq 0 65) = true)
    by (vm_compute; reflexivity).
  rewrite forallb_forall in Hall. apply Hall, in_seq. lia.
Qed.

(** ** Columns of the array operations *)

Section column_lemmas.
Context {T : Type} `{Num T}.
Implicit Types (rs ra rb : list (list T)) (i n : nat).










(** Rows of one length are combined entry by entry. *)
Lemma map2_same (f : T → T → T) (a b : list T) :
  length a = length b → np.map2 f a b = Ok (zip_with f a b).
Proof.
  intros Hl. unfold np.map2.
  destruct (Nat.eqb_spec (length a) (length b)); [reflexivity|contradiction].
Qed.







End column_lemmas.

(** ** Path statistics: a batch column by column *)

Section path_columns.
Context {T : Type} `{Num T}.
Local Open Scope num_scope.
Implicit Types (xs ys A : array2 T) (i : nat).

Lemma tail_length {B : Type} (a : list B) : length (tail a) = (length a - 1)%nat.
Proof. destruct a; simpl; lia. Qed.

Lemma diff_length (a : list T) : length (np.diff a) = (length a - 1)%nat.
Proof. unfold np.diff. rewrite length_zip_with, tail_length. lia. Qed.

Lemma steps2_same (x y : list T) :
  length x = length y → steps2 x y = Ok (steps_of x y).
Proof.
  intros Hl. unfold steps2. apply map2_same.
  rewrite !length_fmap, !diff_length. lia.
Qed.








End path_columns.

Section path_batch.
Context {T : Type} `{Num T}.
Local Open Scope num_scope.
Variable exp : T → T.
Variable log : T → T.
Implicit Types (xs ys Ms : array2 T) (i : nat).




End path_batch.

Section path_batch_libm.
Context {T : Type} `{Num T}.
Local Open Scope num_scope.
Variable exp : T → T.
Variable log : T → T.
Implicit Types (xs ys Ms : array2 T) (i : nat).




End path_batch_libm.

(** ** Facts of binary64 arithmetic *)

Section binary64.
Local Open Scope float_scope.

(** A quotient by zero is NaN or an infinity. *)
Lemma div_by_zero (a : float) :
  a / 0 = nan ∨ a / 0 = infinity ∨ a / 0 = neg_infinity.
Proof.
  rewrite <- (SF2Prim_Prim2SF (a / 0)), div_spec.
  change (Prim2SF 0) with (S754_zero false).
  destruct (Prim2SF a) as [[|]|[|]| |[|] m e]; cbn; auto.
Qed.

(** A number minus itself is zero, or NaN when it is not finite. *)
Lemma sub_self (a : float) : a - a = 0 ∨ a - a = nan.
Proof.
  rewrite <- (SF2Prim_Prim2SF (a - a)), sub_spec.
  destruct (Prim2SF a) as [[|]|[|]| |s m e]; cbn; auto.
  rewrite Z.sub_diag. cbn. auto.
Qed.

(** Zero over anything is a zero or NaN. *)
Lemma zero_div (d : float) : 0 / d = 0 ∨ 0 / d = neg_zero ∨ 0 / d = nan.
Proof.
  rewrite <- (SF2Prim_Prim2SF (0 / d)), div_spec.
  change (Prim2SF 0) with (S754_zero false).
  destruct (Prim2SF d) as [[|]|[|]| |[|] m e]; cbn; auto.
Qed.

Lemma nan_div (d : float) : nan / d = nan.
Proof.
  rewrite <- (SF2Prim_Prim2SF (nan / d)), div_spec.
  change (Prim2SF nan) with S754_nan.
  destruct (Prim2SF d) as [[|]|[|]| |[|] m e]; reflexivity.
Qed.

(** No quotient by zero is finite. *)
Lemma div_by_zero_not_finite (a : float) : is_finite (a / 0) = false.
Proof.
  destruct (div_by_zero a) as [-> |[-> | ->]]; reflexivity.
Qed.

(** The argument of the logarithm in asymmetry-3, at two equal
    eigenvalues: 1 or NaN. *)
Lemma asym3_argument (l : float) :
  let v := (1 - 0.5 * ((l - l) * (l - l)) / ((l + l) * (l + l))) in
  v = 1 ∨ v = nan.
Proof.
  cbv zeta. destruct (sub_self l) as [-> | ->].
  - change (0.5 * (0 * 0)) with 0.
    destruct (zero_div ((l + l) * (l + l))) as [-> |[-> | ->]]; auto.
  - change (0.5 * (nan * nan)) with nan. rewrite nan_div. auto.
Qed.

(** A finite float minus itself is zero; NaN and the infinities give NaN. *)
Lemma finite_sub_self (a : float) : is_finite a = true → a - a = 0.
Proof.
  unfold is_finite. cbn [neqb nsub float_num].
  destruct (sub_self a) as [-> | ->]; [reflexivity|discriminate].
Qed.

Lemma not_finite_sub_self (a : float) : is_finite a = false → a - a = nan.
Proof.
  unfold is_finite. cbn [neqb nsub float_num].
  destruct (sub_self a) as [-> | ->]; [discriminate|reflexivity].
Qed.

(** Zero over a positive float is zero; zero over a zero is NaN. *)
Lemma zero_div_positive (d : float) : (0 <? d) = true → 0 / d = 0.
Proof.
  rewrite FloatAxioms.ltb_spec. change (Prim2SF 0) with (S754_zero false).
  intros Hd. rewrite <- (SF2Prim_Prim2SF (0 / d)), div_spec.
  change (Prim2SF 0) with (S754_zero false).
  destruct (Prim2SF d) as [[|]|[|]| |[|] m e]; try discriminate; reflexivity.
Qed.

Lemma div_zero_by_zero (a d : float) :
  a = 0 ∨ a = nan → (d =? 0) = true → a / d = nan.
Proof.
  intros Ha. rewrite FloatAxioms.eqb_spec. change (Prim2SF 0) with (S754_zero false).
  intros Hd. destruct Ha as [-> | ->]; [|apply nan_div].
  rewrite <- (SF2Prim_Prim2SF (0 / d)), div_spec.
  change (Prim2SF 0) with (S754_zero false).
  destruct (Prim2SF d) as [[|]|[|]| |[|] m e]; try discriminate; reflexivity.
Qed.

(** The argument of the logarithm in asymmetry-3 at two equal
    eigenvalues, case by case: 1 when the eigenvalue is finite and the
    square of the sum is positive; NaN when that square is zero, or when
    the eigenvalue is not finite. *)
Lemma asym3_argument_cases (l : float) :
  let v := (1 - 0.5 * ((l - l) * (l - l)) / ((l + l) * (l + l))) in
  (is_finite l = true → (0 <? (l + l) * (l + l)) = true → v = 1)
  ∧ (((l + l) * (l + l) =? 0) = true → v = nan)
  ∧ (is_finite l = false → v = nan).
Proof.
  cbv zeta. split; [|split].
  - intros Hf Hd. rewrite (finite_sub_self l Hf).
    change (0.5 * (0 * 0)) with 0. by rewrite zero_div_positive.
  - intros Hd.
    rewrite (div_zero_by_zero (0.5 * ((l - l) * (l - l))) _); [reflexivity| |exact Hd].
    destruct (sub_self l) as [-> | ->]; [by left|by right].
  - intros Hf. rewrite (not_finite_sub_self l Hf).
    change (0.5 * (nan * nan)) with nan. by rewrite nan_div.
Qed.
End binary64.

(** ** Sums of squares in binary64 *)

Section binary64_signs.
Local Open Scope float_scope.










End binary64_signs.

(** ** Efficiency and straightness in exact arithmetic *)

Section real_sums.
Local Open Scope R_scope.

Lemma sumR_cons (a : R) (l : list R) : sumR (a :: l) = a + sumR l.
Proof. reflexivity. Qed.

Lemma foldl_plus (v : R) (l : list R) : foldl Rplus v l = v + sumR l.
Proof.
  revert v. induction l as [|a l IH]; intros v; [simpl; lra|].
  simpl foldl. rewrite IH, sumR_cons. lra.
Qed.

Lemma sumR_app (l k : list R) : sumR (l ++ k) = sumR l + sumR k.
Proof.
  induction l as [|a l IH]; [simpl; lra|].
  rewrite <- app_comm_cons, !sumR_cons, IH. lra.
Qed.

Lemma sumR_cut (n : nat) (l : list R) : sumR (take n l) + sumR (drop n l) = sumR l.
Proof. by rewrite <- sumR_app, take_drop. Qed.

Lemma sumR_zip (l k : list R) :
  length l = length k → sumR (zip_with Rplus l k) = sumR l + sumR k.
Proof.
  revert k. induction l as [|a l IH]; intros [|b k] Hl; try discriminate;
    [simpl; lra|].
  cbn [zip_with]. rewrite !sumR_cons, IH by (simpl in Hl; lia). lra.
Qed.

(** Over the reals the grouping of a sum does not matter: the running
    sums, the block, the halves and the pieces add up to the sum of the
    entries. *)
Lemma pairwise_lanes_R (blocks : nat) (r a r' rest : list R) :
  length r = 8%nat → (8 * blocks ≤ length a)%nat →
  np.pairwise_lanes blocks r a = (r', rest) →
  sumR r' + sumR rest = sumR r + sumR a.
Proof.
  revert r a. induction blocks as [|k IH]; intros r a Hr Ha Hrun.
  - by injection Hrun as <- <-.
  - cbn [np.pairwise_lanes] in Hrun. apply IH in Hrun.
    + rewrite Hrun. change (@nadd R R_num) with Rplus.
      rewrite sumR_zip by (rewrite length_take; lia).
      rewrite <- (sumR_cut 8 a). lra.
    + rewrite length_zip_with, length_take. lia.
    + rewrite length_drop. lia.
Qed.

Lemma pairwise_tree_R (r : list R) : length r = 8%nat → np.pairwise_tree r = sumR r.
Proof.
  intros Hr. do 9 (destruct r as [|? r]; try discriminate Hr).
  unfold np.pairwise_tree, sumR. cbn [foldr nadd R_num]. lra.
Qed.

Lemma pairwise_block_R (a : list R) : (8 ≤ length a)%nat → np.pairwise_block a = sumR a.
Proof.
  intros Ha. unfold np.pairwise_block.
  assert (Hb : (8 * (length a / 8 - 1) ≤ length (drop 8 a))%nat).
  { rewrite length_drop. pose proof (Nat.Div0.mul_div_le (length a) 8). lia. }
  assert (Hr : length (take 8 a) = 8%nat) by (rewrite length_take; lia).
  destruct (np.pairwise_lanes _ _ _) as [r rest] eqn:Hrun.
  pose proof (pairwise_lanes_R _ _ _ _ _ Hr Hb Hrun) as Hsum.
  destruct (pairwise_lanes_length _ _ _ _ _ Hr Hb Hrun) as [Hr' _].
  rewrite sumR_cut in Hsum.
  change (@nadd R R_num) with Rplus. rewrite foldl_plus, pairwise_tree_R by assumption.
  exact Hsum.
Qed.

Lemma pairwise_sum_R (fuel : nat) (a : list R) : np.pairwise_sum fuel a = sumR a.
Proof.
  revert a. induction fuel as [|f IH]; intros a; rewrite pairwise_sum_unfold;
    (destruct (Nat.ltb_spec (length a) 8);
       [change (@nadd R R_num) with Rplus; rewrite foldl_plus; simpl; lra|]);
    (destruct (Nat.leb_spec (length a) np.PW_BLOCKSIZE);
       [by apply pairwise_block_R|]).
  - by apply pairwise_block_R.
  - cbv zeta. rewrite !IH. apply sumR_cut.
Qed.

Lemma add_pieces_R (fuel : nat) (acc : R) (a : list R) :
  (length a ≤ fuel)%nat → np.add_pieces fuel acc a = acc + sumR a.
Proof.
  revert acc a. induction fuel as [|f IH]; intros acc a Ha.
  - destruct a; [simpl; lra|simpl in Ha; lia].
  - destruct a as [|v a]; [simpl; lra|].
    rewrite add_pieces_unfold, IH, pairwise_sum_R.
    + cbn [nadd R_num]. rewrite <- (sumR_cut np.BUFSIZE (v :: a)). lra.
    + rewrite length_drop, BUFSIZE_value. simpl in *. lia.
Qed.

Lemma np_sum_R (l : list R) : np.sum l = sumR l.
Proof.
  unfold np.sum. rewrite add_pieces_R by lia. simpl. lra.
Qed.


Lemma sumR_nonneg (l : list R) : Forall (λ v, 0 <= v) l → 0 <= sumR l.
Proof.
  induction 1 as [|a l Ha _ IH]; [simpl; lra|]. rewrite sumR_cons. lra.
Qed.

(** A sum of non-negative terms that is zero has only zero terms. *)
Lemma sumR_zero (l : list R) :
  Forall (λ v, 0 <= v) l → sumR l = 0 → Forall (λ v, v = 0) l.
Proof.
  induction 1 as [|a l Ha Hl IH]; intros Hs; [constructor|].
  rewrite sumR_cons in Hs. pose proof (sumR_nonneg l Hl).
  constructor; [lra|]. apply IH. lra.
Qed.

Lemma sumR_le {A} (f g : A → R) (l : list A) :
  Forall (λ v, f v <= g v) l → sumR (f <$> l) <= sumR (g <$> l).
Proof.
  induction 1 as [|a l Ha _ IH]; [simpl; lra|].
  rewrite !fmap_cons, !sumR_cons. lra.
Qed.

Lemma sumR_scale {A} (f : A → R) (c : R) (l : list A) :
  sumR ((λ v, f v * c) <$> l) = sumR (f <$> l) * c.
Proof.
  induction l as [|a l IH]; [simpl; lra|].
  rewrite !fmap_cons, !sumR_cons, IH. lra.
Qed.

Lemma sumR_plus {A} (f g : A → R) (l : list A) :
  sumR ((λ v, f v + g v) <$> l) = sumR (f <$> l) + sumR (g <$> l).
Proof.
  induction l as [|a l IH]; [simpl; lra|].
  rewrite !fmap_cons, !sumR_cons, IH. lra.
Qed.

Lemma sumR_minus {A} (f g : A → R) (l : list A) :
  sumR ((λ v, f v - g v) <$> l) = sumR (f <$> l) - sumR (g <$> l).
Proof.
  induction l as [|a l IH]; [simpl; lra|].
  rewrite !fmap_cons, !sumR_cons, IH. lra.
Qed.

(** The square of a sum of [n] terms is at most [n] times the sum of the
    squares. *)
Lemma sum_square_le (l : list R) :
  sumR l * sumR l <= INR (length l) * sumR ((λ v, v * v) <$> l).
Proof.
  induction l as [|a l IH]; [simpl; lra|].
  change (length (a :: l)) with (S (length l)). rewrite S_INR.
  rewrite fmap_cons, !sumR_cons.
  assert (Hn0 : 0 <= INR (length l)) by apply pos_INR.
  assert (Hq0 : 0 <= sumR ((λ v, v * v) <$> l)).
  { apply sumR_nonneg, Forall_fmap, Forall_forall. intros v _. simpl. nra. }
  revert IH Hn0 Hq0.
  generalize (sumR l) (sumR ((λ v, v * v) <$> l)) (INR (length l)).
  intros s q n IH Hn0 Hq0.
  destruct (Req_dec n 0) as [Hn|Hn].
  - assert (s * s <= 0) by nra. assert (s = 0) by nra. nra.
  - assert (0 < n) by lra.
    assert (2 * a * s <= n * (a * a) + q).
    { pose proof (Rle_0_sqr (n * a - s)) as Hsq. unfold Rsqr in Hsq.
      assert (n * (2 * a * s) <= n * (n * (a * a) + q)) by nra.
      apply (Rmult_le_reg_l n); assumption. }
    nra.
Qed.

(** The steps of a trajectory add up to its displacement. *)
Lemma diff_cons (a b : R) (l : list R) :
  np.diff (a :: b :: l) = (b - a) :: np.diff (b :: l).
Proof. reflexivity. Qed.

Lemma sumR_diff (x : list R) : sumR (np.diff x) = displacement x.
Proof.
  unfold displacement.
  destruct x as [|a l]; [simpl; lra|].
  revert a. induction l as [|b l IH]; intros a; [simpl; lra|].
  rewrite diff_cons, sumR_cons, IH. simpl head. simpl default.
  replace (last (a :: b :: l)) with (last (b :: l)) by reflexivity. lra.
Qed.
End real_sums.

Section real_vectors.
Local Open Scope R_scope.
Implicit Types (a D : R * R) (vs : list (R * R)).

Lemma sq_sum_nonneg (u v : R) : 0 <= u * u + v * v.
Proof. nra. Qed.

Lemma norm_nonneg a : 0 <= norm a.
Proof. apply sqrt_pos. Qed.

Lemma norm_sq a : norm a * norm a = a.1 * a.1 + a.2 * a.2.
Proof. apply sqrt_sqrt, sq_sum_nonneg. Qed.

Lemma norm_zero a : norm a = 0 → a.1 = 0 ∧ a.2 = 0.
Proof.
  intros Hn. pose proof (norm_sq a) as Hs. rewrite Hn in Hs.
  split; nra.
Qed.

(** Cauchy-Schwarz in the plane. *)
Lemma dot_le_norm a D : a.1 * D.1 + a.2 * D.2 <= norm a * norm D.
Proof.
  pose proof (norm_nonneg a). pose proof (norm_nonneg D).
  destruct (Rle_lt_dec 0 (a.1 * D.1 + a.2 * D.2)) as [Hpos|Hneg]; [|nra].
  unfold norm. rewrite <- sqrt_mult by apply sq_sum_nonneg.
  rewrite <- (sqrt_square (a.1 * D.1 + a.2 * D.2)) at 1 by assumption.
  apply sqrt_le_1_alt.
  pose proof (Rle_0_sqr (a.1 * D.2 - a.2 * D.1)) as Hc. unfold Rsqr in Hc.
  nra.
Qed.

(** Equality in it: the vectors are parallel, and point the same way. *)
Lemma dot_eq_norm a D :
  0 < D.1 * D.1 + D.2 * D.2 →
  a.1 * D.1 + a.2 * D.2 = norm a * norm D →
  ∃ t, 0 <= t ∧ a.1 = t * D.1 ∧ a.2 = t * D.2.
Proof.
  intros HD Heq.
  pose proof (norm_nonneg a). pose proof (norm_nonneg D).
  assert (Hdot : 0 <= a.1 * D.1 + a.2 * D.2) by (rewrite Heq; nra).
  assert (Hsq : (a.1 * D.1 + a.2 * D.2) * (a.1 * D.1 + a.2 * D.2)
                = (a.1 * a.1 + a.2 * a.2) * (D.1 * D.1 + D.2 * D.2)).
  { rewrite Heq, <- !norm_sq. ring. }
  assert (Hcross : a.1 * D.2 - a.2 * D.1 = 0).
  { assert ((a.1 * D.2 - a.2 * D.1) * (a.1 * D.2 - a.2 * D.1) = 0) by nra.
    nra. }
  exists ((a.1 * D.1 + a.2 * D.2) / (D.1 * D.1 + D.2 * D.2)).
  split; [by apply Rle_mult_inv_pos|].
  split; field_simplify_eq; try lra; nra.
Qed.

Lemma sum_dot vs (dx dy : R) :
  sumR ((λ a, a.1 * dx + a.2 * dy) <$> vs)
  = sumR (fst <$> vs) * dx + sumR (snd <$> vs) * dy.
Proof.
  induction vs as [|a vs IH]; [simpl; lra|].
  rewrite !fmap_cons, !sumR_cons, IH. lra.
Qed.

Lemma norms_nonneg vs : 0 <= sumR (norm <$> vs).
Proof.
  apply sumR_nonneg, Forall_fmap, Forall_forall. intros a _. apply norm_nonneg.
Qed.

(** The triangle inequality: the net displacement is no longer than the
    path. *)
Lemma triangle vs :
  norm (sumR (fst <$> vs), sumR (snd <$> vs)) <= sumR (norm <$> vs).
Proof.
  set (D := (sumR (fst <$> vs), sumR (snd <$> vs))).
  pose proof (norm_nonneg D) as HD. pose proof (norms_nonneg vs) as HS.
  destruct (Req_dec (norm D) 0) as [E|E]; [lra|].
  assert (Hle : norm D * norm D <= sumR (norm <$> vs) * norm D).
  { rewrite norm_sq, <- sumR_scale. unfold D at 1 2 3 4. simpl fst. simpl snd.
    rewrite <- sum_dot.
    apply sumR_le, Forall_forall. intros a _. apply (dot_le_norm a D). }
  apply (Rmult_le_reg_r (norm D)); lra.
Qed.

(** The path is as long as the net displacement only when every step
    points along it. *)
Lemma triangle_equality vs D :
  D.1 = sumR (fst <$> vs) → D.2 = sumR (snd <$> vs) →
  0 < D.1 * D.1 + D.2 * D.2 →
  norm D = sumR (norm <$> vs) →
  Forall (λ a, ∃ t, 0 <= t ∧ a.1 = t * D.1 ∧ a.2 = t * D.2) vs.
Proof.
  intros H1 H2 HD Heq.
  assert (Hzero : sumR ((λ a, norm a * norm D - (a.1 * D.1 + a.2 * D.2)) <$> vs) = 0).
  { rewrite (sumR_minus (λ a, norm a * norm D) (λ a, a.1 * D.1 + a.2 * D.2)).
    rewrite sumR_scale, sum_dot, <- Heq, norm_sq, <- H1, <- H2. lra. }
  apply sumR_zero in Hzero.
  - apply Forall_fmap in Hzero. eapply Forall_impl; [exact Hzero|].
    intros a Ha. unfold compose in Ha. cbv beta in Ha.
    apply (dot_eq_norm a D); [exact HD|lra].
  - apply Forall_fmap, Forall_forall. intros a _. unfold compose. cbv beta.
    pose proof (dot_le_norm a D). lra.
Qed.

(** Steps along the net displacement make the path as long as it. *)
Lemma aligned_length vs D :
  D.1 = sumR (fst <$> vs) → D.2 = sumR (snd <$> vs) →
  0 < D.1 * D.1 + D.2 * D.2 →
  Forall (λ a, ∃ t, 0 <= t ∧ a.1 = t * D.1 ∧ a.2 = t * D.2) vs →
  norm D = sumR (norm <$> vs).
Proof.
  intros H1 H2 HD Hal.
  pose proof (norm_nonneg D) as HnD. pose proof (norms_nonneg vs) as HS.
  assert (HDpos : 0 < norm D).
  { destruct (Req_dec (norm D) 0) as [E|E]; [|lra].
    apply norm_zero in E as [E1 E2]. rewrite E1, E2 in HD. lra. }
  assert (Hdot : sumR ((λ a, a.1 * D.1 + a.2 * D.2) <$> vs)
                 = sumR ((λ a, norm a * norm D) <$> vs)).
  { f_equal. apply Forall_fmap_ext. eapply Forall_impl; [exact Hal|].
    intros a (t & Ht & Ha1 & Ha2). cbv beta.
    assert (Hna : norm a = t * norm D).
    { unfold norm. rewrite Ha1, Ha2.
      transitivity (R_sqrt.sqrt ((t * t) * (D.1 * D.1 + D.2 * D.2)));
        [f_equal; ring|].
      rewrite sqrt_mult by nra. rewrite sqrt_square by assumption.
      reflexivity. }
    rewrite Hna, Ha1, Ha2.
    transitivity (t * (D.1 * D.1 + D.2 * D.2)); [ring|].
    rewrite <- norm_sq. ring. }
  rewrite sum_dot, sumR_scale, <- H1, <- H2, <- norm_sq in Hdot.
  apply (Rmult_eq_reg_r (norm D)); lra.
Qed.
End real_vectors.

Section real_paths.
Local Open Scope R_scope.
Implicit Types (x y : list R).

Lemma zip_with_fmap2 {A B C D E} (f : C → D → E) (g : A → C) (h : B → D)
    (l : list A) (k : list B) :
  zip_with f (g <$> l) (h <$> k) = (λ v, f (g v.1) (h v.2)) <$> zip l k.
Proof.
  revert k. induction l as [|a l IH]; intros [|b k]; try reflexivity.
  simpl. f_equal. apply IH.
Qed.

Lemma steps_of_R x y :
  steps_of x y = (λ v, v.1 * v.1 + v.2 * v.2) <$> stepsR x y.
Proof. exact (zip_with_fmap2 nadd sqr sqr (np.diff x) (np.diff y)). Qed.

Lemma sqrt_steps_of_R x y : nsqrt <$> steps_of x y = norm <$> stepsR x y.
Proof. rewrite steps_of_R, <- list_fmap_compose. reflexivity. Qed.

Lemma stepsR_length x y :
  length x = length y → length (stepsR x y) = (length x - 1)%nat.
Proof.
  intros Hl. unfold stepsR. rewrite length_zip, !diff_length. lia.
Qed.

Lemma stepsR_sums x y :
  length x = length y →
  sumR (fst <$> stepsR x y) = displacement x
  ∧ sumR (snd <$> stepsR x y) = displacement y.
Proof.
  intros Hl. unfold stepsR.
  rewrite fst_zip, snd_zip by (rewrite !diff_length; lia).
  by rewrite !sumR_diff.
Qed.

(** The two functions over the reals, in closed form. *)
Lemma efficiency_R x y :
  length x = length y → x ≠ [] →
  efficiency x y
  = Ok ((displacement x * displacement x + displacement y * displacement y)
        / sumR ((λ v, v.1 * v.1 + v.2 * v.2) <$> stepsR x y)).
Proof.
  intros Hl Hx.
  destruct x as [|x0 x']; [done|]. destruct y as [|y0 y']; [discriminate|].
  destruct (last (x0 :: x')) as [xl|] eqn:Exl; [|by apply last_None in Exl].
  destruct (last (y0 :: y')) as [yl|] eqn:Eyl; [|by apply last_None in Eyl].
  unfold efficiency.
  rewrite (getitem_last _ _ Exl), (getitem_last _ _ Eyl).
  rewrite !(getitem_nat _ 0%nat _ (eq_refl : (_ :: _) !! 0%nat = Some _)).
  rewrite steps2_same by assumption. unfold bind.
  rewrite np_sum_R, steps_of_R. unfold displacement. rewrite Exl, Eyl.
  reflexivity.
Qed.

Lemma straight_R x y :
  length x = length y → x ≠ [] →
  straight x y
  = Ok (norm (displacement x, displacement y) / sumR (norm <$> stepsR x y)).
Proof.
  intros Hl Hx.
  destruct x as [|x0 x']; [done|]. destruct y as [|y0 y']; [discriminate|].
  destruct (last (x0 :: x')) as [xl|] eqn:Exl; [|by apply last_None in Exl].
  destruct (last (y0 :: y')) as [yl|] eqn:Eyl; [|by apply last_None in Eyl].
  unfold straight.
  rewrite (getitem_last _ _ Exl), (getitem_last _ _ Eyl).
  rewrite !(getitem_nat _ 0%nat _ (eq_refl : (_ :: _) !! 0%nat = Some _)).
  rewrite steps2_same by assumption. unfold bind.
  rewrite np_sum_R, sqrt_steps_of_R. unfold displacement. rewrite Exl, Eyl.
  reflexivity.
Qed.

(** The bounds, for a path whose ends differ. *)
Lemma path_bounds x y :
  length x = length y →
  0 < displacement x * displacement x + displacement y * displacement y →
  let D := (displacement x, displacement y) in
  let S := sumR (norm <$> stepsR x y) in
  let Q := sumR ((λ v, v.1 * v.1 + v.2 * v.2) <$> stepsR x y) in
  0 < norm D ∧ norm D <= S ∧ 0 < Q
  ∧ norm D * norm D <= INR (length x - 1) * Q.
Proof.
  intros Hl HD D S Q.
  destruct (stepsR_sums x y Hl) as [H1 H2].
  pose proof (triangle (stepsR x y)) as Htri. rewrite H1, H2 in Htri.
  fold D S in Htri.
  pose proof (norm_nonneg D) as HnD.
  assert (HDpos : 0 < norm D).
  { destruct (Req_dec (norm D) 0) as [E|E]; [|lra].
    apply norm_zero in E as [E1 E2]. simpl in E1, E2.
    rewrite E1, E2 in HD. lra. }
  pose proof (sum_square_le (norm <$> stepsR x y)) as Hsq.
  rewrite length_fmap, stepsR_length in Hsq by assumption.
  rewrite <- list_fmap_compose in Hsq.
  assert (HQ : sumR ((λ v, v * v) ∘ norm <$> stepsR x y) = Q).
  { unfold Q. f_equal. apply list_fmap_ext. intros _ a _. apply norm_sq. }
  rewrite HQ in Hsq. fold S in Hsq.
  pose proof (pos_INR (length x - 1)) as Hn.
  assert (HS2 : norm D * norm D <= S * S) by nra.
  assert (HQpos : 0 < Q).
  { destruct (Rle_lt_dec Q 0) as [HQ0|]; [|assumption].
    exfalso. assert (0 < S * S) by nra. nra. }
  repeat split; try assumption. lra.
Qed.
End real_paths.

(** * The claims *)

(** ** Sliding-window fits *)

Section sliding_claims.
Context {T : Type} `{Num T}.
Variable pow : T → T → T.
Variable curve_fit :
  (T → T → T → T) → list T → list T → T * T → result (T * T).

Local Abbreviation fit := (fit_window pow curve_fit).

(** C2, amended.  For a profile [MSD] of [K] points and a stride
    [skips ≥ 1], if every fit the loop asks for succeeds, [anomModels]
    returns two vectors of length [K]; the entry at index [i] holds the
    fit of the first [i] points for every window length [i] with
    [10 ≤ i < K] on the stride, the entries below 10 are zero, and a
    profile of at most 10 points (so one of 9 points) gives two
    all-zero vectors.  The full length [K] itself is not a window. *)
Theorem anomModels_sliding_windows (MSD : list T) (dt : T) (skips : Z) :
  (0 < skips)%Z →
  (∀ i, i ∈ windows (Z.of_nat (length MSD)) skips → returns (fit MSD dt i)) →
  ∃ Ds alphas,
    anomModels pow curve_fit MSD dt skips = Ok (Ds, alphas)
    ∧ length Ds = length MSD ∧ length alphas = length MSD
    ∧ (∀ i : nat,
         (10 ≤ i < length MSD)%nat → ((Z.of_nat i - 10) mod skips = 0)%Z →
         ∃ D alpha, fit MSD dt (Z.of_nat i) = Ok (D, alpha)
                    ∧ Ds !! i = Some D ∧ alphas !! i = Some alpha)
    ∧ (∀ i : nat,
         (i < 10)%nat → (i < length MSD)%nat →
         Ds !! i = Some (of_Z 0) ∧ alphas !! i = Some (of_Z 0))
    ∧ ((length MSD ≤ 10)%nat →
         Ds = np.zeros (length MSD) ∧ alphas = np.zeros (length MSD)).
Proof.
  intros Hs Hfit.
  destruct (anomModels_returns pow curve_fit MSD dt skips Hs Hfit)
    as ([Ds alphas] & Hrun).
  exists Ds, alphas. split; [assumption|].
  destruct (anomModels_entries pow curve_fit MSD dt skips Ds alphas Hs Hrun)
    as (HlD & Hla & Hent).
  split; [assumption|]. split; [assumption|].
  split; [|split].
  - intros i [Hlo Hhi] Hm. destruct (Hent i Hhi) as [Hin _]. by apply Hin.
  - intros i Hlo Hhi. destruct (Hent i Hhi) as [_ Hout]. apply Hout. lia.
  - intros HK.
    assert (Hz : ∀ i, (i < length MSD)%nat →
              Ds !! i = Some (of_Z 0) ∧ alphas !! i = Some (of_Z 0)).
    { intros i Hi. destruct (Hent i Hi) as [_ Hout]. apply Hout. lia. }
    split; apply list_eq; intros i;
      (destruct (Nat.lt_ge_cases i (length MSD)) as [Hi|Hi];
       [ rewrite zeros_lookup by assumption; by apply Hz
       | rewrite !lookup_ge_None_2; [done|by rewrite zeros_length|lia] ]).
Qed.

(** C10.  With a stride [skips ≥ 1], whenever [anomModels] or
    [anomModelsN] returns, every window length [i ≥ 10] inside the output
    that the stride steps over, [(i - 10) mod skips ≠ 0], has both its
    entries exactly zero, as the entries below 10 have. *)
Theorem stride_skipped_windows_stay_zero (skips : Z) :
  (0 < skips)%Z →
  (∀ (MSD : list T) (dt : T) (Ds alphas : list T),
      anomModels pow curve_fit MSD dt skips = Ok (Ds, alphas) →
      ∀ i : nat,
        (10 ≤ i < length MSD)%nat → ((Z.of_nat i - 10) mod skips ≠ 0)%Z →
        Ds !! i = Some (of_Z 0) ∧ alphas !! i = Some (of_Z 0))
  ∧ (∀ (MSD : array2 T) (dt : T) (Ds alphas : array2 T),
      anomModelsN pow curve_fit MSD dt skips = Ok (Ds, alphas) →
      ∀ i t : nat,
        (10 ≤ i < nrows MSD)%nat → (t < ncols MSD)%nat →
        ((Z.of_nat i - 10) mod skips ≠ 0)%Z →
        at2 (rows Ds) i t = Some (of_Z 0)
        ∧ at2 (rows alphas) i t = Some (of_Z 0)).
Proof.
  intros Hs. split.
  - intros MSD dt Ds alphas Hrun i [Hlo Hhi] Hm.
    destruct (anomModels_entries pow curve_fit MSD dt skips Ds alphas Hs Hrun)
      as (_ & _ & Hent).
    destruct (Hent i Hhi) as [_ Hout]. apply Hout. tauto.
  - intros MSD dt Ds alphas Hrun i t [Hlo Hhi] Ht Hm.
    eapply anomModelsN_unvisited; try eassumption.
    intros Hw. apply windows_spec in Hw; [|assumption]. tauto.
Qed.
End sliding_claims.

(** C2: the claim at a profile of exactly 10 points.  The 10-point window
    is the full profile and its fit would give [D = 10], but the loop is
    [range(10, 10)]: nothing is fitted, and the output has no index 10. *)
Lemma anomModels_full_profile_not_fitted :
  anomModels no_pow counting_fit (flat_profile 10) 1%float 1
  = Ok (np.zeros 10, np.zeros 10)
  ∧ fit_window no_pow counting_fit (flat_profile 10) 1%float 10
    = Ok (10%float, 1%float)
  ∧ np.zeros (T := float) 10 !! 10%nat = None.
Proof. repeat split. Qed.

(** The stride 2 on a profile of 13 points: windows 10 and 12 are fitted. *)
Lemma anomModels_sliding_windows_witness :
  ∃ Ds alphas,
    anomModels no_pow counting_fit (flat_profile 13) 1%float 2 = Ok (Ds, alphas)
    ∧ Ds !! 12%nat = Some 12%float ∧ Ds !! 11%nat = Some 0%float
    ∧ Ds !! 9%nat = Some 0%float.
Proof.
  destruct (anomModels_sliding_windows no_pow counting_fit (flat_profile 13)
              1%float 2) as (Ds & alphas & Hrun & _ & _ & _).
  - lia.
  - intros i _. eexists. reflexivity.
  - exists Ds, alphas. split; [exact Hrun|].
    vm_compute in Hrun. injection Hrun as <- <-. repeat split.
Defined.

(** The stride 2 on a profile of 13 points and on two such profiles:
    window length 11 is stepped over. *)
Lemma stride_skipped_windows_stay_zero_witness :
  (∃ Ds alphas,
     anomModels no_pow counting_fit (flat_profile 13) 1%float 2 = Ok (Ds, alphas)
     ∧ Ds !! 11%nat = Some 0%float ∧ alphas !! 11%nat = Some 0%float)
  ∧ (∃ Ds alphas,
       anomModelsN no_pow counting_fit two_flat_profiles 1%float 2
       = Ok (Ds, alphas)
       ∧ at2 (rows Ds) 11 1 = Some 0%float
       ∧ at2 (rows alphas) 11 1 = Some 0%float).
Proof.
  destruct (stride_skipped_windows_stay_zero no_pow counting_fit 2)
    as [Hone Hall]; [lia|].
  split.
  - destruct (anomModels no_pow counting_fit (flat_profile 13) 1%float 2)
      as [[Ds alphas]|e] eqn:Hrun; [|vm_compute in Hrun; discriminate].
    exists Ds, alphas. split; [reflexivity|].
    apply (Hone (flat_profile 13) 1%float); [exact Hrun|simpl; lia|discriminate].
  - destruct (anomModelsN no_pow counting_fit two_flat_profiles 1%float 2)
      as [[Ds alphas]|e] eqn:Hrun; [|vm_compute in Hrun; discriminate].
    exists Ds, alphas. split; [reflexivity|].
    apply (Hall two_flat_profiles 1%float); [exact Hrun|cbv; lia..|discriminate].
Defined.

(** ** Failures inside a batch *)

Section batch_claims.
Context {T : Type} `{Num T}.
Variable pow : T → T → T.
Variable curve_fit :
  (T → T → T → T) → list T → list T → T * T → result (T * T).
Variable pi : T.
Variable cos : T → T.
Variable arctan2 mod_ : T → T → T.
Variable ConvexHull : list (list T) → result (list Z).

Local Abbreviation fit_at := (anomModel_at pow curve_fit).
Local Abbreviation ratio_at := (aspectRatio_at pi cos arctan2 mod_ ConvexHull).

(** C1, amended.  The batch functions [anomModelN] and [aspectRatios]
    handle no failure of a column: when the computation of column [i] is
    the first to raise, the batch call raises the same exception and
    returns nothing; when the computation of every column returns, the
    batch call returns, with each column's result at the column's index. *)
Theorem batch_failure_propagates :
  (∀ (MSD : array2 T) (dt : T) (frame : Z) (i : nat) (e : exn),
      (i < ncols MSD)%nat →
      (∀ j : nat, (j < i)%nat → returns (fit_at MSD dt frame (Z.of_nat j))) →
      fit_at MSD dt frame (Z.of_nat i) = Raise e →
      anomModelN pow curve_fit MSD dt frame = Raise e)
  ∧ (∀ (MSD : array2 T) (dt : T) (frame : Z),
      (∀ i : nat, (i < ncols MSD)%nat → returns (fit_at MSD dt frame (Z.of_nat i))) →
      ∃ Ds alphas,
        anomModelN pow curve_fit MSD dt frame = Ok (Ds, alphas)
        ∧ length Ds = ncols MSD ∧ length alphas = ncols MSD
        ∧ ∀ i : nat, (i < ncols MSD)%nat →
            ∃ p, fit_at MSD dt frame (Z.of_nat i) = Ok p
                 ∧ Ds !! i = Some p.1 ∧ alphas !! i = Some p.2)
  ∧ (∀ (x y : array2 T) (i : nat) (e : exn),
      (i < ncols x)%nat →
      (∀ j : nat, (j < i)%nat → returns (ratio_at x y (Z.of_nat j))) →
      ratio_at x y (Z.of_nat i) = Raise e →
      aspectRatios pi cos arctan2 mod_ ConvexHull x y = Raise e)
  ∧ (∀ (x y : array2 T),
      (∀ i : nat, (i < ncols x)%nat → returns (ratio_at x y (Z.of_nat i))) →
      ∃ ars elongs,
        aspectRatios pi cos arctan2 mod_ ConvexHull x y = Ok (ars, elongs)
        ∧ length ars = ncols x ∧ length elongs = ncols x
        ∧ ∀ i : nat, (i < ncols x)%nat →
            ∃ p, ratio_at x y (Z.of_nat i) = Ok p
                 ∧ ars !! i = Some p.1 ∧ elongs !! i = Some p.2).
Proof.
  repeat split.
  - intros MSD dt frame i e Hi Hbefore Hfail.
    rewrite anomModelN_loop. by apply collect_raises with (i := i).
  - intros MSD dt frame Hall.
    rewrite anomModelN_loop. by apply collect_returns.
  - intros x y i e Hi Hbefore Hfail.
    rewrite aspectRatios_loop. by apply collect_raises with (i := i).
  - intros x y Hall.
    rewrite aspectRatios_loop. by apply collect_returns.
Qed.
End batch_claims.

(** C1: the claim at two batches of two trajectories.  In the first,
    trajectory 0 moves along a line, the hull routine raises, and
    [aspectRatios] raises with it, although trajectory 1 is a triangle.  In
    the second, the profile of trajectory 1 is missing, its fit raises
    after the fit of trajectory 0 has returned, and [anomModelN] raises:
    the result of trajectory 0 is lost. *)
Lemma batch_fails_as_a_whole :
  aspectRatios 0%float no_fun no_pow no_pow (qhull_checked every_point)
    line_and_triangle_x line_and_triangle_y
  = Raise QhullError
  ∧ anomModel_at no_pow (finite_checked counting_fit)
      one_profile_missing 1%float 100 0
    = Ok (3%float, 1%float)
  ∧ anomModel_at no_pow (finite_checked counting_fit)
      one_profile_missing 1%float 100 1
    = Raise ValueError
  ∧ anomModelN no_pow (finite_checked counting_fit)
      one_profile_missing 1%float 100
    = Raise ValueError.
Proof. repeat split. Qed.

(** Two profiles that are both fitted. *)
Lemma batch_failure_propagates_witness :
  ∃ Ds alphas,
    anomModelN no_pow (finite_checked counting_fit) two_profiles 1%float 100
    = Ok (Ds, alphas)
    ∧ length Ds = 2%nat ∧ length alphas = 2%nat.
Proof.
  destruct (batch_failure_propagates no_pow (finite_checked counting_fit)
              0%float no_fun no_pow no_pow every_point)
    as (_ & Hall & _).
  destruct (Hall two_profiles 1%float 100%Z) as (Ds & alphas & Hrun & H1 & H2 & _).
  - intros i Hi. change (ncols two_profiles) with 2%nat in Hi.
    destruct i as [|[|i]]; [eexists; reflexivity..|lia].
  - exists Ds, alphas. auto.
Defined.

(** ** MSD consistency *)

(** C3.  For every MSD matrix [Ms] (lag by trajectory) whose lag times
    are computed exactly, [msdRatios] returns a lag by lag by trajectory array
    [R] with, for every trajectory [t] and the lags [i = r + 1] and
    [j = c + 1] counted from 1: [R[i,j] = MSD[i]/MSD[j] - i/j] when
    [i ≤ j], and [R[i,j] = 0] when [i > j]. *)
Theorem msdRatios_upper_triangle {T} `{Num T} (Ms : array2 T) :
  rectangular Ms → exact_lags (T := T) (nrows Ms) →
  ∃ R, msdRatios Ms = Ok R
    ∧ ∀ r c t : nat,
        (r < nrows Ms)%nat → (c < nrows Ms)%nat → (t < ncols Ms)%nat →
        ∃ mi mj,
          at2 (rows Ms) r t = Some mi ∧ at2 (rows Ms) c t = Some mj
          ∧ ((r ≤ c)%nat →
               at3 R r c t
               = Some (mi / mj - of_Z (Z.of_nat (S r)) / of_Z (Z.of_nat (S c)))%num)
          ∧ ((c < r)%nat → at3 R r c t = Some (of_Z 0)).
Proof.
  intros Hwf Hlags.
  destruct (msdRatios_at3 Ms Hwf Hlags) as (R & Hrun & Hent).
  exists R. split; [assumption|].
  intros r c t Hr Hc Ht.
  destruct (Hent r c t Hr Hc Ht) as (mi & mj & Hi & Hj & HR).
  exists mi, mj. split; [assumption|]. split; [assumption|].
  split; intros Hrc; rewrite HR.
  - destruct (Nat.ltb_spec c r); [lia|reflexivity].
  - destruct (Nat.ltb_spec c r); [reflexivity|lia].
Qed.

(** C4: [msdRatio] ends in a [NameError] on every input: its last line
    returns [MRatio], and the matrix it has computed is bound to
    [Mratio]. *)
Theorem msdRatio_raises_NameError {T} `{Num T} (M : list T) :
  msdRatio M = Raise NameError.
Proof. reflexivity. Qed.

(** Two profiles of three lags in binary64: lags (1, 3) and (3, 1) of the
    first one. *)
Lemma msdRatios_upper_triangle_witness :
  ∃ R, msdRatios two_profiles = Ok R
    ∧ at3 R 0 2 0 = Some (1 / 4 - 1 / 3)%float
    ∧ at3 R 2 0 0 = Some 0%float.
Proof.
  destruct (msdRatios_upper_triangle two_profiles) as (R & Hrun & Hent).
  - repeat constructor.
  - apply exact_lags_float. cbv. lia.
  - exists R. split; [exact Hrun|].
    destruct (Hent 0 2 0)%nat as (mi & mj & Hmi & Hmj & Hup & _);
      [cbv; lia..|].
    destruct (Hent 2 0 0)%nat as (_ & _ & _ & _ & _ & Hlow);
      [cbv; lia..|].
    injection Hmi as <-. injection Hmj as <-.
    split; [apply Hup; lia|apply Hlow; lia].
Defined.

(** ** Path statistics *)


Section short_columns.
Implicit Types (xs ys : array2 float) (i : nat).

End short_columns.



(** C5: the claim at its own example.  On the straight line from (0,0) to
    (10,0) in 11 frames [straight] returns 1.0, but [efficiency] returns
    10.0, the number of steps: it divides the squared net displacement,
    100, by the sum of the squared steps, 10. *)
Lemma efficiency_of_straight_line_is_10 :
  efficiency straight_line_x straight_line_y = Ok 10%float
  ∧ straight straight_line_x straight_line_y = Ok 1%float.
Proof. split; reflexivity. Qed.

(** C5, amended.  In exact arithmetic, for every path whose two ends
    differ, [straight] returns a value in (0, 1] and [efficiency] a value
    in (0, n], [n] the number of steps: the quotient of the squared net
    displacement by the sum of the squared steps is not divided by the
    number of steps.  In exact arithmetic again, the straightness of any
    path of non-zero length is at most 1, and for a path whose ends differ
    it is 1 exactly when every step is a non-negative multiple of the net
    displacement: a straight line walked without turning back.  In
    binary64 neither the bound nor the case of equality holds to the last
    bit: on the straight line (0,0), (2,3), (4,6), (6,9) [straight]
    returns 1.0000000000000002, and on the straight line (0,0), (1,1),
    (2,2), (3,3) it returns 0.99999999999999978.  On the straight line
    from (0,0) to (10,0) in 11 frames, in binary64, [straight] returns 1.0
    and [efficiency] returns 10.0. *)
Theorem straightness_and_efficiency_bounds :
  (efficiency straight_line_x straight_line_y = Ok 10%float
   ∧ straight straight_line_x straight_line_y = Ok 1%float)
  ∧ (straight [0; 2; 4; 6]%float [0; 3; 6; 9]%float
       = Ok 0x1.0000000000001p+0%float
     ∧ PrimFloat.ltb 1 0x1.0000000000001p+0 = true
     ∧ straight [0; 1; 2; 3]%float [0; 1; 2; 3]%float
       = Ok 0x1.ffffffffffffep-1%float
     ∧ PrimFloat.ltb 0x1.ffffffffffffep-1 1 = true)
  ∧ (∀ x y : list R,
      length x = length y →
      (0 < displacement x * displacement x + displacement y * displacement y)%R →
      ∃ e s, efficiency x y = Ok e ∧ straight x y = Ok s
        ∧ (0 < e <= INR (length x - 1))%R ∧ (0 < s <= 1)%R
        ∧ (s = 1%R ↔ aligned x y))
  ∧ (∀ x y : list R,
      length x = length y → x ≠ [] → sumR (norm <$> stepsR x y) ≠ 0%R →
      ∃ s, straight x y = Ok s ∧ (0 <= s <= 1)%R).
Proof.
  split; [split; reflexivity|]. split; [repeat split; reflexivity|]. split.
  - intros x y Hl HD.
    assert (Hx : x ≠ []).
    { intros ->. destruct y; [|discriminate].
      unfold displacement in HD. simpl in HD. lra. }
    rewrite efficiency_R, straight_R by assumption.
    destruct (path_bounds x y Hl HD) as (HnD & Htri & HQ & Heff).
    destruct (stepsR_sums x y Hl) as [H1 H2].
    set (D := (displacement x, displacement y)) in *.
    set (S := sumR (norm <$> stepsR x y)) in *.
    set (Q := sumR ((λ v, (v.1 * v.1 + v.2 * v.2)%R) <$> stepsR x y)) in *.
    change (displacement x * displacement x + displacement y * displacement y)%R
      with (D.1 * D.1 + D.2 * D.2)%R in *.
    rewrite <- norm_sq in *.
    eexists _, _. split; [reflexivity|]. split; [reflexivity|].
    assert (HS : (0 < S)%R) by lra.
    split; [|split].
    + split; [by apply Rdiv_lt_0_compat|].
      apply (Rmult_le_reg_r Q); [assumption|].
      unfold Rdiv. rewrite Rmult_assoc, Rinv_l by lra. lra.
    + split; [by apply Rdiv_lt_0_compat|].
      apply (Rmult_le_reg_r S); [assumption|].
      unfold Rdiv. rewrite Rmult_assoc, Rinv_l by lra. lra.
    + assert (HDD : (0 < D.1 * D.1 + D.2 * D.2)%R) by (rewrite <- norm_sq; nra).
      split.
      * intros E. apply Rdiv_diag_uniq in E.
        apply (triangle_equality (stepsR x y) D); by rewrite ?H1, ?H2.
      * intros Hal. apply Rdiv_diag_eq; [lra|].
        apply (aligned_length (stepsR x y) D); by rewrite ?H1, ?H2.
  - intros x y Hl Hx HS.
    rewrite straight_R by assumption. eexists. split; [reflexivity|].
    destruct (stepsR_sums x y Hl) as [H1 H2].
    pose proof (triangle (stepsR x y)) as Htri. rewrite H1, H2 in Htri.
    pose proof (norm_nonneg (displacement x, displacement y)) as HnD.
    pose proof (norms_nonneg (stepsR x y)) as HS0.
    assert (HSpos : (0 < sumR (norm <$> stepsR x y))%R) by lra.
    split.
    + apply Rle_mult_inv_pos; assumption.
    + apply (Rmult_le_reg_r (sumR (norm <$> stepsR x y))); [assumption|].
      unfold Rdiv. rewrite Rmult_assoc, Rinv_l by lra. lra.
Qed.

(** One step from (0,0) to (3,4): both values are 1. *)
Lemma straightness_and_efficiency_bounds_witness :
  ∃ e s, efficiency one_step_x one_step_y = Ok e
    ∧ straight one_step_x one_step_y = Ok s
    ∧ (0 < e <= 1)%R ∧ (0 < s <= 1)%R.
Proof.
  destruct straightness_and_efficiency_bounds as (_ & _ & Hreal & _).
  destruct (Hreal one_step_x one_step_y) as (e & s & He & Hs & Hbe & Hbs & _).
  - reflexivity.
  - unfold displacement, one_step_x, one_step_y. simpl. lra.
  - exists e, s. simpl in Hbe. auto.
Defined.

(** C9: the claim at a point repeated over three frames.  Both functions
    return NaN, the quotient 0/0; no exception is raised. *)
Lemma stationary_point_returns_nan :
  efficiency stationary_x stationary_y = Ok nan
  ∧ straight stationary_x stationary_y = Ok nan.
Proof. split; reflexivity. Qed.

(** C9, amended.  For every float64 trajectory of at least two frames
    whose total step displacement is zero, [efficiency] and [straight]
    raise nothing: each returns the quotient of the net displacement by
    zero, a value that is not finite (NaN or an infinity). *)
Theorem zero_total_returns_not_finite (x y s : list float) :
  length x = length y → (2 ≤ length x)%nat → steps2 x y = Ok s →
  (np.sum s = 0%float →
     ∃ v, efficiency x y = Ok v ∧ is_finite v = false)
  ∧ (np.sum (nsqrt <$> s) = 0%float →
     ∃ v, straight x y = Ok v ∧ is_finite v = false).
Proof.
  intros Hl Hx Hs.
  destruct x as [|x0 x']; [simpl in Hx; lia|].
  destruct y as [|y0 y']; [discriminate|].
  destruct (last (x0 :: x')) as [xl|] eqn:Exl; [|by apply last_None in Exl].
  destruct (last (y0 :: y')) as [yl|] eqn:Eyl; [|by apply last_None in Eyl].
  split; intros Htot.
  - unfold efficiency.
    rewrite (getitem_last _ _ Exl), (getitem_last _ _ Eyl).
    rewrite !(getitem_nat _ 0%nat _ (eq_refl : (_ :: _) !! 0%nat = Some _)).
    rewrite Hs. unfold bind. rewrite Htot.
    eexists. split; [reflexivity|]. apply div_by_zero_not_finite.
  - unfold straight.
    rewrite (getitem_last _ _ Exl), (getitem_last _ _ Eyl).
    rewrite !(getitem_nat _ 0%nat _ (eq_refl : (_ :: _) !! 0%nat = Some _)).
    rewrite Hs. unfold bind. rewrite Htot.
    eexists. split; [reflexivity|]. apply div_by_zero_not_finite.
Qed.

(** The point repeated over three frames. *)
Lemma zero_total_returns_not_finite_witness :
  ∃ v, efficiency stationary_x stationary_y = Ok v ∧ is_finite v = false.
Proof.
  destruct (zero_total_returns_not_finite stationary_x stationary_y
              [0; 0]%float) as [He _];
    [reflexivity|simpl; lia|reflexivity|].
  apply He. reflexivity.
Defined.

(** ** Shape statistics *)

Section asym_runs.
Context {T : Type} `{Num T}.
Local Open Scope num_scope.
Variable log : T → T.
Variable eig : list (list T) → result (list T * list (list T)).

(** [asym] returns as soon as the covariance and its decomposition are
    there; no other step can raise. *)
Lemma asym_returns (x y : list T) (c : list (list T)) (e0 e1 : T)
    (vecs : list (list T)) (v0 : list T) :
  cov x y = Ok c → eig c = Ok ([e0; e1], vecs) → col_of vecs 0 = Ok v0 →
  ∃ a1 a2,
    asym log eig x y
    = Ok ([a1; a2;
           - log (of_Z 1 - dec 5 1 * sqr (e0 - e1) / sqr (e0 + e1))],
          [e0; e1], vecs, moment4 (project x y v0) (length x)).
Proof.
  intros Hc He Hv. unfold asym. rewrite Hc. simpl. rewrite He. simpl.
  rewrite Hv. simpl. eexists _, _. reflexivity.
Qed.

(** C8, amended.  Whenever the covariance of a trajectory and its
    decomposition are computed, the kurtosis [K] that [asym] returns is
    the 4th standardized moment of the projection of the points onto
    column 0 of [vecs], the eigenvector of the eigenvalue that the
    decomposition returns first, whichever eigenvalue is larger; it is the
    projection onto the dominant eigenvector when the first eigenvalue is
    not the smaller one. *)
Theorem kurtosis_along_first_eigenvector (x y : list T) (c : list (list T))
    (e0 e1 : T) (vecs : list (list T)) (v0 : list T) :
  cov x y = Ok c → eig c = Ok ([e0; e1], vecs) → col_of vecs 0 = Ok v0 →
  (∃ a, asym log eig x y
        = Ok (a, [e0; e1], vecs, moment4 (project x y v0) (length x)))
  ∧ (nltb e0 e1 = false → dominant [e0; e1] vecs = Ok v0).
Proof.
  intros Hc He Hv. split.
  - destruct (asym_returns x y c e0 e1 vecs v0 Hc He Hv) as (a1 & a2 & ->).
    eexists. reflexivity.
  - intros Hlt. unfold dominant. simpl. by rewrite Hlt.
Qed.
End asym_runs.

(** C7, amended.  [asym] has no guard.  For every float64 trajectory whose
    covariance is computed and whose two eigenvalues are returned equal,
    to [l], it raises nothing and returns its four results; asymmetry-3 is
    [-log(v)] with [v = 1 - 0.5*(l - l)**2/(l + l)**2], which is 1 or NaN:
    it is 1 when [l] is finite and the denominator [(l + l)**2] is
    positive in float64, and it is NaN when the denominator is zero
    ([l] is zero, or so small that the square underflows) or [l] is not
    finite.  The NaN goes through the logarithm into the result. *)
Theorem equal_eigenvalues_are_not_guarded (log : float → float)
    (eig : list (list float) → result (list float * list (list float)))
    (x y : list float) (c : list (list float)) (l : float)
    (vecs : list (list float)) (v0 : list float) :
  cov x y = Ok c → eig c = Ok ([l; l], vecs) → col_of vecs 0 = Ok v0 →
  ∃ a1 a2 a3 K,
    asym log eig x y = Ok ([a1; a2; a3], [l; l], vecs, K)
    ∧ (a3 = PrimFloat.opp (log 1%float) ∨ a3 = PrimFloat.opp (log nan))
    ∧ (is_finite l = true → PrimFloat.ltb 0 (sqr (l + l)%float) = true →
       a3 = PrimFloat.opp (log 1%float))
    ∧ (PrimFloat.eqb (sqr (l + l)%float) 0 = true →
       a3 = PrimFloat.opp (log nan))
    ∧ (is_finite l = false → a3 = PrimFloat.opp (log nan)).
Proof.
  intros Hc He Hv.
  destruct (asym_returns log eig x y c l l vecs v0 Hc He Hv) as (a1 & a2 & ->).
  eexists _, _, _, _. split; [reflexivity|].
  change (dec 5 1) with 0.5%float. change (of_Z 1) with 1%float.
  unfold sqr. simpl.
  destruct (asym3_argument_cases l) as (Hone & Hzero & Hinf).
  split; [destruct (asym3_argument l) as [-> | ->]; auto|].
  split; [intros Hf Hd; by rewrite Hone|].
  split; [intros Hd; by rewrite Hzero|intros Hf; by rewrite Hinf].
Qed.

(** C7: the claim at four points of the unit circle, whose two
    eigenvalues are equal, at a point repeated three times, whose two
    eigenvalues are zero, and at four points of a circle of radius
    [2^-300], whose two eigenvalues are equal and not zero.  In all three
    cases [asym] returns; the first asymmetry-3 is [-0.0], the second and
    the third, with a zero denominator, are NaN. *)
Lemma equal_eigenvalues_raise_nothing :
  asym log_at_one eig_of_diagonal circle_x circle_y
  = Ok ([0; 1; -0]%float, [2 * (1 / 3); 2 * (1 / 3)]%float,
        [[1; 0]; [0; 1]]%float, moment4 (project circle_x circle_y [1; 0]%float) 4)
  ∧ asym log_at_one eig_of_diagonal stationary_x stationary_y
    = Ok ([nan; nan; nan], [0; 0]%float, [[1; 0]; [0; 1]]%float, nan)
  ∧ asym log_at_one eig_of_diagonal small_circle_x small_circle_y
    = Ok ([nan; 1; nan]%float, [0x1p-599 * (1 / 3); 0x1p-599 * (1 / 3)]%float,
          [[1; 0]; [0; 1]]%float,
          moment4 (project small_circle_x small_circle_y [1; 0]%float) 4).
Proof. split; [|split]; reflexivity. Qed.

(** The four points of the unit circle. *)
Lemma equal_eigenvalues_are_not_guarded_witness :
  ∃ a1 a2 a3 K,
    asym log_at_one eig_of_diagonal circle_x circle_y
    = Ok ([a1; a2; a3], [2 * (1 / 3); 2 * (1 / 3)]%float,
          [[1; 0]; [0; 1]]%float, K)
    ∧ a3 = (- log_at_one 1)%float.
Proof.
  destruct (equal_eigenvalues_are_not_guarded log_at_one eig_of_diagonal
              circle_x circle_y
              [[2 * (1 / 3); 0]; [0; 2 * (1 / 3)]]%float (2 * (1 / 3))%float
              [[1; 0]; [0; 1]]%float [1; 0]%float)
    as (a1 & a2 & a3 & K & Hrun & _ & Hone & _); [reflexivity..|].
  exists a1, a2, a3, K. split; [exact Hrun|].
  apply Hone; reflexivity.
Defined.

(** C8: the claim at a trajectory with a diagonal covariance whose second
    eigenvalue is the larger one.  The dominant eigenvector is (0, 1) and
    the moment along it is 1.9216 (written in hexadecimal below), but [asym] projects onto (1, 0), the
    first eigenvector, and returns [K = 1]. *)
Lemma kurtosis_not_along_dominant_eigenvector :
  (∃ a, asym log_at_one eig_of_diagonal tall_x tall_y
        = Ok (a, [4 * (1 / 3); 100 * (1 / 3)]%float,
              [[1; 0]; [0; 1]]%float, 1%float))
  ∧ dominant [4 * (1 / 3); 100 * (1 / 3)]%float [[1; 0]; [0; 1]]%float
    = Ok [0; 1]%float
  ∧ moment4 (project tall_x tall_y [0; 1]%float) 4 = 0x1.ebedfa43fe5c9p+0%float.
Proof. split; [eexists; reflexivity|split; reflexivity]. Qed.

(** The trajectory that spreads along [y]. *)
Lemma kurtosis_along_first_eigenvector_witness :
  ∃ a, asym log_at_one eig_of_diagonal tall_x tall_y
       = Ok (a, [4 * (1 / 3); 100 * (1 / 3)]%float, [[1; 0]; [0; 1]]%float,
             moment4 (project tall_x tall_y [1; 0]%float) 4).
Proof.
  apply (kurtosis_along_first_eigenvector log_at_one eig_of_diagonal
           tall_x tall_y [[4 * (1 / 3); 0]; [0; 100 * (1 / 3)]]%float
           (4 * (1 / 3))%float (100 * (1 / 3))%float
           [[1; 0]; [0; 1]]%float [1; 0]%float);
    reflexivity.
Defined.

(** * Further properties of the code *)

(** ** The fits: windows, strides and failures *)

Section lag_times.
Context {T : Type} `{Num T}.

Lemma linspace_length (a b : T) (n : nat) : length (np.linspace a b n) = n.
Proof.
  unfold np.linspace. cbv zeta.
  assert (Hy : ∀ f : T → T,
            length (f <$> ((λ k, of_Z (Z.of_nat k)) <$> seq 0 n)) = n).
  { intros f. by rewrite !length_fmap, length_seq. }
  destruct (1 <? n)%nat; rewrite ?length_insert, length_fmap;
    destruct (0 <? n - 1)%nat; try destruct (neqb _ _); apply Hy.
Qed.

Lemma lags_length (K : nat) : length (lags (T := T) K) = K.
Proof. apply linspace_length. Qed.

Lemma upto_all {A} (a : list A) (i : Z) :
  (Z.of_nat (length a) ≤ i)%Z → py.upto a i = a.
Proof.
  intros Hi. unfold py.upto.
  destruct (Z.ltb_spec i 0); [lia|]. apply take_ge. lia.
Qed.
End lag_times.

Section fixed_window.
Context {T : Type} `{Num T}.
Variable pow : T → T → T.
Variable curve_fit :
  (T → T → T → T) → list T → list T → T * T → result (T * T).

Local Abbreviation fit := (fit_window pow curve_fit).

Lemma anomModel_fit (MSD : list T) (dt : T) (frame : Z) :
  anomModel pow curve_fit MSD dt frame
  = (ps ← fit MSD dt frame; Ok (ps.1, ps.2)).
Proof.
  unfold anomModel, fit_window, lags. cbv zeta.
  replace (Z.of_nat (length MSD) + 1 - 1)%Z with (Z.of_nat (length MSD)) by lia.
  rewrite Nat2Z.id. reflexivity.
Qed.

(** X1.  A window [frame] at or beyond the length of the profile (the
    default 100 on a shorter profile) makes [anomModel] fit the whole
    profile against all its lag times: the slices [N[:frame]] and
    [MSD[:frame]] are cut at the end of the arrays, no error is raised for
    the missing points, and the result is that of [frame = len(MSD)]. *)
Theorem anomModel_frame_beyond_profile (MSD : list T) (dt : T) (frame : Z) :
  (Z.of_nat (length MSD) ≤ frame)%Z →
  anomModel pow curve_fit MSD dt frame
  = (ps ← curve_fit (λ x D alpha, anomalous pow x D alpha dt)
            (lags (length MSD)) MSD p0;
     Ok (ps.1, ps.2))
  ∧ anomModel pow curve_fit MSD dt frame
    = anomModel pow curve_fit MSD dt (Z.of_nat (length MSD)).
Proof.
  intros Hf.
  assert (Hall : ∀ i, (Z.of_nat (length MSD) ≤ i)%Z →
            anomModel pow curve_fit MSD dt i
            = (ps ← curve_fit (λ x D alpha, anomalous pow x D alpha dt)
                      (lags (length MSD)) MSD p0;
               Ok (ps.1, ps.2))).
  { intros i Hi. rewrite anomModel_fit. unfold fit_window.
    rewrite !upto_all by (rewrite ?lags_length; lia). reflexivity. }
  split; [by apply Hall|].
  rewrite !Hall by lia. reflexivity.
Qed.

(** X2.  The sliding-window function is the fixed-window function run at
    every window length: when [anomModels] returns, its entries at a
    visited window length [i] are what [anomModel(MSD, dt, frame=i)]
    returns. *)
Theorem anomModels_entry_is_anomModel (MSD : list T) (dt : T) (skips : Z)
    (Ds alphas : list T) (i : nat) :
  (0 < skips)%Z →
  anomModels pow curve_fit MSD dt skips = Ok (Ds, alphas) →
  (10 ≤ i < length MSD)%nat → ((Z.of_nat i - 10) mod skips = 0)%Z →
  ∃ D alpha,
    anomModel pow curve_fit MSD dt (Z.of_nat i) = Ok (D, alpha)
    ∧ Ds !! i = Some D ∧ alphas !! i = Some alpha.
Proof.
  intros Hs Hrun [Hlo Hhi] Hm.
  destruct (anomModels_entries pow curve_fit MSD dt skips Ds alphas Hs Hrun)
    as (_ & _ & Hent).
  destruct (Hent i Hhi) as [Hin _].
  destruct Hin as (D & alpha & Hfit & HD & Ha); [by split|].
  exists D, alpha. rewrite anomModel_fit, Hfit. auto.
Qed.

Lemma windows_split (K skips : Z) (k : nat) :
  (0 < skips)%Z → (10 + Z.of_nat k * skips < K)%Z →
  ∃ rest,
    windows K skips
    = ((λ j : nat, 10 + Z.of_nat j * skips)%Z <$> seq 0 k)
      ++ (10 + Z.of_nat k * skips)%Z :: rest.
Proof.
  intros Hs Hk. unfold windows, seqZ.
  set (n := Z.to_nat ((K - 10 + skips - 1) / skips)).
  assert (Hn : (k < n)%nat).
  { assert (Hin : (10 + Z.of_nat k * skips)%Z ∈ windows K skips).
    { apply windows_spec; [assumption|]. split; [nia|].
      replace (10 + Z.of_nat k * skips - 10)%Z with (Z.of_nat k * skips)%Z by lia.
      apply Z_mod_mult. }
    unfold windows in Hin. apply list_elem_of_fmap in Hin as (j & Hj & Hin).
    apply elem_of_seqZ in Hin. assert (j = Z.of_nat k) by nia. subst n. lia. }
  replace n with (k + S (n - S k))%nat by lia.
  rewrite seq_app, !fmap_app. simpl.
  eexists. f_equal.
  - rewrite <- list_fmap_compose. apply list_fmap_ext. intros _ j _. simpl.
    f_equal. lia.
  - f_equal. f_equal. lia.
Qed.

(** X3.  [anomModels] handles no failure of a fit: when the fit of a
    window length raises and the fits of the shorter windows on the
    stride have returned, the call raises the same exception; the
    parameters fitted so far are not returned. *)
Theorem anomModels_first_failure (MSD : list T) (dt : T) (skips : Z)
    (k : nat) (e : exn) :
  (0 < skips)%Z → (10 + Z.of_nat k * skips < Z.of_nat (length MSD))%Z →
  (∀ j : nat, (j < k)%nat → returns (fit MSD dt (10 + Z.of_nat j * skips))) →
  fit MSD dt (10 + Z.of_nat k * skips) = Raise e →
  anomModels pow curve_fit MSD dt skips = Raise e.
Proof.
  intros Hs Hk Hbefore Hfail.
  rewrite anomModels_unfold by assumption.
  destruct (windows_split _ _ k Hs Hk) as (rest & ->).
  apply for_store2_raises; [|assumption].
  apply Forall_fmap, Forall_forall. intros j Hj. apply elem_of_seq in Hj.
  simpl. rewrite zeros_length.
  assert (0 ≤ Z.of_nat j * skips)%Z by (apply Z.mul_nonneg_nonneg; lia).
  assert (Z.of_nat j * skips < Z.of_nat k * skips)%Z by (apply Z.mul_lt_mono_pos_r; lia).
  repeat split; try lia. apply Hbefore. lia.
Qed.

(** X4.  The stride is not checked.  A stride of zero makes [anomModels]
    raise [ValueError] (from [range]) on every profile.  With a negative
    stride a profile of at least 10 points is returned as two all-zero
    vectors without a single fit, and a shorter profile never returns: its
    first turn fits window length 10 and then stores at index 10, which
    the output does not have. *)
Theorem anomModels_stride_not_positive (MSD : list T) (dt : T) (skips : Z) :
  (skips ≤ 0)%Z →
  (skips = 0%Z → anomModels pow curve_fit MSD dt skips = Raise ValueError)
  ∧ ((skips < 0)%Z → (10 ≤ length MSD)%nat →
       anomModels pow curve_fit MSD dt skips
       = Ok (np.zeros (length MSD), np.zeros (length MSD)))
  ∧ ((skips < 0)%Z → (length MSD < 10)%nat →
       (∀ e, fit MSD dt 10 = Raise e →
          anomModels pow curve_fit MSD dt skips = Raise e)
       ∧ (returns (fit MSD dt 10) →
          anomModels pow curve_fit MSD dt skips = Raise IndexError)).
Proof.
  intros _. split; [|split].
  - intros ->. reflexivity.
  - intros Hs HK. unfold anomModels, py.range. cbv zeta.
    destruct (Z.eqb_spec skips 0); [lia|].
    destruct (Z.ltb_spec 0 skips); [lia|].
    replace (Z.of_nat (length MSD) + 1 - 1)%Z with (Z.of_nat (length MSD)) by lia.
    assert (Hn : ((10 - Z.of_nat (length MSD) - skips - 1) / - skips ≤ 0)%Z).
    { assert ((10 - Z.of_nat (length MSD) - skips - 1) / - skips < 1)%Z; [|lia].
      apply Z.div_lt_upper_bound; lia. }
    unfold seqZ. replace (Z.to_nat _) with 0%nat by lia.
    simpl. rewrite Nat2Z.id. reflexivity.
  - intros Hs HK.
    assert (Hrun : anomModels pow curve_fit MSD dt skips
                   = (acc ← store2 (fit MSD dt)
                              (np.zeros (length MSD), np.zeros (length MSD)) 10;
                      py.for_ (tail ((λ k, 10 + k * skips)%Z
                                 <$> seqZ 0 ((10 - Z.of_nat (length MSD) - skips - 1)
                                             / - skips)))
                        (store2 (fit MSD dt)) acc)).
    { unfold anomModels, py.range. cbv zeta.
      destruct (Z.eqb_spec skips 0); [lia|].
      destruct (Z.ltb_spec 0 skips); [lia|].
      replace (Z.of_nat (length MSD) + 1 - 1)%Z with (Z.of_nat (length MSD)) by lia.
      rewrite Nat2Z.id.
      assert (Hn : (1 ≤ (10 - Z.of_nat (length MSD) - skips - 1) / - skips)%Z).
      { apply Z.div_le_lower_bound; lia. }
      unfold seqZ.
      destruct (Z.to_nat ((10 - Z.of_nat (length MSD) - skips - 1) / - skips))
        as [|cnt] eqn:En; [lia|].
      reflexivity. }
    rewrite Hrun. split.
    + intros e He. by rewrite (store2_raise _ _ _ e).
    + intros [p Hp]. unfold store2. rewrite Hp. simpl.
      change 10%Z with (Z.of_nat 10).
      rewrite setitem_out by (rewrite zeros_length; lia). reflexivity.
Qed.
End fixed_window.

(** A profile of three points under the default window of 100 points. *)
Lemma anomModel_frame_beyond_profile_witness :
  anomModel no_pow counting_fit (flat_profile 3) 1%float 100
  = Ok (3%float, 1%float).
Proof.
  destruct (anomModel_frame_beyond_profile no_pow counting_fit
              (flat_profile 3) 1%float 100) as [-> _]; [simpl; lia|].
  reflexivity.
Defined.

(** Window 12 of a profile of 13 points fitted with stride 2. *)
Lemma anomModels_entry_is_anomModel_witness :
  ∃ D alpha,
    anomModel no_pow counting_fit (flat_profile 13) 1%float 12 = Ok (D, alpha)
    ∧ D = 12%float.
Proof.
  destruct (anomModels_entry_is_anomModel no_pow counting_fit (flat_profile 13)
              1%float 2
              (<[12%nat := 12%float]> (<[10%nat := 10%float]> (np.zeros 13)))
              (<[12%nat := 1%float]> (<[10%nat := 1%float]> (np.zeros 13)))
              12)
    as (D & alpha & Hrun & HD & _);
    [lia|reflexivity|simpl; lia|reflexivity|].
  exists D, alpha. split; [exact Hrun|].
  vm_compute in HD. by injection HD.
Defined.

(** Window 10 of the profile with a gap is fitted, window 12 is refused
    by the input check of the solver. *)
Lemma anomModels_first_failure_witness :
  anomModels no_pow (finite_checked counting_fit) profile_with_gap 1%float 2
  = Raise ValueError.
Proof.
  apply (anomModels_first_failure no_pow (finite_checked counting_fit)
           profile_with_gap 1%float 2 1 ValueError).
  - lia.
  - simpl. lia.
  - intros j Hj. assert (j = 0%nat) as -> by lia. eexists. reflexivity.
  - reflexivity.
Defined.

(** A stride of -1 on a profile of 13 points. *)
Lemma anomModels_stride_not_positive_witness :
  anomModels no_pow counting_fit (flat_profile 13) 1%float (-1)
  = Ok (np.zeros 13, np.zeros 13).
Proof.
  destruct (anomModels_stride_not_positive no_pow counting_fit
              (flat_profile 13) 1%float (-1)) as (_ & Hneg & _); [lia|].
  apply Hneg; [lia|simpl; lia].
Defined.

(** ** Loops over the columns of a batch *)

(** A loop over the columns [k, ..., k + m - 1] whose turn [j] either
    raises what the computation [ideal j] raises, or returns while
    [ideal j] returns, keeping an invariant [P]: the loop returns with the
    invariant when every [ideal j] returns, and otherwise raises what the
    first failing one raises. *)
Lemma for_columns {S X} (ideal : nat → result X) (P : nat → S → Prop)
    (body : S → Z → result S) (m k : nat) (acc : S) :
  (∀ j s, (k ≤ j < k + m)%nat → P j s →
     match body s (Z.of_nat j) with
     | Ok s' => P (Datatypes.S j) s' ∧ returns (ideal j)
     | Raise e => ideal j = Raise e
     end) →
  P k acc →
  match py.for_ (Z.of_nat <$> seq k m) body acc with
  | Ok acc' => P (k + m)%nat acc' ∧ ∀ j, (k ≤ j < k + m)%nat → returns (ideal j)
  | Raise e => ∃ i, (k ≤ i < k + m)%nat ∧ ideal i = Raise e
                    ∧ ∀ j, (k ≤ j < i)%nat → returns (ideal j)
  end.
Proof.
  revert k acc. induction m as [|m IH]; intros k acc Hstep Hacc.
  - simpl. rewrite Nat.add_0_r. split; [assumption|]. intros j Hj. lia.
  - change (Z.of_nat <$> seq k (Datatypes.S m))
      with (Z.of_nat k :: (Z.of_nat <$> seq (Datatypes.S k) m)).
    cbn [py.for_].
    specialize (Hstep k acc ltac:(lia) Hacc) as Hk.
    destruct (body acc (Z.of_nat k)) as [s|e]; cbn [bind].
    + destruct Hk as [Hs Hret].
      assert (Hstep' : ∀ j s0, (Datatypes.S k ≤ j < Datatypes.S k + m)%nat → P j s0 →
                match body s0 (Z.of_nat j) with
                | Ok s' => P (Datatypes.S j) s' ∧ returns (ideal j)
                | Raise e => ideal j = Raise e
                end).
      { intros j s0 Hj. apply Hstep. lia. }
      specialize (IH (Datatypes.S k) s Hstep' Hs).
      revert IH.
      destruct (py.for_ (Z.of_nat <$> seq (Datatypes.S k) m) body s) as [acc'|e];
        intros IH.
      * destruct IH as [HP Hall].
        replace (k + Datatypes.S m)%nat with (Datatypes.S k + m)%nat by lia.
        split; [assumption|]. intros j Hj.
        destruct (decide (j = k)) as [->|]; [assumption|]. apply Hall. lia.
      * destruct IH as (i & Hi & Hfail & Hbefore).
        exists i. split; [lia|]. split; [assumption|]. intros j Hj.
        destruct (decide (j = k)) as [->|]; [assumption|]. apply Hbefore. lia.
    + exists k. split; [lia|]. split; [assumption|]. intros j Hj. lia.
Qed.

(** The same, read three ways. *)
Lemma for_columns_cases {S X} (ideal : nat → result X) (P : nat → S → Prop)
    (body : S → Z → result S) (N : nat) (acc : S) :
  (∀ j s, (j < N)%nat → P j s →
     match body s (Z.of_nat j) with
     | Ok s' => P (Datatypes.S j) s' ∧ returns (ideal j)
     | Raise e => ideal j = Raise e
     end) →
  P 0%nat acc →
  (∀ acc', py.for_ (Z.of_nat <$> seq 0 N) body acc = Ok acc' → P N acc')
  ∧ ((∀ j, (j < N)%nat → returns (ideal j)) →
       ∃ acc', py.for_ (Z.of_nat <$> seq 0 N) body acc = Ok acc' ∧ P N acc')
  ∧ (∀ i e, (i < N)%nat → (∀ j, (j < i)%nat → returns (ideal j)) →
       ideal i = Raise e →
       py.for_ (Z.of_nat <$> seq 0 N) body acc = Raise e).
Proof.
  intros Hstep Hacc.
  assert (Hstep' : ∀ j s, (0 ≤ j < 0 + N)%nat → P j s →
            match body s (Z.of_nat j) with
            | Ok s' => P (Datatypes.S j) s' ∧ returns (ideal j)
            | Raise e => ideal j = Raise e
            end).
  { intros j s Hj. apply Hstep. lia. }
  pose proof (for_columns ideal P body N 0 acc Hstep' Hacc) as Hloop.
  revert Hloop.
  destruct (py.for_ (Z.of_nat <$> seq 0 N) body acc) as [acc'|e']; intros Hloop.
  - destruct Hloop as [HP Hall].
    split; [|split].
    + by intros ? [= <-].
    + intros _. by exists acc'.
    + intros i e Hi _ Hfail. destruct (Hall i) as [a Ha]; [lia|]. congruence.
  - destruct Hloop as (i' & Hi' & Hfail' & Hbefore').
    split; [|split].
    + discriminate.
    + intros Hall. destruct (Hall i') as [a Ha]; [lia|]. congruence.
    + intros i e Hi Hbefore Hfail.
      destruct (Nat.lt_trichotomy i i') as [Hlt|[->|Hgt]].
      * destruct (Hbefore' i) as [a Ha]; [lia|]. congruence.
      * congruence.
      * destruct (Hbefore i') as [a Ha]; [lia|]. congruence.
Qed.

(** ** The batch of shape statistics *)

Section asyms_loop.
Context {T : Type} `{Num T}.
Variable log : T → T.
Variable eig : list (list T) → result (list T * list (list T)).

(** [asym] returns three asymmetries. *)
Lemma asym_three (x y : list T) (a eigs : list T) (vecs : list (list T)) (K : T) :
  asym log eig x y = Ok (a, eigs, vecs, K) → ∃ u v w, a = [u; v; w].
Proof.
  intros Hrun. unfold asym in Hrun.
  apply bind_ok in Hrun as (c & _ & Hrun).
  apply bind_ok in Hrun as ([es vs] & _ & Hrun).
  apply bind_ok in Hrun as (e0 & _ & Hrun).
  apply bind_ok in Hrun as (e1 & _ & Hrun).
  apply bind_ok in Hrun as (lo & _ & Hrun).
  apply bind_ok in Hrun as (hi & _ & Hrun).
  apply bind_ok in Hrun as (v0 & _ & Hrun).
  injection Hrun as <- _ _ _. eexists _, _, _. reflexivity.
Qed.

(** The state of the four output vectors after the first [k] columns. *)
Local Abbreviation collected := (λ (x y : array2 T) (k : nat)
    (s : list T * list T * list T * list T),
  length s.1.1.1 = ncols x ∧ length s.1.1.2 = ncols x
  ∧ length s.1.2 = ncols x ∧ length s.2 = ncols x
  ∧ ∀ i : nat, (i < k)%nat →
      ∃ u v w eigs vecs K,
        asym_at log eig x y (Z.of_nat i) = Ok ([u; v; w], eigs, vecs, K)
        ∧ s.1.1.1 !! i = Some u ∧ s.1.1.2 !! i = Some v
        ∧ s.1.2 !! i = Some w ∧ s.2 !! i = Some K).

Lemma asyms_body_step (x y : array2 T) (j : nat)
    (s : list T * list T * list T * list T) :
  (j < ncols x)%nat → collected x y j s →
  match asyms_body log eig x y s (Z.of_nat j) with
  | Ok s' => collected x y (S j) s' ∧ returns (asym_at log eig x y (Z.of_nat j))
  | Raise e => asym_at log eig x y (Z.of_nat j) = Raise e
  end.
Proof.
  intros Hj (H1 & H2 & H3 & H4 & Hent).
  destruct s as [[[a1 a2] a3] Ks]. simpl in H1, H2, H3, H4, Hent.
  assert (Hbody : asyms_body log eig x y (a1, a2, a3, Ks) (Z.of_nat j)
                  = ('(a123, eigs, vecs, K) ← asym_at log eig x y (Z.of_nat j);
                     Ks ← np.setitem Ks (Z.of_nat j) K;
                     v1 ← np.getitem a123 0;
                     v2 ← np.getitem a123 1;
                     v3 ← np.getitem a123 2;
                     a1 ← np.setitem a1 (Z.of_nat j) v1;
                     a2 ← np.setitem a2 (Z.of_nat j) v2;
                     a3 ← np.setitem a3 (Z.of_nat j) v3;
                     Ok (a1, a2, a3, Ks))).
  { unfold asyms_body, asym_at.
    destruct (np.column x (Z.to_nat (Z.of_nat j))) as [xi|e]; [|reflexivity].
    destruct (np.column y (Z.to_nat (Z.of_nat j))) as [yi|e]; reflexivity. }
  rewrite Hbody. clear Hbody.
  destruct (asym_at log eig x y (Z.of_nat j)) as [[[[a eigs] vecs] K]|e] eqn:Hat;
    [|reflexivity].
  assert (Hthree : ∃ u v w, a = [u; v; w]).
  { unfold asym_at in Hat.
    apply bind_ok in Hat as (xi & _ & Hat).
    apply bind_ok in Hat as (yi & _ & Hat).
    by apply asym_three in Hat. }
  destruct Hthree as (u & v & w & ->).
  cbn [bind]. rewrite setitem_nat by lia. cbn [bind].
  change (np.getitem [u; v; w] 0) with (Ok (A := T) u).
  change (np.getitem [u; v; w] 1) with (Ok (A := T) v).
  change (np.getitem [u; v; w] 2) with (Ok (A := T) w).
  cbn [bind]. rewrite !setitem_nat by lia. cbn [bind].
  split; [|by eexists].
  simpl. rewrite !length_insert. repeat split; try assumption.
  intros i Hi. destruct (decide (i = j)) as [->|Hne].
  - exists u, v, w, eigs, vecs, K.
    rewrite !list_lookup_insert_eq by lia. rewrite Hat. auto.
  - destruct (Hent i) as (u' & v' & w' & eigs' & vecs' & K' & Hrun & Hl); [lia|].
    exists u', v', w', eigs', vecs', K'.
    rewrite !list_lookup_insert_ne by lia. auto.
Qed.
End asyms_loop.

Section asyms_batch.
Context {T : Type} `{Num T}.
Variable log : T → T.
Variable eig : list (list T) → result (list T * list (list T)).

(** X5.  [asyms] is [asym] run on every column: when it returns, the
    four output vectors have one entry per column and hold at index [i]
    the three asymmetries and the kurtosis that [asym] returns on column
    [i]; it returns whenever [asym] returns on every column, and
    otherwise raises what the first failing column raises. *)
Theorem asyms_is_asym_per_column (x y : array2 T) :
  (∀ a1 a2 a3 Ks : list T,
      asyms log eig x y = Ok (a1, a2, a3, Ks) →
      length a1 = ncols x ∧ length a2 = ncols x
      ∧ length a3 = ncols x ∧ length Ks = ncols x
      ∧ ∀ i : nat, (i < ncols x)%nat →
          ∃ u v w eigs vecs K,
            asym_at log eig x y (Z.of_nat i) = Ok ([u; v; w], eigs, vecs, K)
            ∧ a1 !! i = Some u ∧ a2 !! i = Some v
            ∧ a3 !! i = Some w ∧ Ks !! i = Some K)
  ∧ ((∀ i : nat, (i < ncols x)%nat →
        returns (asym_at log eig x y (Z.of_nat i))) →
     returns (asyms log eig x y))
  ∧ (∀ (i : nat) (e : exn),
       (i < ncols x)%nat →
       (∀ j : nat, (j < i)%nat → returns (asym_at log eig x y (Z.of_nat j))) →
       asym_at log eig x y (Z.of_nat i) = Raise e →
       asyms log eig x y = Raise e).
Proof.
  unfold asyms. cbv zeta. rewrite range_count. cbn [bind].
  set (z := np.zeros (T := T) (ncols x)).
  destruct (for_columns_cases
              (λ j, asym_at log eig x y (Z.of_nat j))
              (λ (k : nat) (s : list T * list T * list T * list T),
                 length s.1.1.1 = ncols x ∧ length s.1.1.2 = ncols x
                 ∧ length s.1.2 = ncols x ∧ length s.2 = ncols x
                 ∧ ∀ i : nat, (i < k)%nat →
                     ∃ u v w eigs vecs K,
                       asym_at log eig x y (Z.of_nat i)
                       = Ok ([u; v; w], eigs, vecs, K)
                       ∧ s.1.1.1 !! i = Some u ∧ s.1.1.2 !! i = Some v
                       ∧ s.1.2 !! i = Some w ∧ s.2 !! i = Some K)
              (asyms_body log eig x y) (ncols x) (z, z, z, z))
    as (Hret & Htot & Hraise).
  - intros j s Hj Hs. by apply asyms_body_step.
  - simpl. unfold z. rewrite zeros_length. repeat split. intros i Hi. lia.
  - split; [|split].
    + intros a1 a2 a3 Ks Hrun. exact (Hret _ Hrun).
    + intros Hall. destruct (Htot Hall) as (acc & Hrun & _). by exists acc.
    + exact Hraise.
Qed.
End asyms_batch.

(** ** The sliding-window fits of a batch *)

Section sliding_columns.
Context {T : Type} `{Num T}.
Variable pow : T → T → T.
Variable curve_fit :
  (T → T → T → T) → list T → list T → T * T → result (T * T).

Local Abbreviation fit := (fit_window pow curve_fit).

Lemma coll_length (D : list (list T)) (t : nat) : length (coll D t) = length D.
Proof. apply length_fmap. Qed.

(** [A[frame, t] = v] is [a[frame] = v] on column [t], and touches no
    other column. *)
Lemma setitem2_column (D : list (list T)) (N t : nat) (f : Z) (v : T) :
  rows_of N D → (t < N)%nat → (0 ≤ f)%Z →
  match setitem2 D f (Z.of_nat t) v with
  | Ok D' => np.setitem (coll D t) f v = Ok (coll D' t)
             ∧ length D' = length D ∧ rows_of N D'
             ∧ ∀ t' : nat, t' ≠ t → coll D' t' = coll D t'
  | Raise e => np.setitem (coll D t) f v = Raise e
  end.
Proof.
  intros HD Ht Hf. unfold setitem2. rewrite getitem_at by assumption.
  destruct (D !! Z.to_nat f) as [r|] eqn:Hr.
  - pose proof (lookup_lt_Some _ _ _ Hr) as Hlt.
    assert (Hlen : length r = N).
    { unfold rows_of in HD. rewrite Forall_lookup in HD. by apply (HD _ _ Hr). }
    cbn [bind]. rewrite setitem_nat by lia. cbn [bind].
    rewrite setitem_run by assumption.
    split; [|split; [|split]].
    + rewrite setitem_run by (rewrite ?coll_length; assumption).
      f_equal. unfold coll. rewrite list_fmap_insert.
      rewrite list_lookup_insert_eq by lia. reflexivity.
    + by rewrite length_insert.
    + apply Forall_insert; [assumption|]. by rewrite length_insert.
    + intros t' Hne. unfold coll. rewrite list_fmap_insert.
      rewrite list_lookup_insert_ne by lia.
      apply list_insert_id. rewrite list_lookup_fmap, Hr. reflexivity.
  - cbn [bind]. apply lookup_ge_None in Hr.
    rewrite <- (Z2Nat.id f Hf) at 1.
    apply setitem_out. by rewrite coll_length.
Qed.

Lemma anomModelsN_body_fit (MSD : array2 T) (dt : T) (t : nat) (f : Z)
    (acc : list (list T) * list (list T)) :
  (t < ncols MSD)%nat →
  anomModelsN_body pow curve_fit MSD (lags (nrows MSD)) dt (Z.of_nat t) acc f
  = (ps ← fit (colv MSD t) dt f;
     Ds ← setitem2 acc.1 f (Z.of_nat t) ps.1;
     alphas ← setitem2 acc.2 f (Z.of_nat t) ps.2;
     Ok (Ds, alphas)).
Proof.
  intros Ht. unfold anomModelsN_body. rewrite Nat2Z.id, column_ok by assumption.
  cbn [bind]. unfold fit_window. rewrite colv_length. reflexivity.
Qed.

(** The loop over the window lengths for column [t] does on column [t]
    of the two matrices what the loop of [anomModels] does on its two
    vectors. *)
Lemma anomModelsN_column_loop (MSD : array2 T) (dt : T) (t : nat)
    (frames : list Z) (D A : list (list T)) :
  (t < ncols MSD)%nat → Forall (λ f, 0 ≤ f)%Z frames →
  rows_of (ncols MSD) D → rows_of (ncols MSD) A →
  match py.for_ frames
          (anomModelsN_body pow curve_fit MSD (lags (nrows MSD)) dt (Z.of_nat t))
          (D, A) with
  | Ok s =>
      py.for_ frames (store2 (fit (colv MSD t) dt)) (coll D t, coll A t)
      = Ok (coll s.1 t, coll s.2 t)
      ∧ length s.1 = length D ∧ length s.2 = length A
      ∧ rows_of (ncols MSD) s.1 ∧ rows_of (ncols MSD) s.2
      ∧ ∀ t' : nat, t' ≠ t → coll s.1 t' = coll D t' ∧ coll s.2 t' = coll A t'
  | Raise e =>
      py.for_ frames (store2 (fit (colv MSD t) dt)) (coll D t, coll A t)
      = Raise e
  end.
Proof.
  intros Ht Hfr. revert D A.
  induction Hfr as [|f frames Hf Hfr IH]; intros D A HD HA.
  - simpl. repeat split; assumption.
  - cbn [py.for_]. rewrite anomModelsN_body_fit by assumption.
    assert (Hstore : ∀ a b : list T,
              store2 (fit (colv MSD t) dt) (a, b) f
              = (ps ← fit (colv MSD t) dt f;
                 a' ← np.setitem a f ps.1;
                 b' ← np.setitem b f ps.2;
                 Ok (a', b'))) by reflexivity.
    rewrite !Hstore. clear Hstore. cbn [fst snd].
    destruct (fit (colv MSD t) dt f) as [ps|e]; [|reflexivity].
    cbn [bind].
    pose proof (setitem2_column D (ncols MSD) t f ps.1 HD Ht Hf) as HsD.
    destruct (setitem2 D f (Z.of_nat t) ps.1) as [D'|e]; cbn [bind];
      [|by rewrite HsD].
    destruct HsD as (-> & HlD & HD' & HoD). cbn [bind].
    pose proof (setitem2_column A (ncols MSD) t f ps.2 HA Ht Hf) as HsA.
    destruct (setitem2 A f (Z.of_nat t) ps.2) as [A'|e]; cbn [bind];
      [|by rewrite HsA].
    destruct HsA as (-> & HlA & HA' & HoA). cbn [bind].
    specialize (IH D' A' HD' HA').
    destruct (py.for_ frames _ (D', A')) as [s|e]; [|exact IH].
    destruct IH as (Hrun & Hl1 & Hl2 & Hr1 & Hr2 & Hother).
    split; [exact Hrun|]. split; [congruence|]. split; [congruence|].
    split; [assumption|]. split; [assumption|].
    intros t' Hne. destruct (Hother t' Hne) as [-> ->].
    by rewrite HoD, HoA.
Qed.

Lemma coll_zero_rows (K N t : nat) :
  (t < N)%nat → coll (replicate K (np.zeros (T := T) N)) t = np.zeros K.
Proof.
  intros Ht. unfold coll. rewrite fmap_replicate, zeros_lookup by assumption.
  reflexivity.
Qed.

(** The state of the two matrices after the first [k] columns. *)
Local Abbreviation fitted := (λ (MSD : array2 T) (dt : T) (skips : Z) (k : nat)
    (s : list (list T) * list (list T)),
  length s.1 = nrows MSD ∧ length s.2 = nrows MSD
  ∧ rows_of (ncols MSD) s.1 ∧ rows_of (ncols MSD) s.2
  ∧ (∀ t : nat, (t < k)%nat →
       anomModels pow curve_fit (colv MSD t) dt skips
       = Ok (coll s.1 t, coll s.2 t))
  ∧ (∀ t : nat, (k ≤ t < ncols MSD)%nat →
       coll s.1 t = np.zeros (nrows MSD) ∧ coll s.2 t = np.zeros (nrows MSD))).

Lemma anomModelsN_step (MSD : array2 T) (dt : T) (skips : Z) (k : nat)
    (s : list (list T) * list (list T)) :
  (0 < skips)%Z → (k < ncols MSD)%nat → fitted MSD dt skips k s →
  match (frames ← py.range 10 (Z.of_nat (nrows MSD)) skips;
         py.for_ frames
           (anomModelsN_body pow curve_fit MSD (lags (nrows MSD)) dt (Z.of_nat k))
           s) with
  | Ok s' => fitted MSD dt skips (S k) s'
             ∧ returns (anomModels pow curve_fit (colv MSD k) dt skips)
  | Raise e => anomModels pow curve_fit (colv MSD k) dt skips = Raise e
  end.
Proof.
  intros Hs Hk (Hl1 & Hl2 & Hr1 & Hr2 & Hdone & Hrest).
  destruct s as [D A]. cbn [fst snd] in *.
  rewrite range_windows by assumption. cbn [bind].
  rewrite anomModels_unfold by assumption. rewrite colv_length.
  destruct (Hrest k) as [HzD HzA]; [lia|].
  assert (Hstart : (np.zeros (T := T) (nrows MSD), np.zeros (T := T) (nrows MSD))
                   = (coll D k, coll A k)) by (by rewrite HzD, HzA).
  rewrite Hstart.
  pose proof (anomModelsN_column_loop MSD dt k
                (windows (Z.of_nat (nrows MSD)) skips) D A Hk
                (windows_nonneg _ _ Hs) Hr1 Hr2) as Hloop.
  destruct (py.for_ (windows (Z.of_nat (nrows MSD)) skips) _ (D, A)) as [s'|e];
    [|exact Hloop].
  destruct Hloop as (Hrun & Hl1' & Hl2' & Hr1' & Hr2' & Hother).
  split; [|by eexists].
  split; [congruence|]. split; [congruence|].
  split; [assumption|]. split; [assumption|]. split.
  - intros t Ht. destruct (decide (t = k)) as [->|Hne].
    + rewrite anomModels_unfold by assumption. rewrite colv_length.
      by rewrite Hstart.
    + destruct (Hother t Hne) as [-> ->]. apply Hdone. lia.
  - intros t Ht. destruct (Hother t) as [-> ->]; [lia|]. apply Hrest. lia.
Qed.

(** X6.  [anomModelsN] is [anomModels] run on every column: with a
    stride [skips ≥ 1], when it returns, the two matrices have the shape
    of the input and their column [t] is the pair of vectors that
    [anomModels] returns on column [t] of the input; it returns whenever
    [anomModels] returns on every column, and otherwise raises what the
    first failing column raises. *)
Theorem anomModelsN_is_anomModels_per_column (MSD : array2 T) (dt : T)
    (skips : Z) :
  (0 < skips)%Z →
  (∀ Ds alphas : array2 T,
      anomModelsN pow curve_fit MSD dt skips = Ok (Ds, alphas) →
      same_shape Ds MSD ∧ same_shape alphas MSD
      ∧ rectangular Ds ∧ rectangular alphas
      ∧ ∀ t : nat, (t < ncols MSD)%nat →
          anomModels pow curve_fit (colv MSD t) dt skips
          = Ok (colv Ds t, colv alphas t))
  ∧ ((∀ t : nat, (t < ncols MSD)%nat →
        returns (anomModels pow curve_fit (colv MSD t) dt skips)) →
     returns (anomModelsN pow curve_fit MSD dt skips))
  ∧ (∀ (t : nat) (e : exn),
       (t < ncols MSD)%nat →
       (∀ j : nat, (j < t)%nat →
          returns (anomModels pow curve_fit (colv MSD j) dt skips)) →
       anomModels pow curve_fit (colv MSD t) dt skips = Raise e →
       anomModelsN pow curve_fit MSD dt skips = Raise e).
Proof.
  intros Hs. unfold anomModelsN. cbv zeta. rewrite range_count. cbn [bind].
  set (z := replicate (nrows MSD) (np.zeros (T := T) (ncols MSD))).
  destruct (for_columns_cases
              (λ t, anomModels pow curve_fit (colv MSD t) dt skips)
              (λ (k : nat) (s : list (list T) * list (list T)),
                 length s.1 = nrows MSD ∧ length s.2 = nrows MSD
                 ∧ rows_of (ncols MSD) s.1 ∧ rows_of (ncols MSD) s.2
                 ∧ (∀ t : nat, (t < k)%nat →
                      anomModels pow curve_fit (colv MSD t) dt skips
                      = Ok (coll s.1 t, coll s.2 t))
                 ∧ (∀ t : nat, (k ≤ t < ncols MSD)%nat →
                      coll s.1 t = np.zeros (nrows MSD)
                      ∧ coll s.2 t = np.zeros (nrows MSD)))
              (λ acc i,
                 frames ← py.range 10 (Z.of_nat (nrows MSD)) skips;
                 py.for_ frames
                   (anomModelsN_body pow curve_fit MSD
                      (np.linspace (of_Z 1) (of_Z (Z.of_nat (nrows MSD))) (nrows MSD))
                      dt i) acc)
              (ncols MSD) (z, z))
    as (Hret & Htot & Hraise).
  - intros j s Hj Hfit. by apply anomModelsN_step.
  - cbn [fst snd]. unfold z. rewrite length_replicate.
    assert (Hz : rows_of (ncols MSD)
                   (replicate (nrows MSD) (np.zeros (T := T) (ncols MSD)))).
    { apply Forall_replicate, zeros_length. }
    split; [reflexivity|]. split; [reflexivity|].
    split; [exact Hz|]. split; [exact Hz|]. split.
    + intros t Ht. lia.
    + intros t Ht. split; apply coll_zero_rows; lia.
  - split; [|split].
    + intros Ds alphas Hrun.
      apply bind_ok in Hrun as ([D A] & Hloop & Hrun).
      injection Hrun as <- <-.
      destruct (Hret _ Hloop) as (Hl1 & Hl2 & Hr1 & Hr2 & Hdone & _).
      cbn [fst snd] in *.
      repeat split; assumption.
    + intros Hall. destruct (Htot Hall) as (acc & -> & _). by eexists.
    + intros t e Ht Hbefore Hfail. by rewrite (Hraise t e Ht Hbefore Hfail).
Qed.
End sliding_columns.

(** Two profiles of thirteen points, stride 2: window 12 of column 1. *)
Lemma anomModelsN_is_anomModels_per_column_witness :
  ∃ Ds alphas,
    anomModelsN no_pow counting_fit two_flat_profiles 1%float 2 = Ok (Ds, alphas)
    ∧ anomModels no_pow counting_fit (colv two_flat_profiles 1) 1%float 2
      = Ok (colv Ds 1, colv alphas 1).
Proof.
  destruct (anomModelsN_is_anomModels_per_column no_pow counting_fit
              two_flat_profiles 1%float 2) as (Hret & _ & _); [lia|].
  destruct (anomModelsN no_pow counting_fit two_flat_profiles 1%float 2)
    as [[Ds alphas]|e] eqn:Hrun; [|vm_compute in Hrun; discriminate].
  exists Ds, alphas. split; [reflexivity|].
  destruct (Hret Ds alphas eq_refl) as (_ & _ & _ & _ & Hcol).
  apply Hcol. cbv. lia.
Defined.

(** ** Path statistics on short and on unequal trajectories *)

Section short_paths.
Context {T : Type} `{Num T}.
Local Open Scope num_scope.
Variable exp : T → T.
Variable log : T → T.

(** Broadcasting against an array of one entry never fails. *)
Lemma map2_one_r (f : T → T → T) (a : list T) (v : T) :
  np.map2 f a [v] = Ok ((λ u, f u v) <$> a).
Proof. destruct a as [|u [|u' a]]; reflexivity. Qed.

Lemma map2_one_l (f : T → T → T) (u : T) (b : list T) :
  np.map2 f [u] b = Ok (f u <$> b).
Proof. destruct b as [|v [|v' b]]; reflexivity. Qed.

(** Two arrays of different lengths, none of one entry, do not
    broadcast. *)
Lemma map2_mismatch (f : T → T → T) (a b : list T) :
  length a ≠ length b → length a ≠ 1%nat → length b ≠ 1%nat →
  np.map2 f a b = Raise ValueError.
Proof.
  intros Hab Ha Hb. unfold np.map2.
  destruct (Nat.eqb_spec (length a) (length b)); [done|].
  destruct a as [|u [|u' a]], b as [|v [|v' b]]; simpl in *; done.
Qed.

Lemma steps2_mismatch (x y : list T) :
  x ≠ [] → y ≠ [] → length x ≠ length y →
  length x ≠ 2%nat → length y ≠ 2%nat →
  steps2 x y = Raise ValueError.
Proof.
  intros Hx Hy Hxy Hx2 Hy2. unfold steps2.
  destruct x as [|x0 x]; [done|]. destruct y as [|y0 y]; [done|].
  apply map2_mismatch; rewrite !length_fmap, !diff_length; simpl in *; lia.
Qed.

Lemma ends_of (x : list T) :
  x ≠ [] → ∃ x0 xl, np.getitem x 0 = Ok x0 ∧ np.getitem x (-1) = Ok xl.
Proof.
  intros Hx. destruct x as [|x0 x']; [done|].
  destruct (last (x0 :: x')) as [xl|] eqn:Exl; [|by apply last_None in Exl].
  exists x0, xl. split; [reflexivity|]. by apply getitem_last.
Qed.

(** X7.  Coordinate vectors of different lengths are not checked by the
    path statistics themselves.  NumPy rejects them with [ValueError] when
    it adds the squared steps, in [efficiency], [straight] and [fractDim],
    unless one of the two trajectories has exactly two frames: then its
    single squared step is added to every squared step of the other
    trajectory, and a value is returned for the mismatched input. *)
Theorem unequal_lengths_are_rejected_or_broadcast (x y : list T) :
  x ≠ [] → y ≠ [] → length x ≠ length y →
  (length x ≠ 2%nat → length y ≠ 2%nat →
     efficiency x y = Raise ValueError
     ∧ straight x y = Raise ValueError
     ∧ fractDim log x y = Raise ValueError)
  ∧ (∀ y0 y1 : T, y = [y0; y1] →
       steps2 x y = Ok ((λ u, u + sqr (y1 - y0)) <$> (sqr <$> np.diff x))
       ∧ returns (efficiency x y) ∧ returns (straight x y))
  ∧ (∀ x0 x1 : T, x = [x0; x1] →
       steps2 x y = Ok ((λ v, sqr (x1 - x0) + v) <$> (sqr <$> np.diff y))
       ∧ returns (efficiency x y) ∧ returns (straight x y)).
Proof.
  intros Hx Hy Hxy.
  destruct (ends_of x Hx) as (x0 & xl & Hx0 & Hxl).
  destruct (ends_of y Hy) as (y0 & yl & Hy0 & Hyl).
  assert (Hret : ∀ s, steps2 x y = Ok s →
            returns (efficiency x y) ∧ returns (straight x y)).
  { intros s Hs. unfold efficiency, straight.
    rewrite Hx0, Hxl, Hy0, Hyl, Hs. cbn [bind]. split; by eexists. }
  split; [|split].
  - intros Hx2 Hy2.
    pose proof (steps2_mismatch x y Hx Hy Hxy Hx2 Hy2) as Hs.
    unfold efficiency, straight, fractDim.
    rewrite Hx0, Hxl, Hy0, Hyl, Hs. cbn [bind]. auto.
  - intros u0 u1 ->.
    assert (Hs : steps2 x [u0; u1]
                 = Ok ((λ u, u + sqr (u1 - u0)) <$> (sqr <$> np.diff x))).
    { unfold steps2. apply map2_one_r. }
    split; [exact Hs|]. exact (Hret _ Hs).
  - intros u0 u1 ->.
    assert (Hs : steps2 [u0; u1] y
                 = Ok ((λ v, sqr (u1 - u0) + v) <$> (sqr <$> np.diff y))).
    { unfold steps2. apply map2_one_l. }
    split; [exact Hs|]. exact (Hret _ Hs).
Qed.

(** X8.  [bound] and [fractDim] need two frames, [bound] also two lags:
    [bound] raises [IndexError] on an MSD profile of fewer than two
    points, whatever the trajectory; on a trajectory of fewer than two
    frames there is no step, the maximum of the empty array of squared
    steps is a [ValueError], and both functions raise it. *)
Theorem bound_and_fractDim_need_two_frames (x y M : list T) :
  ((length M < 2)%nat → bound exp x y M = Raise IndexError)
  ∧ (length x = length y → (length x ≤ 1)%nat →
       ((2 ≤ length M)%nat → bound exp x y M = Raise ValueError)
       ∧ fractDim log x y = Raise ValueError).
Proof.
  split.
  - intros HM. unfold bound. change 1%Z with (Z.of_nat 1).
    rewrite getitem_out by lia. reflexivity.
  - intros Hl Hx.
    assert (Hs : steps2 x y = Ok []).
    { rewrite steps2_same by assumption. unfold steps_of.
      destruct x as [|x0 [|x1 x]]; [reflexivity|reflexivity|simpl in Hx; lia]. }
    split.
    + intros HM. unfold bound.
      destruct M as [|m0 [|m1 M]]; [simpl in HM; lia..|].
      rewrite !getitem_at by lia.
      change ((m0 :: m1 :: M) !! Z.to_nat 1) with (Some m1).
      change ((m0 :: m1 :: M) !! Z.to_nat 0) with (Some m0).
      cbn [bind]. rewrite Hs. reflexivity.
    + unfold fractDim. rewrite Hs. reflexivity.
Qed.
End short_paths.

(** Four frames of [x] against three of [y]. *)
Lemma unequal_lengths_are_rejected_or_broadcast_witness :
  efficiency [0; 1; 2; 3]%float [0; 5; 1]%float = Raise ValueError
  ∧ returns (efficiency [0; 1; 2; 3]%float [0; 5]%float).
Proof.
  split.
  - destruct (unequal_lengths_are_rejected_or_broadcast no_fun
                [0; 1; 2; 3]%float [0; 5; 1]%float) as (Hrej & _);
      [done|done|simpl; lia|].
    destruct Hrej as (He & _); [simpl; lia..|]. exact He.
  - destruct (unequal_lengths_are_rejected_or_broadcast no_fun
                [0; 1; 2; 3]%float [0; 5]%float) as (_ & Hbc & _);
      [done|done|simpl; lia|].
    destruct (Hbc 0%float 5%float eq_refl) as (_ & He & _). exact He.
Defined.

(** X9.  [efficiency] and [straight] on fewer than two frames, in
    float64: an empty trajectory is an [IndexError] (there is no last
    frame), and a single frame, which has no step, raises nothing: the
    net displacement is divided by the empty sum, zero, and the value
    returned is not finite. *)
Theorem efficiency_and_straight_below_two_frames :
  (∀ x y : list float,
      x = [] ∨ y = [] →
      efficiency x y = Raise IndexError ∧ straight x y = Raise IndexError)
  ∧ (∀ a b : float,
      ∃ v w, efficiency [a] [b] = Ok v ∧ is_finite v = false
             ∧ straight [a] [b] = Ok w ∧ is_finite w = false).
Proof.
  split.
  - intros x y [-> | ->].
    + split; reflexivity.
    + destruct x as [|x0 x']; [split; reflexivity|].
      destruct (ends_of (x0 :: x')) as (u & v & Hu & Hv); [done|].
      unfold efficiency, straight. rewrite Hu, Hv. cbn [bind].
      rewrite !getitem_nil. auto.
  - intros a b. eexists _, _.
    split; [reflexivity|]. split; [apply div_by_zero_not_finite|].
    split; [reflexivity|]. apply div_by_zero_not_finite.
Qed.

(** ** Boundedness, trappedness and fractal dimension in exact arithmetic *)

Section real_numpy.
Local Open Scope R_scope.

Lemma isnan_R (x : R) : isnan x = false.
Proof.
  unfold isnan. cbn [neqb R_num]. destruct (Req_dec_T x x); [reflexivity|done].
Qed.

Lemma maximum_R (a b : R) : np.maximum a b = Rmax a b.
Proof.
  unfold np.maximum. rewrite isnan_R. cbn [nltb neqb R_num].
  unfold Rmax.
  destruct (Rlt_dec b a), (Req_dec_T a b), (Rle_dec a b); simpl; lra.
Qed.

Lemma foldl_maximum_R (v : R) (l : list R) :
  (foldl np.maximum v l = v ∨ foldl np.maximum v l ∈ l)
  ∧ v <= foldl np.maximum v l
  ∧ Forall (λ u, u <= foldl np.maximum v l) l.
Proof.
  revert v. induction l as [|a l IH]; intros v.
  - simpl. split; [by left|]. split; [lra|constructor].
  - cbn [foldl]. rewrite maximum_R.
    destruct (IH (Rmax v a)) as (Hin & Hle & Hall).
    pose proof (Rmax_l v a). pose proof (Rmax_r v a).
    split; [|split].
    + destruct Hin as [Heq|Hin]; [|right; by right].
      rewrite Heq. unfold Rmax. destruct (Rle_dec v a); [right; by left|by left].
    + lra.
    + constructor; [lra|assumption].
Qed.

(** [np.max] over the reals is the largest entry. *)
Lemma max_R (l : list R) (m : R) :
  np.max l = Ok m → m ∈ l ∧ Forall (λ v, v <= m) l.
Proof.
  destruct l as [|v l]; [discriminate|]. intros [= <-].
  destruct (foldl_maximum_R v l) as (Hin & Hle & Hall).
  split.
  - destruct Hin as [-> |Hin]; [by left|by right].
  - by constructor.
Qed.

Lemma steps_of_nonneg (x y : list R) : Forall (λ v, 0 <= v) (steps_of x y).
Proof.
  rewrite steps_of_R. apply Forall_fmap, Forall_forall. intros v _.
  apply sq_sum_nonneg.
Qed.

Lemma steps_of_length (x y : list R) :
  length x = length y → length (steps_of x y) = (length x - 1)%nat.
Proof.
  intros Hl. rewrite steps_of_R, length_fmap. by apply stepsR_length.
Qed.

Lemma dec_R (m : Z) (e : nat) : dec (T := R) m e = IZR m / IZR (10 ^ Z.of_nat e).
Proof. reflexivity. Qed.

Lemma ln_monotone (a b : R) : 0 < a → a <= b → ln a <= ln b.
Proof.
  intros Ha [Hlt| ->]; [|lra]. left. by apply ln_increasing.
Qed.

Lemma trapped_R (bd : R) :
  trapped exp bd = 1 - exp (2048 / 10000 - 25117 / 100000 * bd).
Proof. reflexivity. Qed.
End real_numpy.

Section real_bound.
Local Open Scope R_scope.

(** X10.  Over the reals the boundedness that [bound] returns is the
    first MSD increment times the number of lags over the largest squared
    step, [(M[1] - M[0]) * N / max(step²)], for a trajectory with a
    non-zero step: the 4 of the diffusion coefficient and the 2² of the
    radius cancel.  [np.max] picks the largest squared step. *)
Theorem boundedness_in_closed_form (x y M : list R) (m0 m1 : R) :
  length x = length y → (2 ≤ length x)%nat →
  M !! 0%nat = Some m0 → M !! 1%nat = Some m1 →
  ∃ mx bd tr,
    bound exp x y M = Ok (bd, tr)
    ∧ mx ∈ steps_of x y ∧ Forall (λ v, v <= mx) (steps_of x y)
    ∧ (0 < mx → bd = (m1 - m0) * INR (length M) / mx).
Proof.
  intros Hl Hx H0 H1.
  destruct (np.max (steps_of x y)) as [mx|e] eqn:Hmx.
  2:{ pose proof (steps_of_length x y Hl) as Hlen.
      destruct (steps_of x y); [simpl in Hlen; lia|discriminate]. }
  destruct (max_R _ _ Hmx) as [Hin Hall].
  exists mx. unfold bound.
  rewrite !getitem_at by lia.
  change (Z.to_nat 1) with 1%nat. change (Z.to_nat 0) with 0%nat.
  rewrite H0, H1. cbn [bind].
  rewrite steps2_same by assumption. cbn [bind]. rewrite Hmx. cbn [bind].
  eexists _, _. split; [reflexivity|]. split; [assumption|].
  split; [assumption|]. intros Hpos.
  cbn [nsub ndiv nmul nsqrt of_Z R_num]. unfold sqr. cbn [nmul ndiv R_num].
  rewrite <- INR_IZR_INZ.
  assert (Hsq : R_sqrt.sqrt mx * R_sqrt.sqrt mx = mx) by (apply sqrt_sqrt; lra).
  assert (Hr : R_sqrt.sqrt mx / 2 * (R_sqrt.sqrt mx / 2) = mx / 4).
  { transitivity (R_sqrt.sqrt mx * R_sqrt.sqrt mx / 4); [field|]. by rewrite Hsq. }
  rewrite Hr. field. lra.
Qed.

(** X11.  The trappedness that [bound] returns is
    [1 - exp(0.2048 - 0.25117 * bd)]: over the reals it is always below
    1, it grows with the boundedness [bd], and it is not a probability
    for small [bd]: it is negative exactly when [bd < 0.2048 / 0.25117]
    (about 0.815), so for every trajectory whose first two MSD values are
    equal. *)
Theorem trappedness_is_below_one (x y M : list R) (bd tr : R) :
  bound exp x y M = Ok (bd, tr) →
  tr = 1 - exp (2048 / 10000 - 25117 / 100000 * bd)
  ∧ tr < 1
  ∧ (tr < 0 ↔ 25117 * bd < 20480)
  ∧ ∀ (x' y' M' : list R) (bd' tr' : R),
      bound exp x' y' M' = Ok (bd', tr') → bd <= bd' → tr <= tr'.
Proof.
  assert (Hform : ∀ (x y M : list R) (bd tr : R),
            bound exp x y M = Ok (bd, tr) →
            tr = 1 - exp (2048 / 10000 - 25117 / 100000 * bd)).
  { intros x0 y0 M0 b t Hrun. unfold bound in Hrun.
    apply bind_ok in Hrun as (m1 & _ & Hrun).
    apply bind_ok in Hrun as (m0 & _ & Hrun).
    apply bind_ok in Hrun as (s & _ & Hrun).
    apply bind_ok in Hrun as (mx & _ & Hrun).
    injection Hrun as <- <-. apply trapped_R. }
  intros Hrun. pose proof (Hform _ _ _ _ _ Hrun) as ->.
  split; [reflexivity|]. split; [|split].
  - pose proof (exp_pos (2048 / 10000 - 25117 / 100000 * bd)). lra.
  - split.
    + intros Hneg.
      assert (Hlt : exp 0 < exp (2048 / 10000 - 25117 / 100000 * bd))
        by (rewrite exp_0; lra).
      apply exp_lt_inv in Hlt. lra.
    + intros Hsmall.
      assert (Hlt : exp 0 < exp (2048 / 10000 - 25117 / 100000 * bd))
        by (apply exp_increasing; lra).
      rewrite exp_0 in Hlt. lra.
  - intros x' y' M' bd' tr' Hrun' Hle.
    rewrite (Hform _ _ _ _ _ Hrun').
    destruct (Req_dec bd bd') as [-> |Hne]; [lra|].
    assert (Hlt : exp (2048 / 10000 - 25117 / 100000 * bd')
                  < exp (2048 / 10000 - 25117 / 100000 * bd))
      by (apply exp_increasing; lra).
    lra.
Qed.
End real_bound.

(** One step: the largest squared step is the only one. *)
Lemma boundedness_in_closed_form_witness :
  ∃ mx bd tr,
    bound exp [0; 2]%R [0; 0]%R [1; 3]%R = Ok (bd, tr)
    ∧ mx ∈ steps_of [0; 2]%R [0; 0]%R
    ∧ (0 < mx → bd = (3 - 1) * INR 2 / mx)%R.
Proof.
  destruct (boundedness_in_closed_form [0; 2]%R [0; 0]%R [1; 3]%R 1%R 3%R)
    as (mx & bd & tr & Hrun & Hin & _ & Hbd);
    [reflexivity|simpl; lia|reflexivity|reflexivity|].
  exists mx, bd, tr. auto.
Defined.

Lemma trappedness_is_below_one_witness :
  ∃ bd tr, bound exp [0; 2]%R [0; 0]%R [1; 3]%R = Ok (bd, tr) ∧ (tr < 1)%R.
Proof.
  eexists _, _. split; [reflexivity|].
  destruct (trappedness_is_below_one [0; 2]%R [0; 0]%R [1; 3]%R _ _ eq_refl)
    as (_ & Hlt & _).
  exact Hlt.
Defined.

Section real_fractal.
Local Open Scope R_scope.

Lemma elem_le_sumR (l : list R) (v : R) :
  Forall (λ u, 0 <= u) l → v ∈ l → v <= sumR l.
Proof.
  induction 1 as [|a l Ha Hl IH]; intros Hv; [by apply elem_of_nil in Hv|].
  rewrite sumR_cons. pose proof (sumR_nonneg l Hl).
  apply elem_of_cons in Hv as [-> |Hv]; [lra|]. specialize (IH Hv). lra.
Qed.

Lemma sumR_le_max (l : list R) (d : R) :
  Forall (λ u, u <= d) l → sumR l <= INR (length l) * d.
Proof.
  induction 1 as [|a l Ha _ IH]; [simpl; lra|].
  change (length (a :: l)) with (S (length l)). rewrite S_INR, sumR_cons. lra.
Qed.

(** A sum that reaches the bound has every term at the bound. *)
Lemma sumR_eq_max (l : list R) (d : R) :
  Forall (λ u, u <= d) l → sumR l = INR (length l) * d → Forall (λ u, u = d) l.
Proof.
  induction 1 as [|a l Ha Hl IH]; intros Hs; [constructor|].
  change (length (a :: l)) with (S (length l)) in Hs.
  rewrite S_INR, sumR_cons in Hs.
  pose proof (sumR_le_max l d Hl).
  constructor; [lra|]. apply IH. lra.
Qed.

Lemma sumR_const (l : list R) (d : R) :
  Forall (λ u, u = d) l → sumR l = INR (length l) * d.
Proof.
  induction 1 as [|a l Ha _ IH]; [simpl; lra|].
  change (length (a :: l)) with (S (length l)). rewrite S_INR, sumR_cons. lra.
Qed.

Lemma step_lengths_sqrt (x y : list R) :
  nsqrt <$> steps_of x y = step_lengths x y.
Proof. apply sqrt_steps_of_R. Qed.

Lemma step_lengths_length (x y : list R) :
  length x = length y → length (step_lengths x y) = (length x - 1)%nat.
Proof.
  intros Hl. unfold step_lengths. rewrite length_fmap. by apply stepsR_length.
Qed.

(** The square root of the largest squared step is the largest step. *)
Lemma longest_step (x y : list R) (mx : R) :
  np.max (steps_of x y) = Ok mx →
  R_sqrt.sqrt mx ∈ step_lengths x y
  ∧ Forall (λ s, s <= R_sqrt.sqrt mx) (step_lengths x y).
Proof.
  intros Hmx. destruct (max_R _ _ Hmx) as [Hin Hall].
  rewrite <- step_lengths_sqrt. split.
  - change (R_sqrt.sqrt mx) with (nsqrt mx). by apply list_elem_of_fmap_2.
  - apply Forall_fmap. eapply Forall_impl; [exact Hall|].
    intros v Hv. by apply sqrt_le_1_alt.
Qed.

(** X12.  Over the reals, with the natural logarithm, what [fractDim]
    returns for a trajectory of at least two steps and of non-zero length
    lies between 1/2 and 1: the path length is between the longest step
    and [n] times the longest step, so the argument [n*n*d/total] of the
    logarithm in the denominator is between [n] and [n²].  The value is 1
    exactly when all steps are equally long, whatever their directions. *)
Theorem fractDim_between_half_and_one (x y : list R) :
  length x = length y → (3 ≤ length x)%nat → 0 < sumR (step_lengths x y) →
  ∃ f, fractDim ln x y = Ok f
    ∧ 1 / 2 <= f <= 1
    ∧ (f = 1 ↔ ∃ l, Forall (λ s, s = l) (step_lengths x y)).
Proof.
  intros Hl Hx HL.
  destruct (np.max (steps_of x y)) as [mx|e] eqn:Hmx.
  2:{ pose proof (steps_of_length x y Hl) as Hlen.
      destruct (steps_of x y); [simpl in Hlen; lia|discriminate]. }
  destruct (longest_step x y mx Hmx) as [Hin Hall].
  pose proof (step_lengths_length x y Hl) as Hlen.
  unfold fractDim. cbv zeta. rewrite steps2_same by assumption. cbn [bind].
  rewrite Hmx. cbn [bind]. rewrite np_sum_R, step_lengths_sqrt.
  eexists. split; [reflexivity|].
  cbn [ndiv nmul nsqrt of_Z R_num]. rewrite mult_IZR.
  replace (IZR (Z.of_nat (length x) - 1)) with (INR (length x - 1))
    by (rewrite INR_IZR_INZ; f_equal; lia).
  assert (Hn : 2 <= INR (length x - 1)).
  { change 2 with (INR 2). apply le_INR. lia. }
  assert (Hnonneg : Forall (λ u, 0 <= u) (step_lengths x y)).
  { apply Forall_fmap, Forall_forall. intros v _. apply norm_nonneg. }
  pose proof (elem_le_sumR _ _ Hnonneg Hin) as HdL.
  pose proof (sumR_le_max _ _ Hall) as HLnd. rewrite Hlen in HLnd.
  remember (R_sqrt.sqrt mx) as d eqn:Ed.
  remember (sumR (step_lengths x y)) as L eqn:EL.
  remember (INR (length x - 1)) as n eqn:En.
  assert (Hd : 0 < d) by nra.
  set (q := n * n * d / L).
  assert (HqL : q * L = n * n * d) by (unfold q; field; lra).
  assert (Hnq : n <= q) by (apply (Rmult_le_reg_r L); [lra|]; nra).
  assert (Hqn : q <= n * n) by (apply (Rmult_le_reg_r L); [lra|]; nra).
  assert (Hln : 0 < ln n) by (rewrite <- ln_1; apply ln_increasing; lra).
  assert (Hle1 : ln n <= ln q) by (apply ln_monotone; lra).
  assert (Hle2 : ln q <= ln n + ln n).
  { rewrite <- ln_mult by lra. apply ln_monotone; lra. }
  split; [split|].
  - apply (Rmult_le_reg_r (ln q)); [lra|].
    unfold Rdiv at 2. rewrite Rmult_assoc, Rinv_l by lra. lra.
  - apply (Rmult_le_reg_r (ln q)); [lra|].
    unfold Rdiv. rewrite Rmult_assoc, Rinv_l by lra. lra.
  - split.
    + intros Hone. exists d.
      assert (Heq : ln n = ln q).
      { apply (Rmult_eq_reg_r (/ ln q)); [|apply Rinv_neq_0_compat; lra].
        rewrite Rinv_r by lra. exact Hone. }
      apply ln_inv in Heq; [|lra..].
      apply sumR_eq_max; [assumption|]. rewrite Hlen, <- EL, <- En.
      assert (n * L = n * (n * d)) by (rewrite Heq at 1; lra).
      apply (Rmult_eq_reg_l n); lra.
    + intros (l & Hsame).
      assert (Hdl : d = l).
      { rewrite Forall_forall in Hsame. by apply Hsame. }
      subst l. pose proof (sumR_const _ _ Hsame) as HLc.
      rewrite Hlen, <- EL, <- En in HLc.
      assert (Hq : q = n) by (apply (Rmult_eq_reg_r L); [nra|lra]).
      rewrite Hq. apply Rinv_r. lra.
Qed.
End real_fractal.

(** Two equal steps along the x axis. *)
Lemma fractDim_between_half_and_one_witness :
  ∃ f, fractDim ln [0; 1; 2]%R [0; 0; 0]%R = Ok f ∧ (1 / 2 <= f <= 1)%R.
Proof.
  destruct (fractDim_between_half_and_one [0; 1; 2]%R [0; 0; 0]%R)
    as (f & Hrun & Hb & _).
  - reflexivity.
  - simpl. lia.
  - unfold step_lengths, stepsR, norm. simpl.
    match goal with
    | |- (0 < ?a + (?b + 0))%R =>
        assert (0 < a)%R by (apply sqrt_lt_R0; lra);
        assert (0 <= b)%R by apply sqrt_pos; lra
    end.
  - exists f. auto.
Defined.

(** ** The asymmetries in exact arithmetic *)

Section asym_values.
Context {T : Type} `{Num T}.
Local Open Scope num_scope.
Variable log : T → T.
Variable eig : list (list T) → result (list T * list (list T)).

(** What [asym] returns, written out. *)
Lemma asym_value (x y : list T) (c : list (list T)) (e0 e1 : T)
    (vecs : list (list T)) (v0 : list T) :
  cov x y = Ok c → eig c = Ok ([e0; e1], vecs) → col_of vecs 0 = Ok v0 →
  asym log eig x y
  = Ok ([sqr (sqr e0 - sqr e1) / sqr (sqr e0 + sqr e1);
         (if nltb e1 e0 then e1 else e0) / (if nltb e0 e1 then e1 else e0);
         - log (of_Z 1 - dec 5 1 * sqr (e0 - e1) / sqr (e0 + e1))],
        [e0; e1], vecs, moment4 (project x y v0) (length x)).
Proof.
  intros Hc He Hv. unfold asym. rewrite Hc. simpl. rewrite He. simpl.
  rewrite Hv. reflexivity.
Qed.
End asym_values.

Section real_asym_numbers.
Local Open Scope R_scope.
Variables e0 e1 : R.
Hypothesis H0 : 0 <= e0.
Hypothesis H1 : 0 <= e1.
Hypothesis Hsum : 0 < e0 + e1.

Lemma squares_positive : 0 < e0 * e0 + e1 * e1.
Proof.
  destruct (Req_dec e0 0) as [E|E].
  - assert (0 < e1) by lra. assert (0 < e1 * e1) by (apply Rmult_lt_0_compat; lra).
    rewrite E. lra.
  - assert (0 < e0) by lra. assert (0 < e0 * e0) by (apply Rmult_lt_0_compat; lra).
    pose proof (Rle_0_sqr e1) as Hs. unfold Rsqr in Hs. lra.
Qed.

Lemma product_zero : e0 * e1 = 0 ↔ e0 = 0 ∨ e1 = 0.
Proof.
  split.
  - intros E. apply Rmult_integral in E. tauto.
  - intros [-> | ->]; ring.
Qed.

Lemma asym1_facts :
  let a1 := (e0 * e0 - e1 * e1) * (e0 * e0 - e1 * e1)
            / ((e0 * e0 + e1 * e1) * (e0 * e0 + e1 * e1)) in
  0 <= a1 <= 1 ∧ (e0 = e1 ↔ a1 = 0) ∧ (e0 = 0 ∨ e1 = 0 ↔ a1 = 1).
Proof.
  intros a1. pose proof squares_positive as Hs.
  set (A := (e0 * e0 - e1 * e1) * (e0 * e0 - e1 * e1)) in *.
  set (B := (e0 * e0 + e1 * e1) * (e0 * e0 + e1 * e1)) in *.
  assert (HB : 0 < B) by (apply Rmult_lt_0_compat; assumption).
  assert (HA : 0 <= A) by (pose proof (Rle_0_sqr (e0 * e0 - e1 * e1)) as Hq; exact Hq).
  assert (Hdiff : B - A = 4 * ((e0 * e1) * (e0 * e1))) by (unfold A, B; ring).
  assert (Hpp : 0 <= (e0 * e1) * (e0 * e1)) by (pose proof (Rle_0_sqr (e0 * e1)) as Hq; exact Hq).
  assert (Ha1 : a1 * B = A) by (unfold a1; field; lra).
  split; [split|split].
  - unfold a1. apply Rle_mult_inv_pos; lra.
  - apply (Rmult_le_reg_r B); lra.
  - split.
    + intros E. apply (Rmult_eq_reg_r B); [|lra]. rewrite Ha1. unfold A. rewrite E. ring.
    + intros E. rewrite E in Ha1. assert (HA0 : A = 0) by lra.
      unfold A in HA0. apply Rmult_integral in HA0.
      assert (Hsq : e0 * e0 = e1 * e1) by (destruct HA0; lra).
      assert (Hf : (e0 - e1) * (e0 + e1) = 0) by (ring_simplify; lra).
      apply Rmult_integral in Hf. destruct Hf; lra.
  - split.
    + intros E. apply (Rmult_eq_reg_r B); [|lra]. rewrite Ha1.
      unfold A, B. destruct E as [-> | ->]; ring.
    + intros E. rewrite E in Ha1.
      assert (Hz : (e0 * e1) * (e0 * e1) = 0) by lra.
      apply Rmult_integral in Hz. apply product_zero. tauto.
Qed.

Lemma asym2_facts :
  let a2 := (if nltb e1 e0 then e1 else e0) / (if nltb e0 e1 then e1 else e0) in
  0 <= a2 <= 1 ∧ (e0 = e1 ↔ a2 = 1) ∧ (e0 = 0 ∨ e1 = 0 ↔ a2 = 0).
Proof.
  intros a2. unfold a2. cbn [nltb R_num].
  destruct (Rlt_dec e1 e0) as [Hlt|Hge], (Rlt_dec e0 e1) as [Hlt'|Hge']; try lra.
  - (* e1 < e0: e1 / e0 *)
    assert (Hq : e1 / e0 * e0 = e1) by (field; lra).
    split; [split|split].
    + apply Rle_mult_inv_pos; lra.
    + apply (Rmult_le_reg_r e0); lra.
    + split; [lra|]. intros E. rewrite E in Hq. lra.
    + split.
      * intros [E|E]; [lra|]. rewrite E. unfold Rdiv. ring.
      * intros E. rewrite E in Hq. right. lra.
  - assert (Hq : e0 / e1 * e1 = e0) by (field; lra).
    split; [split|split].
    + apply Rle_mult_inv_pos; lra.
    + apply (Rmult_le_reg_r e1); lra.
    + split; [lra|]. intros E. rewrite E in Hq. lra.
    + split.
      * intros [E|E]; [|lra]. rewrite E. unfold Rdiv. ring.
      * intros E. rewrite E in Hq. left. lra.
  - assert (e0 = e1) by lra. assert (0 < e0) by lra.
    assert (Hq : e0 / e0 = 1) by (field; lra).
    rewrite Hq. split; [lra|]. split; [tauto|]. split; [lra|lra].
Qed.

Lemma asym3_facts :
  let a3 := - ln (1 - 5 / 10 * ((e0 - e1) * (e0 - e1)) / ((e0 + e1) * (e0 + e1))) in
  0 <= a3 <= ln 2 ∧ (e0 = e1 ↔ a3 = 0) ∧ (e0 = 0 ∨ e1 = 0 ↔ a3 = ln 2).
Proof.
  intros a3. unfold a3. clear a3.
  set (P := (e0 - e1) * (e0 - e1)).
  set (Q := (e0 + e1) * (e0 + e1)).
  assert (HQ : 0 < Q) by (apply Rmult_lt_0_compat; assumption).
  assert (HP : 0 <= P) by (pose proof (Rle_0_sqr (e0 - e1)) as Hq; exact Hq).
  assert (Hdiff : Q - P = 4 * (e0 * e1)) by (unfold P, Q; ring).
  assert (Hprod : 0 <= e0 * e1) by (apply Rmult_le_pos; assumption).
  set (v := 1 - 5 / 10 * P / Q).
  assert (Hv0 : v * Q = Q - P / 2) by (unfold v; field; lra).
  assert (Hvlo : 1 / 2 <= v) by (apply (Rmult_le_reg_r Q); lra).
  assert (Hvhi : v <= 1) by (apply (Rmult_le_reg_r Q); lra).
  assert (Hhalf : ln (1 / 2) = - ln 2).
  { replace (1 / 2) with (/ 2) by lra. apply ln_Rinv. lra. }
  assert (Hl1 : ln v <= 0) by (rewrite <- ln_1; apply ln_monotone; lra).
  assert (Hl2 : - ln 2 <= ln v) by (rewrite <- Hhalf; apply ln_monotone; lra).
  assert (Hv1 : ln v = 0 ↔ v = 1).
  { split; [|intros ->; apply ln_1].
    intros E. apply ln_inv; [lra..|]. now rewrite ln_1. }
  assert (Hv2 : ln v = - ln 2 ↔ v = 1 / 2).
  { split; [|intros ->; exact Hhalf].
    intros E. apply ln_inv; [lra..|]. now rewrite Hhalf. }
  split; [lra|]. split.
  - split.
    + intros E. assert (Hv' : v = 1).
      { apply (Rmult_eq_reg_r Q); [|lra]. rewrite Hv0. unfold P. rewrite E. lra. }
      apply Hv1 in Hv'. lra.
    + intros E. assert (Hv' : v = 1) by (apply Hv1; lra).
      rewrite Hv' in Hv0. assert (HP0 : P = 0) by lra.
      unfold P in HP0. apply Rmult_integral in HP0. destruct HP0; lra.
  - split.
    + intros E. assert (Hv' : v = 1 / 2).
      { apply (Rmult_eq_reg_r Q); [|lra]. rewrite Hv0.
        apply product_zero in E. lra. }
      apply Hv2 in Hv'. lra.
    + intros E. assert (Hv' : v = 1 / 2) by (apply Hv2; lra).
      rewrite Hv' in Hv0. apply product_zero. lra.
Qed.
End real_asym_numbers.

Section real_asym.
Local Open Scope R_scope.
Variable eig : list (list R) → result (list R * list (list R)).

(** X13.  Over the reals, with the natural logarithm and two
    non-negative eigenvalues that are not both zero (the eigenvalues of a
    covariance matrix of a trajectory that moves), the three asymmetries
    that [asym] returns are in range: asymmetry-1 and asymmetry-2 lie in
    [0, 1] and asymmetry-3 in [0, ln 2].  Equal eigenvalues (a trajectory
    that spreads alike in all directions) are exactly the case
    [a1 = 0], [a2 = 1], [a3 = 0], and an eigenvalue zero (a trajectory on
    a line) exactly the case [a1 = 1], [a2 = 0], [a3 = ln 2]. *)
Theorem asymmetries_in_range (x y : list R) (c : list (list R)) (e0 e1 : R)
    (vecs : list (list R)) (v0 : list R) :
  cov x y = Ok c → eig c = Ok ([e0; e1], vecs) → col_of vecs 0 = Ok v0 →
  0 <= e0 → 0 <= e1 → 0 < e0 + e1 →
  ∃ a1 a2 a3 K,
    asym ln eig x y = Ok ([a1; a2; a3], [e0; e1], vecs, K)
    ∧ 0 <= a1 <= 1 ∧ 0 <= a2 <= 1 ∧ 0 <= a3 <= ln 2
    ∧ (e0 = e1 ↔ a1 = 0) ∧ (e0 = e1 ↔ a2 = 1) ∧ (e0 = e1 ↔ a3 = 0)
    ∧ (e0 = 0 ∨ e1 = 0 ↔ a1 = 1) ∧ (e0 = 0 ∨ e1 = 0 ↔ a2 = 0)
    ∧ (e0 = 0 ∨ e1 = 0 ↔ a3 = ln 2).
Proof.
  intros Hc He Hv H0 H1 Hsum.
  rewrite (asym_value ln eig x y c e0 e1 vecs v0 Hc He Hv).
  eexists _, _, _, _. split; [reflexivity|].
  destruct (asym1_facts e0 e1 H0 H1 Hsum) as (Hr1 & Hs1 & Hz1).
  destruct (asym2_facts e0 e1 H0 H1 Hsum) as (Hr2 & Hs2 & Hz2).
  destruct (asym3_facts e0 e1 H0 H1 Hsum) as (Hr3 & Hs3 & Hz3).
  split; [exact Hr1|]. split; [exact Hr2|]. split; [exact Hr3|].
  split; [exact Hs1|]. split; [exact Hs2|]. split; [exact Hs3|].
  split; [exact Hz1|]. split; [exact Hz2|exact Hz3].
Qed.
End real_asym.


(** A trajectory along the x axis: the covariance is diagonal with the
    eigenvalues 2 and 0. *)
Lemma asymmetries_in_range_witness :
  ∃ a1 a2 a3 e0 e1 vecs K,
    asym ln eig_of_diagonal [0; 2]%R [0; 0]%R
    = Ok ([a1; a2; a3], [e0; e1], vecs, K)
    ∧ (0 <= a1 <= 1)%R ∧ (0 <= a2 <= 1)%R ∧ (0 <= a3 <= ln 2)%R.
Proof.
  assert (Hdot : ∀ a b c d : R, np.dot [a; b] [c; d] = (a * c + b * d)%R)
    by reflexivity.
  edestruct (asymmetries_in_range eig_of_diagonal [0; 2]%R [0; 0]%R)
    as (a1 & a2 & a3 & K & Hrun & Hr1 & Hr2 & Hr3 & _).
  - reflexivity.
  - unfold eig_of_diagonal. simpl.
    change (Z.of_nat 2) with 2%Z. change ((2 - 1) `max` 0)%Z with 1%Z.
    rewrite !Hdot, !np_sum_R. unfold sumR. cbn [foldr].
    repeat match goal with
    | |- context [Req_dec_T ?a ?b] =>
        destruct (Req_dec_T a b) as [_|Hne]; [|exfalso; apply Hne; lra]
    end.
    reflexivity.
  - reflexivity.
  - lra.
  - lra.
  - lra.
  - eexists a1, a2, a3, _, _, _, K. split; [exact Hrun|]. auto.
Defined.

Section real_asym_order.
Local Open Scope R_scope.
Variable log : R → R.

(** X14.  The three asymmetries do not depend on the order in which the
    eigen-decomposition returns the two eigenvalues: over the reals, two
    decompositions of one covariance matrix that return the eigenvalues
    in opposite orders give the same [a1], [a2] and [a3].  (The kurtosis
    does depend on the order.) *)
Theorem asymmetries_ignore_eigenvalue_order
    (eig eig' : list (list R) → result (list R * list (list R)))
    (x y : list R) (c : list (list R)) (e0 e1 : R)
    (vecs vecs' : list (list R)) (v v' : list R) :
  cov x y = Ok c →
  eig c = Ok ([e0; e1], vecs) → eig' c = Ok ([e1; e0], vecs') →
  col_of vecs 0 = Ok v → col_of vecs' 0 = Ok v' →
  ∃ a K K',
    asym log eig x y = Ok (a, [e0; e1], vecs, K)
    ∧ asym log eig' x y = Ok (a, [e1; e0], vecs', K').
Proof.
  intros Hc He He' Hv Hv'.
  rewrite (asym_value log eig x y c e0 e1 vecs v Hc He Hv).
  rewrite (asym_value log eig' x y c e1 e0 vecs' v' Hc He' Hv').
  eexists _, _, _. split; [reflexivity|].
  f_equal. f_equal. f_equal. f_equal.
  unfold sqr. rewrite dec_R. cbn [nsub nadd nmul ndiv nopp nltb of_Z R_num].
  f_equal; [|f_equal; [|f_equal]].
  - f_equal; [ring|f_equal; ring].
  - destruct (Rlt_dec e0 e1), (Rlt_dec e1 e0); try reflexivity; try lra.
    assert (e0 = e1) as -> by lra. reflexivity.
  - f_equal. f_equal. f_equal. f_equal; [f_equal; ring|f_equal; ring].
Qed.
End real_asym_order.

(** Two decompositions of one covariance matrix, as fixed answers. *)
Lemma asymmetries_ignore_eigenvalue_order_witness :
  ∃ a K K',
    asym ln (λ _, Ok ([2; 1]%R, [[1; 0]; [0; 1]]%R)) [0; 2]%R [0; 1]%R
    = Ok (a, [2; 1]%R, [[1; 0]; [0; 1]]%R, K)
    ∧ asym ln (λ _, Ok ([1; 2]%R, [[0; 1]; [1; 0]]%R)) [0; 2]%R [0; 1]%R
      = Ok (a, [1; 2]%R, [[0; 1]; [1; 0]]%R, K').
Proof.
  eapply (asymmetries_ignore_eigenvalue_order ln
            (λ _, Ok ([2; 1]%R, [[1; 0]; [0; 1]]%R))
            (λ _, Ok ([1; 2]%R, [[0; 1]; [1; 0]]%R)));
    reflexivity.
Defined.

(** ** MSD ratios of a linear profile *)

Section real_msd.
Local Open Scope R_scope.

(** X15.  Over the reals [msdRatios] returns for every well-formed
    matrix, its diagonal entries are zero wherever the MSD value is not
    zero, and a column whose MSD profile is linear in the lag,
    [MSD[r] = s * (r + 1)] with [s ≠ 0] (normal diffusion), has all its
    ratios zero: the ratio of two MSD values is then the ratio of their
    lags. *)
Theorem msdRatios_vanishes_on_linear_profiles (Ms : array2 R) :
  rectangular Ms →
  ∃ Rm,
    msdRatios Ms = Ok Rm
    ∧ (∀ (r t : nat) (mr : R),
         (r < nrows Ms)%nat → (t < ncols Ms)%nat →
         at2 (rows Ms) r t = Some mr → mr ≠ 0 →
         at3 Rm r r t = Some 0)
    ∧ (∀ (t : nat) (s : R),
         (t < ncols Ms)%nat → s ≠ 0 →
         (∀ r : nat, (r < nrows Ms)%nat →
            at2 (rows Ms) r t = Some (s * INR (S r))) →
         ∀ r c : nat, (r < nrows Ms)%nat → (c < nrows Ms)%nat →
           at3 Rm r c t = Some 0).
Proof.
  intros Hrect.
  destruct (msdRatios_at3 Ms Hrect (exact_lags_R (nrows Ms))) as (Rm & Hrun & Hent).
  exists Rm. split; [exact Hrun|]. split.
  - intros r t mr Hr Ht Hmr Hne.
    destruct (Hent r r t Hr Hr Ht) as (m1 & m2 & H1 & H2 & ->).
    rewrite Hmr in H1, H2. injection H1 as <-. injection H2 as <-.
    rewrite Nat.ltb_irrefl.
    cbn [nsub ndiv of_Z R_num]. rewrite <- INR_IZR_INZ.
    assert (INR (S r) ≠ 0) by (apply not_0_INR; lia).
    f_equal. unfold Rdiv. rewrite !Rinv_r by assumption. lra.
  - intros t s Ht Hs Hlin r c Hr Hc.
    destruct (Hent r c t Hr Hc Ht) as (mr & mc & H1 & H2 & ->).
    rewrite Hlin in H1, H2 by assumption.
    assert (Emr : mr = s * INR (S r)) by congruence.
    assert (Emc : mc = s * INR (S c)) by congruence.
    destruct (c <? r)%nat; [reflexivity|].
    cbn [nsub ndiv of_Z R_num]. rewrite <- !INR_IZR_INZ, Emr, Emc.
    assert (Hc0 : INR (S c) ≠ 0) by (apply not_0_INR; lia).
    f_equal. revert Hc0. generalize (INR (S r)) (INR (S c)). intros a b Hb.
    unfold Rdiv. rewrite Rinv_mult.
    transitivity (s * / s * (a * / b) - a * / b); [ring|].
    rewrite Rinv_r by assumption. ring.
Qed.
End real_msd.

(** One profile of two lags, [MSD = 2 * lag]. *)
Lemma msdRatios_vanishes_on_linear_profiles_witness :
  ∃ Rm, msdRatios (Array2 1 [[2]; [4]]%R) = Ok Rm
    ∧ at3 Rm 0 1 0 = Some 0%R.
Proof.
  destruct (msdRatios_vanishes_on_linear_profiles (Array2 1 [[2]; [4]]%R))
    as (Rm & Hrun & _ & Hlin).
  - repeat constructor.
  - exists Rm. split; [exact Hrun|].
    apply (Hlin 0%nat 2%R); [cbv; lia|lra| |cbv; lia..].
    intros r Hr. change (nrows _) with 2%nat in Hr.
    destruct r as [|[|r]]; [| |lia]; cbn; f_equal; lra.
Defined.

(** ** Efficiency and straightness see the shape of the path only *)

Section real_invariance.
Local Open Scope R_scope.
Implicit Types (x y : list R) (c d k : R).

Lemma zip_fmap {A B C D} (f : A → C) (g : B → D) (l : list A) (l' : list B) :
  zip (f <$> l) (g <$> l') = (λ v, (f v.1, g v.2)) <$> zip l l'.
Proof.
  revert l'. induction l as [|a l IH]; intros [|b l']; try reflexivity.
  simpl. f_equal. apply IH.
Qed.

Lemma diff_moved c x : np.diff (moved c x) = np.diff x.
Proof.
  unfold np.diff, moved. rewrite <- fmap_tail, zip_with_fmap_l, zip_with_fmap_r.
  apply zip_with_ext; [|reflexivity..]. intros a b.
  cbn [nsub R_num]. lra.
Qed.

Lemma diff_scaled k x : np.diff (scaled k x) = scaled k (np.diff x).
Proof.
  unfold np.diff, scaled. rewrite <- fmap_tail, zip_with_fmap_l, zip_with_fmap_r.
  generalize (tail x). intros l. revert l.
  induction x as [|a x IH]; intros [|b l]; try reflexivity.
  simpl. f_equal; [cbn [nsub R_num]; lra|]. apply IH.
Qed.

Lemma ends_fmap (f : R → R) x :
  x ≠ [] →
  ∃ h l, head x = Some h ∧ last x = Some l
    ∧ head (f <$> x) = Some (f h) ∧ last (f <$> x) = Some (f l).
Proof.
  intros Hx. destruct x as [|h x']; [done|].
  destruct (last (h :: x')) as [l|] eqn:El; [|by apply last_None in El].
  exists h, l. rewrite fmap_last, El. auto.
Qed.

Lemma displacement_moved c x : displacement (moved c x) = displacement x.
Proof.
  destruct x as [|h x']; [reflexivity|].
  destruct (ends_fmap (λ v, v + c) (h :: x')) as (h' & l & Hh & Hl & Hh' & Hl');
    [done|].
  unfold displacement, moved. rewrite Hh, Hl, Hh', Hl'. simpl. lra.
Qed.

Lemma displacement_scaled k x : displacement (scaled k x) = k * displacement x.
Proof.
  destruct x as [|h x']; [unfold displacement; simpl; lra|].
  destruct (ends_fmap (λ v, k * v) (h :: x')) as (h' & l & Hh & Hl & Hh' & Hl');
    [done|].
  unfold displacement, scaled. rewrite Hh, Hl, Hh', Hl'. simpl. lra.
Qed.

Lemma stepsR_moved c d x y : stepsR (moved c x) (moved d y) = stepsR x y.
Proof. unfold stepsR. by rewrite !diff_moved. Qed.

Lemma stepsR_scaled k x y :
  stepsR (scaled k x) (scaled k y) = (λ v, (k * v.1, k * v.2)) <$> stepsR x y.
Proof. unfold stepsR. rewrite !diff_scaled. apply zip_fmap. Qed.

Lemma norm_scaled k (v : R * R) : norm (k * v.1, k * v.2) = Rabs k * norm v.
Proof.
  unfold norm. cbn [fst snd].
  replace (k * v.1 * (k * v.1) + k * v.2 * (k * v.2))
    with (k² * (v.1 * v.1 + v.2 * v.2)) by (unfold Rsqr; ring).
  rewrite sqrt_mult; [|apply Rle_0_sqr|apply sq_sum_nonneg].
  by rewrite sqrt_Rsqr_abs.
Qed.

Lemma quotient_scaled (a b s : R) : s ≠ 0 → s * a / (s * b) = a / b.
Proof.
  intros Hs. unfold Rdiv. rewrite Rinv_mult.
  transitivity (s * / s * (a * / b)); [ring|]. rewrite Rinv_r by assumption. ring.
Qed.

(** X16.  Over the reals [efficiency] and [straight] depend on the shape
    of the path only: moving the whole trajectory (adding a constant to
    every [x] and another to every [y]) and changing the unit of length
    (multiplying every coordinate by one [k ≠ 0]) leave both values
    unchanged. *)
Theorem efficiency_and_straight_see_the_shape_only (x y : list R) (c d k : R) :
  length x = length y → x ≠ [] → k ≠ 0 →
  efficiency (moved c x) (moved d y) = efficiency x y
  ∧ straight (moved c x) (moved d y) = straight x y
  ∧ efficiency (scaled k x) (scaled k y) = efficiency x y
  ∧ straight (scaled k x) (scaled k y) = straight x y.
Proof.
  intros Hl Hx Hk.
  assert (Hlm : length (moved c x) = length (moved d y))
    by (unfold moved; by rewrite !length_fmap).
  assert (Hls : length (scaled k x) = length (scaled k y))
    by (unfold scaled; by rewrite !length_fmap).
  assert (Hxm : moved c x ≠ []) by (destruct x; done).
  assert (Hxs : scaled k x ≠ []) by (destruct x; done).
  rewrite !efficiency_R, !straight_R by assumption.
  rewrite !displacement_moved, !displacement_scaled, stepsR_moved, stepsR_scaled.
  split; [reflexivity|]. split; [reflexivity|]. split; f_equal.
  - rewrite <- list_fmap_compose.
    replace (sumR ((λ v : R * R, v.1 * v.1 + v.2 * v.2)
                     ∘ (λ v : R * R, (k * v.1, k * v.2)) <$> stepsR x y))
      with (sumR ((λ v : R * R, v.1 * v.1 + v.2 * v.2) <$> stepsR x y) * (k * k)).
    2:{ rewrite <- sumR_scale. f_equal. apply list_fmap_ext. intros _ v _.
        simpl. ring. }
    rewrite <- (quotient_scaled _ (sumR _) (k * k)) by (apply Rmult_integral_contrapositive; auto).
    f_equal; ring.
  - rewrite <- list_fmap_compose.
    replace (sumR (norm ∘ (λ v : R * R, (k * v.1, k * v.2)) <$> stepsR x y))
      with (sumR (norm <$> stepsR x y) * Rabs k).
    2:{ rewrite <- sumR_scale. f_equal. apply list_fmap_ext. intros _ v _.
        simpl. rewrite norm_scaled. ring. }
    change (k * displacement x, k * displacement y)
      with (k * (displacement x, displacement y).1, k * (displacement x, displacement y).2).
    rewrite norm_scaled.
    rewrite <- (quotient_scaled (norm _) (sumR _) (Rabs k)) by (by apply Rabs_no_R0).
    f_equal. ring.
Qed.
End real_invariance.

(** The step from (0,0) to (3,4), moved by (1,-2), and measured in
    another unit. *)
Lemma efficiency_and_straight_see_the_shape_only_witness :
  efficiency (moved 1 one_step_x) (moved (-2) one_step_y)
  = efficiency one_step_x one_step_y
  ∧ straight (scaled 1000 one_step_x) (scaled 1000 one_step_y)
    = straight one_step_x one_step_y.
Proof.
  destruct (efficiency_and_straight_see_the_shape_only
              one_step_x one_step_y 1 (-2) 1000) as (He & _ & _ & Hs);
    [reflexivity|done|lra|].
  split; [exact He|exact Hs].
Defined.

(** ** The bounding rectangle and the aspect ratio *)

Lemma mapM_length {A B} (f : A → result B) (l : list A) (k : list B) :
  mapM f l = Ok k → length k = length l.
Proof.
  revert k. induction l as [|a l IH]; intros k Hk.
  - by injection Hk as <-.
  - cbn in Hk. apply bind_ok in Hk as (b & _ & Hk).
    apply bind_ok in Hk as (k' & Hk' & Hk).
    injection Hk as <-. simpl. f_equal. by apply IH.
Qed.

Section rectangle.
Context {T : Type} `{Num T}.
Local Open Scope num_scope.
Variable pi : T.
Variable cos : T → T.
Variable arctan2 mod_ : T → T → T.
Variable ConvexHull : list (list T) → result (list Z).

Local Abbreviation rect := (minBoundRect pi cos arctan2 mod_ ConvexHull).
Local Abbreviation ratio := (aspectRatio pi cos arctan2 mod_ ConvexHull).

Lemma vecmat_length (v : list T) (r : list (list T)) (p : list T) :
  vecmat v r = Ok p → length p = 2%nat.
Proof.
  intros Hp. unfold vecmat in Hp.
  apply bind_ok in Hp as (c0 & _ & Hp).
  apply bind_ok in Hp as (c1 & _ & Hp).
  by injection Hp as <-.
Qed.

(** Four corners of two coordinates, and two side lengths. *)
Lemma minBoundRect_shape (x y : list T) (rs : list (list T)) (ls : list T) :
  rect x y = Ok (rs, ls) →
  length rs = 4%nat ∧ Forall (λ r, length r = 2%nat) rs ∧ length ls = 2%nat.
Proof.
  intros Hrun. unfold minBoundRect in Hrun.
  apply bind_ok in Hrun as (points & _ & Hrun).
  apply bind_ok in Hrun as (vertices & _ & Hrun).
  apply bind_ok in Hrun as (hull_points & _ & Hrun).
  apply bind_ok in Hrun as (e1 & _ & Hrun).
  apply bind_ok in Hrun as (e0 & _ & Hrun).
  apply bind_ok in Hrun as (rx & _ & Hrun).
  apply bind_ok in Hrun as (ry & _ & Hrun).
  apply bind_ok in Hrun as (min_x & _ & Hrun).
  apply bind_ok in Hrun as (max_x & _ & Hrun).
  apply bind_ok in Hrun as (min_y & _ & Hrun).
  apply bind_ok in Hrun as (max_y & _ & Hrun).
  apply bind_ok in Hrun as (best_idx & _ & Hrun).
  apply bind_ok in Hrun as (x1 & _ & Hrun).
  apply bind_ok in Hrun as (x2 & _ & Hrun).
  apply bind_ok in Hrun as (y1 & _ & Hrun).
  apply bind_ok in Hrun as (y2 & _ & Hrun).
  apply bind_ok in Hrun as (r & _ & Hrun).
  apply bind_ok in Hrun as (r0 & Hr0 & Hrun).
  apply bind_ok in Hrun as (r1 & Hr1 & Hrun).
  apply bind_ok in Hrun as (r2 & Hr2 & Hrun).
  apply bind_ok in Hrun as (r3 & Hr3 & Hrun).
  apply bind_ok in Hrun as (q0 & Hq0 & Hrun).
  apply bind_ok in Hrun as (q1 & Hq1 & Hrun).
  injection Hrun as <- <-.
  apply vecmat_length in Hr0, Hr1, Hr2, Hr3.
  apply mapM_length in Hq0, Hq1.
  split; [reflexivity|]. split; [by repeat constructor|].
  rewrite length_take, length_fmap, length_zip_with, Hq0, Hq1. reflexivity.
Qed.

(** X17.  [minBoundRect] returns four corners of two coordinates and two
    side lengths, the lengths of two adjacent sides, whenever it returns;
    it raises [ValueError] on coordinate vectors of different lengths and
    passes on the exception of the hull routine.  [aspectRatio] adds no
    failure of its own: it raises what [minBoundRect] raises, and
    otherwise returns the larger side over the smaller one, and one minus
    the smaller over the larger; it does not test the smaller side for
    zero. *)
Theorem aspectRatio_fails_as_minBoundRect (x y : list T) :
  (∀ e : exn, rect x y = Raise e → ratio x y = Raise e)
  ∧ (∀ (rs : list (list T)) (ls : list T),
       rect x y = Ok (rs, ls) →
       length rs = 4%nat ∧ Forall (λ r, length r = 2%nat) rs
       ∧ ∃ l0 l1 : T,
           ls = [l0; l1]
           ∧ ratio x y
             = Ok (np.maximum l0 l1 / np.minimum l0 l1,
                   of_Z 1 - np.minimum l0 l1 / np.maximum l0 l1))
  ∧ (length x ≠ length y → rect x y = Raise ValueError)
  ∧ (∀ e : exn,
       length x = length y →
       ConvexHull (zip_with (λ a b, [a; b]) x y) = Raise e →
       rect x y = Raise e).
Proof.
  split; [|split; [|split]].
  - intros e Hrun. unfold aspectRatio. by rewrite Hrun.
  - intros rs ls Hrun.
    destruct (minBoundRect_shape x y rs ls Hrun) as (H4 & H2 & Hls).
    split; [assumption|]. split; [assumption|].
    destruct ls as [|l0 [|l1 [|l2 ls]]]; try discriminate.
    exists l0, l1. split; [reflexivity|].
    unfold aspectRatio. rewrite Hrun. reflexivity.
  - intros Hne. unfold minBoundRect.
    destruct (Nat.eqb_spec (length x) (length y)); [done|reflexivity].
  - intros e Hl Hhull. unfold minBoundRect.
    destruct (Nat.eqb_spec (length x) (length y)); [|done].
    cbn [bind]. rewrite Hhull. reflexivity.
Qed.
End rectangle.

(** ** Missing frames in binary64 *)

Section binary64_nan.
Local Open Scope float_scope.

Lemma nan_sub_l (a : float) : nan - a = nan.
Proof.
  rewrite <- (SF2Prim_Prim2SF (nan - a)), sub_spec.
  change (Prim2SF nan) with S754_nan.
  destruct (Prim2SF a) as [[|]|[|]| |[|] m e]; reflexivity.
Qed.

Lemma nan_sub_r (a : float) : a - nan = nan.
Proof.
  rewrite <- (SF2Prim_Prim2SF (a - nan)), sub_spec.
  change (Prim2SF nan) with S754_nan.
  destruct (Prim2SF a) as [[|]|[|]| |[|] m e]; reflexivity.
Qed.

Lemma nan_add_l (a : float) : nan + a = nan.
Proof.
  rewrite <- (SF2Prim_Prim2SF (nan + a)), add_spec.
  change (Prim2SF nan) with S754_nan.
  destruct (Prim2SF a) as [[|]|[|]| |[|] m e]; reflexivity.
Qed.

Lemma nan_add_r (a : float) : a + nan = nan.
Proof.
  rewrite <- (SF2Prim_Prim2SF (a + nan)), add_spec.
  change (Prim2SF nan) with S754_nan.
  destruct (Prim2SF a) as [[|]|[|]| |[|] m e]; reflexivity.
Qed.

Lemma nan_div_r (a : float) : a / nan = nan.
Proof.
  rewrite <- (SF2Prim_Prim2SF (a / nan)), div_spec.
  change (Prim2SF nan) with S754_nan.
  destruct (Prim2SF a) as [[|]|[|]| |[|] m e]; reflexivity.
Qed.

Lemma nan_ltb_l (a : float) : PrimFloat.ltb nan a = false.
Proof.
  rewrite FloatAxioms.ltb_spec. change (Prim2SF nan) with S754_nan.
  destruct (Prim2SF a) as [[|]|[|]| |[|] m e]; reflexivity.
Qed.

Lemma nan_eqb_r (a : float) : PrimFloat.eqb a nan = false.
Proof.
  rewrite FloatAxioms.eqb_spec. change (Prim2SF nan) with S754_nan.
  destruct (Prim2SF a) as [[|]|[|]| |[|] m e]; reflexivity.
Qed.

(** Only NaN is unequal to itself. *)
Lemma self_unequal_is_nan (a : float) : PrimFloat.eqb a a = false → a = nan.
Proof.
  intros E. rewrite FloatAxioms.eqb_spec in E. rewrite <- (SF2Prim_Prim2SF a).
  destruct (Prim2SF a) as [[|]|[|]| |[|] m e]; try discriminate; try reflexivity.
  all: unfold SFeqb, SFcompare in E;
    rewrite Z.compare_refl, Pos.compare_cont_refl in E; discriminate.
Qed.

(** NaN wins in [np.maximum]. *)
Lemma maximum_nan_l (a : float) : np.maximum nan a = nan.
Proof.
  unfold np.maximum. change (isnan nan) with true.
  destruct (nltb a nan || neqb nan a); reflexivity.
Qed.

Lemma maximum_nan_r (a : float) : np.maximum a nan = nan.
Proof.
  unfold np.maximum. cbn [nltb neqb float_num].
  rewrite nan_ltb_l, nan_eqb_r. cbn [orb].
  unfold isnan. cbn [neqb float_num].
  destruct (PrimFloat.eqb a a) eqn:E; [reflexivity|].
  cbn [negb]. by apply self_unequal_is_nan.
Qed.

(** A NaN among the entries makes the sum and the maximum NaN. *)
Lemma foldl_nan (f : float → float → float) (v : float) (l : list float) :
  (∀ a, f nan a = nan) → (∀ a, f a nan = nan) →
  v = nan ∨ nan ∈ l → foldl f v l = nan.
Proof.
  intros Hl Hr. revert v. induction l as [|a l IH]; intros v Hin.
  - destruct Hin as [-> |Hin]; [reflexivity|by apply elem_of_nil in Hin].
  - cbn [foldl]. apply IH. destruct Hin as [-> |Hin]; [left; apply Hl|].
    apply elem_of_cons in Hin as [<- |Hin]; [left; apply Hr|by right].
Qed.

Lemma nan_cut (n : nat) (l : list float) :
  nan ∈ l → nan ∈ take n l ∨ nan ∈ drop n l.
Proof.
  intros Hin. rewrite <- (take_drop n l) in Hin. by apply elem_of_app in Hin.
Qed.

Lemma zip_nan (l k : list float) :
  length l = length k → nan ∈ l ∨ nan ∈ k → nan ∈ zip_with PrimFloat.add l k.
Proof.
  revert k. induction l as [|a l IH]; intros [|b k] Hl Hin; try discriminate.
  - destruct Hin as [Hin|Hin]; by apply elem_of_nil in Hin.
  - cbn [zip_with]. simpl in Hl.
    destruct Hin as [Hin|Hin]; apply elem_of_cons in Hin as [<- |Hin].
    + rewrite nan_add_l. by left.
    + right. apply IH; [lia|by left].
    + rewrite nan_add_r. by left.
    + right. apply IH; [lia|by right].
Qed.

(** A NaN stays in the running sums or among the entries to come. *)
Lemma pairwise_lanes_nan (blocks : nat) (r a r' rest : list float) :
  length r = 8%nat → (8 * blocks ≤ length a)%nat →
  np.pairwise_lanes blocks r a = (r', rest) →
  nan ∈ r ∨ nan ∈ a → nan ∈ r' ∨ nan ∈ rest.
Proof.
  revert r a. induction blocks as [|k IH]; intros r a Hr Ha Hrun Hin.
  - by injection Hrun as <- <-.
  - cbn [np.pairwise_lanes] in Hrun. apply IH in Hrun; try assumption.
    + rewrite length_zip_with, length_take. lia.
    + rewrite length_drop. lia.
    + assert (Hl : length r = length (take 8 a)) by (rewrite length_take; lia).
      destruct Hin as [Hin|Hin].
      * left. apply zip_nan; auto.
      * destruct (nan_cut 8 a Hin) as [Ht|Hd]; [|by right].
        left. apply zip_nan; auto.
Qed.

Lemma pairwise_tree_nan (r : list float) :
  length r = 8%nat → nan ∈ r → np.pairwise_tree r = nan.
Proof.
  intros Hr Hin. do 9 (destruct r as [|? r]; try discriminate Hr).
  unfold np.pairwise_tree. cbn [nadd float_num].
  repeat (apply elem_of_cons in Hin as [<- |Hin];
          [by rewrite ?nan_add_l, ?nan_add_r, ?nan_add_l, ?nan_add_r,
                ?nan_add_l, ?nan_add_r|]).
  by apply elem_of_nil in Hin.
Qed.

Lemma pairwise_block_nan (a : list float) :
  (8 ≤ length a)%nat → nan ∈ a → np.pairwise_block a = nan.
Proof.
  intros Ha Hin. unfold np.pairwise_block.
  assert (Hb : (8 * (length a / 8 - 1) ≤ length (drop 8 a))%nat).
  { rewrite length_drop. pose proof (Nat.Div0.mul_div_le (length a) 8). lia. }
  assert (Hr : length (take 8 a) = 8%nat) by (rewrite length_take; lia).
  destruct (np.pairwise_lanes _ _ _) as [r rest] eqn:Hrun.
  destruct (pairwise_lanes_length _ _ _ _ _ Hr Hb Hrun) as [Hr' _].
  apply foldl_nan; [exact nan_add_l|exact nan_add_r|].
  destruct (pairwise_lanes_nan _ _ _ _ _ Hr Hb Hrun (nan_cut 8 a Hin))
    as [Hin'|Hin']; [left|by right].
  by apply pairwise_tree_nan.
Qed.

Lemma pairwise_sum_nan (fuel : nat) (a : list float) :
  nan ∈ a → np.pairwise_sum fuel a = nan.
Proof.
  revert a. induction fuel as [|f IH]; intros a Hin; rewrite pairwise_sum_unfold;
    (destruct (Nat.ltb_spec (length a) 8);
       [apply foldl_nan; [exact nan_add_l|exact nan_add_r|by right]|]);
    (destruct (Nat.leb_spec (length a) np.PW_BLOCKSIZE);
       [by apply pairwise_block_nan|]).
  - by apply pairwise_block_nan.
  - cbv zeta. cbn [nadd float_num].
    destruct (nan_cut (length a / 2 - (length a / 2) mod 8) a Hin) as [Ht|Hd].
    + rewrite (IH _ Ht). apply nan_add_l.
    + rewrite (IH _ Hd). apply nan_add_r.
Qed.

Lemma add_pieces_nan (fuel : nat) (acc : float) (a : list float) :
  (length a ≤ fuel)%nat → acc = nan ∨ nan ∈ a → np.add_pieces fuel acc a = nan.
Proof.
  revert acc a. induction fuel as [|f IH]; intros acc a Ha Hin.
  - destruct a; [|simpl in Ha; lia].
    destruct Hin as [-> |Hin]; [reflexivity|by apply elem_of_nil in Hin].
  - destruct a as [|v a].
    { destruct Hin as [-> |Hin]; [reflexivity|by apply elem_of_nil in Hin]. }
    rewrite add_pieces_unfold. apply IH.
    + rewrite length_drop, BUFSIZE_value. simpl in *. lia.
    + cbn [nadd float_num].
      destruct Hin as [-> |Hin]; [left; apply nan_add_l|].
      destruct (nan_cut np.BUFSIZE (v :: a) Hin) as [Ht|Hd]; [left|by right].
      rewrite (pairwise_sum_nan _ _ Ht). apply nan_add_r.
Qed.

Lemma sum_nan (l : list float) : nan ∈ l → np.sum l = nan.
Proof.
  intros Hin. unfold np.sum. apply add_pieces_nan; [lia|by right].
Qed.

Lemma max_nan (l : list float) : nan ∈ l → np.max l = Ok nan.
Proof.
  destruct l as [|v l]; [intros Hin; by apply elem_of_nil in Hin|].
  intros Hin. unfold np.max. f_equal. apply foldl_nan.
  - exact maximum_nan_l.
  - exact maximum_nan_r.
  - apply elem_of_cons in Hin as [<- |Hin]; auto.
Qed.

(** A NaN among the coordinates is in a step. *)
Lemma diff_nan (x : list float) :
  (2 ≤ length x)%nat → nan ∈ x → nan ∈ np.diff x.
Proof.
  intros Hx Hin. apply list_elem_of_lookup in Hin as [k Hk].
  unfold np.diff. apply list_elem_of_lookup.
  destruct k as [|j].
  - exists 0%nat. destruct x as [|a [|b x]]; [simpl in Hx; lia..|].
    injection Hk as ->. cbn. f_equal. apply nan_sub_r.
  - exists j. rewrite lookup_zip_with, lookup_tail, Hk. cbn.
    destruct (x !! j) as [a|] eqn:Ha.
    + cbn. f_equal. apply nan_sub_l.
    + apply lookup_ge_None in Ha. apply lookup_lt_Some in Hk. lia.
Qed.

Lemma steps_of_nan (x y : list float) :
  length x = length y → (2 ≤ length x)%nat → nan ∈ x ∨ nan ∈ y →
  nan ∈ steps_of x y.
Proof.
  intros Hl Hx Hin. unfold steps_of. apply list_elem_of_lookup.
  assert (Hd : length (np.diff x) = length (np.diff y))
    by (rewrite !diff_length; lia).
  destruct Hin as [Hin|Hin].
  - apply diff_nan, list_elem_of_lookup in Hin as [i Hi]; [|assumption].
    destruct (lookup_lt_is_Some_2 (np.diff y) i) as [b Hb].
    { rewrite <- Hd. by eapply lookup_lt_Some. }
    exists i. rewrite lookup_zip_with, !list_lookup_fmap, Hi, Hb. cbn.
    f_equal. apply nan_add_l.
  - apply diff_nan, list_elem_of_lookup in Hin as [i Hi]; [|lia].
    destruct (lookup_lt_is_Some_2 (np.diff x) i) as [a Ha].
    { rewrite Hd. by eapply lookup_lt_Some. }
    exists i. rewrite lookup_zip_with, !list_lookup_fmap, Hi, Ha. cbn.
    f_equal. apply nan_add_r.
Qed.

(** X18.  The path statistics do not skip missing frames.  In float64, a
    trajectory of at least two frames with a NaN among its [x] or [y]
    coordinates (a frame that is missing, or the padding of a short
    trajectory) makes [efficiency] and [straight] return NaN, [bound]
    return the boundedness NaN, and [fractDim] divide by the logarithm of
    NaN: the NaN enters a squared step, and the sum and the maximum of the
    squared steps are NaN.  No exception is raised. *)
Theorem missing_frames_are_not_skipped (exp log : float → float)
    (x y M : list float) :
  length x = length y → (2 ≤ length x)%nat → nan ∈ x ∨ nan ∈ y →
  efficiency x y = Ok nan
  ∧ straight x y = Ok nan
  ∧ fractDim log x y = Ok (log (of_Z (Z.of_nat (length x) - 1)) / log nan)
  ∧ ((2 ≤ length M)%nat → bound exp x y M = Ok (nan, trapped exp nan)).
Proof.
  intros Hl Hx Hin.
  pose proof (steps_of_nan x y Hl Hx Hin) as Hs.
  assert (Hsq : nan ∈ (nsqrt <$> steps_of x y)).
  { change nan with (nsqrt nan). by apply list_elem_of_fmap_2. }
  destruct (ends_of x) as (x0 & xl & Hx0 & Hxl);
    [by destruct x; [simpl in Hx; lia|]|].
  destruct (ends_of y) as (y0 & yl & Hy0 & Hyl);
    [by destruct y; [simpl in Hl, Hx; lia|]|].
  split; [|split; [|split]].
  - unfold efficiency. rewrite Hx0, Hxl, Hy0, Hyl. cbn [bind].
    rewrite steps2_same by assumption. cbn [bind].
    rewrite sum_nan by assumption. f_equal. apply nan_div_r.
  - unfold straight. rewrite Hx0, Hxl, Hy0, Hyl. cbn [bind].
    rewrite steps2_same by assumption. cbn [bind].
    rewrite sum_nan by assumption. f_equal. apply nan_div_r.
  - unfold fractDim. cbv zeta. rewrite steps2_same by assumption. cbn [bind].
    rewrite max_nan by assumption. cbn [bind].
    rewrite sum_nan by assumption. f_equal. f_equal. f_equal.
    apply nan_div_r.
  - intros HM. unfold bound.
    destruct M as [|m0 [|m1 M]]; [simpl in HM; lia..|].
    rewrite !getitem_at by lia.
    change ((m0 :: m1 :: M) !! Z.to_nat 1) with (Some m1).
    change ((m0 :: m1 :: M) !! Z.to_nat 0) with (Some m0).
    cbn [bind]. rewrite steps2_same by assumption. cbn [bind].
    rewrite max_nan by assumption. cbn [bind].
    change (nsqrt nan / of_Z 2)%num with nan.
    change (sqr nan) with nan.
    cbn [ndiv float_num]. by rewrite nan_div_r.
Qed.
End binary64_nan.

(** A trajectory of two frames, padded with NaN to three. *)
Lemma missing_frames_are_not_skipped_witness :
  efficiency [0; 1; nan]%float [0; 0; nan]%float = Ok nan
  ∧ straight [0; 1; nan]%float [0; 0; nan]%float = Ok nan.
Proof.
  destruct (missing_frames_are_not_skipped no_fun no_fun
              [0; 1; nan]%float [0; 0; nan]%float []) as (He & Hs & _).
  - reflexivity.
  - simpl. lia.
  - left. apply list_elem_of_lookup. by exists 2%nat.
  - split; [exact He|exact Hs].
Defined.

(** ** Reading trajectories *)

Section entries.
Context {T : Type} `{Num T}.

(** [A[f, i] = v] inside the array: one entry changes. *)
Lemma setitem2_run (D : list (list T)) (N f i : nat) (v : T) :
  rows_of N D → (f < length D)%nat → (i < N)%nat →
  ∃ D', setitem2 D (Z.of_nat f) (Z.of_nat i) v = Ok D'
    ∧ length D' = length D ∧ rows_of N D'
    ∧ at2 D' f i = Some v
    ∧ ∀ r c : nat, ¬ (r = f ∧ c = i) → at2 D' r c = at2 D r c.
Proof.
  intros HD Hf Hi.
  destruct (lookup_lt_is_Some_2 D f Hf) as [r0 Hr0].
  assert (Hlen : length r0 = N).
  { unfold rows_of in HD. rewrite Forall_lookup in HD. by apply (HD _ _ Hr0). }
  exists (<[f := <[i := v]> r0]> D).
  split; [|split; [|split; [|split]]].
  - unfold setitem2. rewrite (getitem_nat _ _ _ Hr0). cbn [bind].
    rewrite setitem_nat by lia. cbn [bind]. by apply setitem_nat.
  - by rewrite length_insert.
  - apply Forall_insert; [assumption|]. by rewrite length_insert.
  - unfold at2. rewrite list_lookup_insert_eq by assumption. cbn.
    apply list_lookup_insert_eq. lia.
  - intros r c Hne. unfold at2.
    destruct (decide (r = f)) as [->|Hr].
    + rewrite list_lookup_insert_eq by assumption. rewrite Hr0. cbn.
      apply list_lookup_insert_ne. intros ->. by apply Hne.
    + by rewrite list_lookup_insert_ne by done.
Qed.

(** [A[f, i] = v] below the last row. *)
Lemma setitem2_below (D : list (list T)) (f : nat) (i : Z) (v : T) :
  (length D ≤ f)%nat → setitem2 D (Z.of_nat f) i v = Raise IndexError.
Proof.
  intros Hf. unfold setitem2. by rewrite getitem_out.
Qed.
End entries.

Section reading.
Import utils.
Variable int_ : String.string → result Z.
Variable float_ : String.string → result float.

Lemma and_then_done {A B} (m : outcome A) (k : A → outcome B) (b : B) :
  and_then m k = Done b → ∃ a, m = Done a ∧ k a = Done b.
Proof. destruct m as [a|e]; simpl; [eauto|discriminate]. Qed.

Lemma lift_done {A} (m : result A) (a : A) : lift m = Done a → m = Ok a.
Proof. destruct m; simpl; congruence. Qed.

Lemma utils_for_app {A S} (l1 l2 : list A) (body : S → A → outcome S) (acc : S) :
  utils.for_ (l1 ++ l2) body acc
  = and_then (utils.for_ l1 body acc) (utils.for_ l2 body).
Proof.
  revert acc. induction l1 as [|v l1 IH]; intros acc; [reflexivity|].
  simpl. destruct (body acc v) as [acc'|e]; simpl; [apply IH|reflexivity].
Qed.

(** *** The first loop *)

(** What the first loop returns: the number of tracks, and the largest
    declared number of spots, or zero. *)
Lemma count_loop (ts : list element) (fr n : Z) (out : Z * Z) :
  utils.for_ ts (count_body int_) (fr, n) = Done out →
  out.2 = (n + Z.of_nat (length ts))%Z ∧ (fr ≤ out.1)%Z
  ∧ Forall (λ t, ∃ d, nspots_of int_ t = Done d ∧ (d ≤ out.1)%Z) ts
  ∧ (out.1 = fr ∨ ∃ t, t ∈ ts ∧ nspots_of int_ t = Done out.1).
Proof.
  revert fr n. induction ts as [|t ts IH]; intros fr n Hrun.
  - injection Hrun as <-. simpl. split; [lia|]. split; [lia|]. auto.
  - cbn [utils.for_] in Hrun. apply and_then_done in Hrun as ([fr' n'] & Hstep & Hrun).
    unfold count_body in Hstep.
    apply and_then_done in Hstep as (d & Hd & Hstep).
    injection Hstep as <- <-. cbn [fst snd] in *.
    destruct (IH _ _ Hrun) as (Hn & Hle & Hall & Hmax).
    assert (Hfr : (fr ≤ (if (fr <? d)%Z then d else fr))%Z
                  ∧ (d ≤ (if (fr <? d)%Z then d else fr))%Z).
    { destruct (Z.ltb_spec fr d); lia. }
    split; [simpl; lia|]. split; [lia|]. split.
    + constructor; [exists d; split; [assumption|lia]|assumption].
    + destruct Hmax as [Heq|(t' & Hin & Ht')].
      * destruct (Z.ltb_spec fr d) as [Hlt|Hge].
        -- right. exists t. split; [by left|]. by rewrite Heq.
        -- by left.
      * right. exists t'. split; [by right|assumption].
Qed.

(** The first loop returns when every track declares a number. *)
Lemma count_loop_returns (ts : list element) (fr n : Z) :
  Forall (λ t, ∃ d, nspots_of int_ t = Done d) ts →
  ∃ out, utils.for_ ts (count_body int_) (fr, n) = Done out.
Proof.
  intros Hall. revert fr n. induction Hall as [|t ts [d Hd] _ IH]; intros fr n.
  - by eexists.
  - cbn [utils.for_]. unfold count_body at 1. rewrite Hd. cbn [and_then].
    apply IH.
Qed.

(** It raises what the first track without a number raises. *)
Lemma count_loop_fails (ts1 ts2 : list element) (t : element) (fr n : Z)
    (e : error) :
  Forall (λ t, ∃ d, nspots_of int_ t = Done d) ts1 →
  nspots_of int_ t = Fail e →
  utils.for_ (ts1 ++ t :: ts2) (count_body int_) (fr, n) = Fail e.
Proof.
  intros Hall Ht. rewrite utils_for_app.
  destruct (count_loop_returns ts1 fr n Hall) as (out & ->).
  cbn [and_then utils.for_]. unfold count_body at 1. by rewrite Ht.
Qed.
(** *** The loops that fill the arrays *)

Lemma spot_step (part frame : Z) (xs ys : list (list float))
    (c : element) (v : float * float) :
  coords_of float_ c = Done v →
  spot_body float_ part (xs, ys, frame) c
  = and_then (lift (setitem2 xs frame part v.1)) (λ xs',
      and_then (lift (setitem2 ys frame part v.2)) (λ ys',
        Done (xs', ys', (frame + 1)%Z))).
Proof.
  intros Hv. unfold coords_of in Hv. unfold spot_body.
  apply and_then_done in Hv as (sx & Hsx & Hv).
  apply and_then_done in Hv as (vx & Hvx & Hv).
  apply and_then_done in Hv as (sy & Hsy & Hv).
  apply and_then_done in Hv as (vy & Hvy & Hv).
  injection Hv as <-. cbn [fst snd].
  rewrite Hsx. cbn [and_then]. rewrite Hvx. cbn [and_then].
  destruct (lift (setitem2 xs frame part vx)) as [xs'|e]; [|reflexivity].
  cbn [and_then]. rewrite Hsy. cbn [and_then]. rewrite Hvy. reflexivity.
Qed.

(** The spots [cs] of track [p], stored from row [k] on: they fit, the
    loop returns, each spot is at its row of column [p], and nothing else
    has changed. *)
Lemma spots_filled (P F p : nat) (cs : list element) (k : nat)
    (xs ys : list (list float)) :
  rows_of P xs → rows_of P ys → length xs = F → length ys = F → (p < P)%nat →
  Forall (λ c, ∃ v, coords_of float_ c = Done v) cs →
  (k + length cs ≤ F)%nat →
  ∃ xs' ys',
    utils.for_ cs (spot_body float_ (Z.of_nat p)) (xs, ys, Z.of_nat k)
    = Done (xs', ys', Z.of_nat (k + length cs))
    ∧ rows_of P xs' ∧ rows_of P ys' ∧ length xs' = F ∧ length ys' = F
    ∧ (∀ f q : nat, ¬ (q = p ∧ (k ≤ f < k + length cs)%nat) →
         at2 xs' f q = at2 xs f q ∧ at2 ys' f q = at2 ys f q)
    ∧ (∀ (i : nat) (c : element) (v : float * float),
         cs !! i = Some c → coords_of float_ c = Done v →
         at2 xs' (k + i) p = Some v.1 ∧ at2 ys' (k + i) p = Some v.2).
Proof.
  intros Hxs Hys Hlx Hly Hp Hall. revert k xs ys Hxs Hys Hlx Hly.
  induction Hall as [|c cs [v Hv] _ IH]; intros k xs ys Hxs Hys Hlx Hly Hk.
  - exists xs, ys. simpl. rewrite Nat.add_0_r.
    split; [reflexivity|]. split; [assumption|]. split; [assumption|].
    split; [assumption|]. split; [assumption|]. split.
    + intros f q _. auto.
    + intros i c v Hc. by rewrite lookup_nil in Hc.
  - simpl in Hk. cbn [utils.for_]. rewrite (spot_step _ _ _ _ _ _ Hv).
    destruct (setitem2_run xs P k p v.1) as (xs1 & -> & Hlx1 & Hxs1 & Hx1 & Hox);
      [assumption|lia|assumption|].
    destruct (setitem2_run ys P k p v.2) as (ys1 & -> & Hly1 & Hys1 & Hy1 & Hoy);
      [assumption|lia|assumption|].
    cbn [lift and_then].
    replace (Z.of_nat k + 1)%Z with (Z.of_nat (S k)) by lia.
    destruct (IH (S k) xs1 ys1) as (xs' & ys' & Hrun & Hxs' & Hys' & Hlx' & Hly'
                                     & Hother & Hent);
      [assumption|assumption|congruence|congruence|lia|].
    exists xs', ys'.
    replace (k + length (c :: cs))%nat with (S k + length cs)%nat by (simpl; lia).
    split; [exact Hrun|]. split; [assumption|]. split; [assumption|].
    split; [assumption|]. split; [assumption|]. split.
    + intros f q Hne. destruct (Hother f q) as [-> ->]; [intros [? ?]; apply Hne; lia|].
      rewrite Hox, Hoy by (intros [? ?]; apply Hne; lia). auto.
    + intros i c' v' Hc' Hv'. destruct i as [|i].
      * injection Hc' as <-. rewrite Hv in Hv'. injection Hv' as <-.
        rewrite Nat.add_0_r.
        destruct (Hother k p) as [-> ->]; [intros [_ ?]; lia|]. auto.
      * replace (k + S i)%nat with (S k + i)%nat by lia. by apply (Hent i c').
Qed.

(** A spot beyond the last row: the store raises. *)
Lemma spots_overflow (P F p : nat) (cs : list element)
    (xs ys : list (list float)) :
  rows_of P xs → rows_of P ys → length xs = F → length ys = F → (p < P)%nat →
  Forall (λ c, ∃ v, coords_of float_ c = Done v) cs →
  (F < length cs)%nat →
  utils.for_ cs (spot_body float_ (Z.of_nat p)) (xs, ys, 0%Z)
  = Fail (Builtin IndexError).
Proof.
  intros Hxs Hys Hlx Hly Hp Hall HF.
  rewrite <- (take_drop F cs). rewrite utils_for_app.
  destruct (spots_filled P F p (take F cs) 0 xs ys)
    as (xs' & ys' & Hrun & _ & _ & Hlx' & _); try assumption.
  { by apply Forall_take. }
  { rewrite length_take. lia. }
  change (Z.of_nat 0) with 0%Z in Hrun. rewrite Hrun. cbn [and_then].
  destruct (drop F cs) as [|c rest] eqn:Hdrop.
  { apply (f_equal length) in Hdrop. rewrite length_drop in Hdrop. simpl in Hdrop. lia. }
  assert (Hc : ∃ v, coords_of float_ c = Done v).
  { pose proof Hall as Hd. apply Forall_drop with (n := F) in Hd.
    rewrite Hdrop in Hd. by apply Forall_cons in Hd as [? _]. }
  destruct Hc as [v Hv].
  cbn [utils.for_]. rewrite (spot_step _ _ _ _ _ _ Hv).
  rewrite length_take, Nat.add_0_l.
  replace (F `min` length cs)%nat with F by lia.
  rewrite setitem2_below by lia. reflexivity.
Qed.
Lemma track_step (p : nat) (xs ys xs1 ys1 : list (list float)) (t : element)
    (k : Z) :
  utils.for_ (children t) (spot_body float_ (Z.of_nat p)) (xs, ys, 0%Z)
  = Done (xs1, ys1, k) →
  track_body float_ (xs, ys, Z.of_nat p) t = Done (xs1, ys1, Z.of_nat (S p)).
Proof.
  intros Hrun. unfold track_body. rewrite Hrun. cbn [and_then].
  do 2 f_equal. lia.
Qed.

(** The tracks [ts], stored from column [p0] on: each fills its column
    down to its last spot and leaves the rest of the arrays alone. *)
Lemma tracks_filled (P F : nat) (ts : list element) (p0 : nat)
    (xs ys : list (list float)) :
  rows_of P xs → rows_of P ys → length xs = F → length ys = F →
  (p0 + length ts ≤ P)%nat →
  Forall (λ t, readable float_ t ∧ (length (children t) ≤ F)%nat) ts →
  ∃ xs' ys',
    utils.for_ ts (track_body float_) (xs, ys, Z.of_nat p0)
    = Done (xs', ys', Z.of_nat (p0 + length ts))
    ∧ rows_of P xs' ∧ rows_of P ys' ∧ length xs' = F ∧ length ys' = F
    ∧ (∀ f q : nat, ¬ (p0 ≤ q < p0 + length ts)%nat →
         at2 xs' f q = at2 xs f q ∧ at2 ys' f q = at2 ys f q)
    ∧ (∀ (j : nat) (t : element), ts !! j = Some t →
         (∀ (i : nat) (c : element) (v : float * float),
            children t !! i = Some c → coords_of float_ c = Done v →
            at2 xs' i (p0 + j) = Some v.1 ∧ at2 ys' i (p0 + j) = Some v.2)
         ∧ (∀ f : nat, (length (children t) ≤ f)%nat →
              at2 xs' f (p0 + j) = at2 xs f (p0 + j)
              ∧ at2 ys' f (p0 + j) = at2 ys f (p0 + j))).
Proof.
  intros Hxs Hys Hlx Hly Hp Hall. revert p0 xs ys Hxs Hys Hlx Hly Hp.
  induction Hall as [|t ts [Hread Hfit] _ IH]; intros p0 xs ys Hxs Hys Hlx Hly Hp.
  - exists xs, ys. simpl. rewrite Nat.add_0_r.
    split; [reflexivity|]. split; [assumption|]. split; [assumption|].
    split; [assumption|]. split; [assumption|]. split.
    + intros f q _. auto.
    + intros j t Ht. by rewrite lookup_nil in Ht.
  - simpl in Hp.
    destruct (spots_filled P F p0 (children t) 0 xs ys)
      as (xs1 & ys1 & Hrun1 & Hxs1 & Hys1 & Hlx1 & Hly1 & Hother1 & Hent1);
      [assumption..|lia|exact Hread|lia|].
    cbn [utils.for_]. rewrite (track_step _ _ _ _ _ _ _ Hrun1). cbn [and_then].
    destruct (IH (S p0) xs1 ys1)
      as (xs' & ys' & Hrun & Hxs' & Hys' & Hlx' & Hly' & Hother & Hent);
      [assumption..|lia|].
    exists xs', ys'.
    replace (p0 + length (t :: ts))%nat with (S p0 + length ts)%nat by (simpl; lia).
    split; [exact Hrun|]. split; [assumption|]. split; [assumption|].
    split; [assumption|]. split; [assumption|]. split.
    + intros f q Hq. destruct (Hother f q) as [-> ->]; [lia|].
      apply Hother1. intros [-> _]. lia.
    + intros j t' Ht'. destruct j as [|j].
      * injection Ht' as <-. rewrite Nat.add_0_r. split.
        -- intros i c v Hc Hv. destruct (Hother i p0) as [-> ->]; [lia|].
           by apply (Hent1 i c).
        -- intros f Hf. destruct (Hother f p0) as [-> ->]; [lia|].
           apply Hother1. intros [_ ?]. lia.
      * replace (p0 + S j)%nat with (S p0 + j)%nat by lia.
        destruct (Hent j t' Ht') as [Hin Hout]. split; [exact Hin|].
        intros f Hf. destruct (Hout f Hf) as [-> ->].
        apply Hother1. intros [? _]. lia.
Qed.

(** A track with more spots than rows makes the loop raise. *)
Lemma tracks_overflow (P F : nat) (ts1 ts2 : list element) (t : element)
    (xs ys : list (list float)) :
  rows_of P xs → rows_of P ys → length xs = F → length ys = F →
  (length ts1 < P)%nat →
  Forall (λ t, readable float_ t ∧ (length (children t) ≤ F)%nat) ts1 →
  readable float_ t → (F < length (children t))%nat →
  utils.for_ (ts1 ++ t :: ts2) (track_body float_) (xs, ys, 0%Z)
  = Fail (Builtin IndexError).
Proof.
  intros Hxs Hys Hlx Hly Hp Hall Hread Hover. rewrite utils_for_app.
  destruct (tracks_filled P F ts1 0 xs ys)
    as (xs' & ys' & Hrun & Hxs' & Hys' & Hlx' & Hly' & _);
    [assumption..|lia|assumption|].
  change (Z.of_nat 0) with 0%Z in Hrun. rewrite Hrun. cbn [and_then utils.for_].
  unfold track_body at 1. rewrite Nat.add_0_l.
  rewrite (spots_overflow P F (length ts1) (children t) xs' ys') by assumption.
  reflexivity.
Qed.

Lemma nan_rows_at (F P f q : nat) :
  (f < F)%nat → (q < P)%nat →
  at2 (nan_rows (Z.of_nat F) (Z.of_nat P)) f q = Some nan.
Proof.
  intros Hf Hq. unfold at2, nan_rows. rewrite !Nat2Z.id.
  rewrite lookup_replicate_2 by assumption. cbn.
  by rewrite lookup_replicate_2 by assumption.
Qed.

Lemma nan_rows_shape (F P : nat) :
  rows_of P (nan_rows (Z.of_nat F) (Z.of_nat P))
  ∧ length (nan_rows (Z.of_nat F) (Z.of_nat P)) = F.
Proof.
  unfold nan_rows. rewrite !Nat2Z.id. split.
  - apply Forall_replicate, length_replicate.
  - apply length_replicate.
Qed.

(** X19.  The shape of what [read_xml] builds: the first loop counts the
    tracks and takes the largest [nSpots] that a track declares, or zero
    when no track declares a positive number; the number of spots a track
    holds is not looked at.  A track without the attribute [nSpots]
    ([KeyError]), or with one that [int] refuses, ends the call with that
    exception. *)
Theorem read_xml_counts_what_is_declared (root : element) :
  (∀ frames particles : Z,
      shape_of int_ root = Done (frames, particles) →
      particles = Z.of_nat (length (children root)) ∧ (0 ≤ frames)%Z
      ∧ Forall (λ t, ∃ d, nspots_of int_ t = Done d ∧ (d ≤ frames)%Z)
          (children root)
      ∧ (frames = 0%Z
         ∨ ∃ t, t ∈ children root ∧ nspots_of int_ t = Done frames))
  ∧ (Forall (λ t, ∃ d, nspots_of int_ t = Done d) (children root) →
     ∃ out, shape_of int_ root = Done out)
  ∧ (∀ (ts1 ts2 : list element) (t : element) (e : error),
       children root = ts1 ++ t :: ts2 →
       Forall (λ t, ∃ d, nspots_of int_ t = Done d) ts1 →
       nspots_of int_ t = Fail e →
       read_xml int_ float_ root = Fail e).
Proof.
  split; [|split].
  - intros frames particles Hrun.
    destruct (count_loop _ _ _ _ Hrun) as (Hn & Hle & Hall & Hmax).
    cbn [fst snd] in *. split; [lia|]. split; [lia|]. split; assumption.
  - intros Hall. by apply count_loop_returns.
  - intros ts1 ts2 t e Hts Hall Ht. unfold read_xml, shape_of.
    rewrite Hts, (count_loop_fails ts1 ts2 t _ _ e Hall Ht). reflexivity.
Qed.

(** X20.  What [read_xml] returns when every spot can be read and no
    track holds more spots than the largest number declared: two arrays
    of one shape, a row for each of the [frames] declared and a column
    for each track; column [p] holds the coordinates of the spots of track
    [p] in document order from row 0, and NaN below its last spot. *)
Theorem read_xml_pads_with_nan (root : element) (frames particles : Z) :
  shape_of int_ root = Done (frames, particles) →
  Forall (λ t, readable float_ t
               ∧ (length (children t) ≤ Z.to_nat frames)%nat)
    (children root) →
  ∃ xs ys,
    read_xml int_ float_ root = Done (xs, ys)
    ∧ nrows xs = Z.to_nat frames ∧ nrows ys = Z.to_nat frames
    ∧ ncols xs = length (children root) ∧ ncols ys = length (children root)
    ∧ rectangular xs ∧ rectangular ys
    ∧ ∀ (p : nat) (t : element), children root !! p = Some t →
        (∀ (f : nat) (c : element) (v : float * float),
           children t !! f = Some c → coords_of float_ c = Done v →
           at2 (rows xs) f p = Some v.1 ∧ at2 (rows ys) f p = Some v.2)
        ∧ (∀ f : nat,
             (length (children t) ≤ f < Z.to_nat frames)%nat →
             at2 (rows xs) f p = Some nan ∧ at2 (rows ys) f p = Some nan).
Proof.
  intros Hshape Hall.
  destruct (count_loop _ _ _ _ Hshape) as (Hn & Hle & _ & _).
  cbn [fst snd] in Hn, Hle.
  set (F := Z.to_nat frames). set (P := length (children root)).
  assert (HF : frames = Z.of_nat F) by (unfold F; lia).
  assert (HP : particles = Z.of_nat P) by (unfold P; lia).
  destruct (nan_rows_shape F P) as [Hrows Hlen].
  destruct (tracks_filled P F (children root) 0
              (nan_rows frames particles) (nan_rows frames particles))
    as (xs & ys & Hrun & Hxs & Hys & Hlx & Hly & _ & Hent);
    [rewrite HF, HP; assumption..|unfold P; lia|exact Hall|].
  cbn [Nat.add] in Hent.
  exists (Array2 P xs), (Array2 P ys).
  split.
  { unfold read_xml. rewrite Hshape. cbn [and_then].
    change (Z.of_nat 0) with 0%Z in Hrun. rewrite Hrun. cbn [and_then].
    rewrite HP, Nat2Z.id. reflexivity. }
  split; [exact Hlx|]. split; [exact Hly|].
  split; [reflexivity|]. split; [reflexivity|].
  split; [exact Hxs|]. split; [exact Hys|].
  intros p t Ht. destruct (Hent p t Ht) as [Hin Hout]. cbn [rows].
  split; [exact Hin|].
  intros f [Hlo Hhi]. destruct (Hout f Hlo) as [-> ->].
  assert (Hp : (p < P)%nat) by (by eapply lookup_lt_Some).
  rewrite HF, HP. rewrite nan_rows_at by assumption. auto.
Qed.

(** X21.  [read_xml] trusts the attribute [nSpots]: when the first
    track that holds more spots than the largest number declared in the
    document is reached, the store of its first spot beyond the last row
    raises [IndexError], and nothing is returned. *)
Theorem read_xml_needs_the_declared_spots (root : element)
    (frames particles : Z) (ts1 ts2 : list element) (t : element) :
  shape_of int_ root = Done (frames, particles) →
  children root = ts1 ++ t :: ts2 →
  Forall (λ t, readable float_ t
               ∧ (length (children t) ≤ Z.to_nat frames)%nat) ts1 →
  readable float_ t → (Z.to_nat frames < length (children t))%nat →
  read_xml int_ float_ root = Fail (Builtin IndexError).
Proof.
  intros Hshape Hts Hall Hread Hover.
  destruct (count_loop _ _ _ _ Hshape) as (Hn & Hle & _ & _).
  cbn [fst snd] in Hn, Hle.
  set (F := Z.to_nat frames) in *. set (P := length (children root)).
  assert (HF : frames = Z.of_nat F) by (unfold F; lia).
  assert (HP : particles = Z.of_nat P) by (unfold P; lia).
  destruct (nan_rows_shape F P) as [Hrows Hlen].
  unfold read_xml. rewrite Hshape. cbn [and_then]. rewrite Hts.
  rewrite (tracks_overflow P F ts1 ts2 t); try (rewrite HF, HP; assumption);
    try assumption; [reflexivity|].
  unfold P. rewrite Hts, length_app. simpl. lia.
Qed.
End reading.

(** Two tracks, of three spots and of one spot: the column of the second
    track ends in NaN. *)
Lemma read_xml_pads_with_nan_witness :
  ∃ xs ys,
    utils.read_xml utils.digit utils.digit_float utils.two_tracks
    = utils.Done (xs, ys)
    ∧ nrows xs = 3%nat ∧ ncols xs = 2%nat
    ∧ at2 (rows xs) 0 1 = Some 7%float ∧ at2 (rows xs) 2 1 = Some nan.
Proof.
  destruct (read_xml_pads_with_nan utils.digit utils.digit_float
              utils.two_tracks 3 2)
    as (xs & ys & Hrun & Hn & _ & Hc & _ & _ & _ & Hent).
  - reflexivity.
  - repeat constructor; try (eexists; reflexivity); simpl; lia.
  - exists xs, ys. split; [exact Hrun|]. split; [exact Hn|].
    split; [exact Hc|].
    destruct (Hent 1%nat _ eq_refl) as [Hin Hpad]. split.
    + by destruct (Hin 0%nat _ (7%float, 8%float) eq_refl eq_refl) as [? _].
    + apply Hpad. simpl. lia.
Defined.

(** A track that declares one spot and holds two. *)
Lemma read_xml_needs_the_declared_spots_witness :
  utils.read_xml utils.digit utils.digit_float utils.under_declared
  = utils.Fail (utils.Builtin IndexError).
Proof.
  apply (read_xml_needs_the_declared_spots utils.digit utils.digit_float
           utils.under_declared 1 1 [] [] utils.long_track).
  - reflexivity.
  - reflexivity.
  - constructor.
  - repeat constructor; eexists; reflexivity.
  - simpl. lia.
Defined.

(** ** The aspect ratio over the reals *)

Section rectangle_reals.
Local Open Scope R_scope.

Lemma minimum_R (a b : R) : np.minimum a b = Rmin a b.
Proof.
  unfold np.minimum. rewrite isnan_R. cbn [nltb neqb R_num].
  unfold Rmin.
  destruct (Rlt_dec a b), (Req_dec_T a b), (Rle_dec a b); simpl; lra.
Qed.

Lemma unique_twice_R (a : R) : np.unique [a; a] = [a].
Proof.
  unfold np.unique. cbn [foldr np.place]. unfold np.before. rewrite !isnan_R.
  cbn [negb orb andb nltb R_num].
  destruct (Rlt_dec a a) as [Hlt|_]; [lra|]. cbn [negb].
  cbn [np.once]. rewrite !isnan_R. cbn [neqb R_num andb orb].
  destruct (Req_dec_T a a) as [_|Hne]; [reflexivity|done].
Qed.

Lemma nanmin_R (v : R) (l : list R) :
  np.nanmin (v :: l) = Ok (foldl Rmin v l).
Proof.
  unfold np.nanmin.
  assert (Hf : ∀ k : list R, filter (λ u : R, Is_true (negb (isnan u))) k = k).
  { induction k as [|u k IH]; [reflexivity|].
    rewrite filter_cons, isnan_R. cbn. by rewrite IH. }
  rewrite Hf. f_equal. revert v. induction l as [|u l IH]; intros v; [reflexivity|].
  cbn [foldl]. rewrite minimum_R. apply IH.
Qed.

Lemma nanmax_R (v : R) (l : list R) :
  np.nanmax (v :: l) = Ok (foldl Rmax v l).
Proof.
  unfold np.nanmax.
  assert (Hf : ∀ k : list R, filter (λ u : R, Is_true (negb (isnan u))) k = k).
  { induction k as [|u k IH]; [reflexivity|].
    rewrite filter_cons, isnan_R. cbn. by rewrite IH. }
  rewrite Hf. f_equal. revert v. induction l as [|u l IH]; intros v; [reflexivity|].
  cbn [foldl]. rewrite maximum_R. apply IH.
Qed.

(** The bounding rectangle of the triangle [(0,0), (1,0), (1,1)]. *)
Lemma triangle_rectangle :
  ∃ rs l0 l1, minBoundRect PI cos axis_arctan2 mod_below hull_in_order [0; 1; 1] [0; 0; 1]
    = Ok (rs, [l0; l1])
    ∧ 0 < l0 ∧ 0 < l1.
Proof.
  unfold minBoundRect. cbn [length Nat.eqb zip_with bind].
  unfold hull_in_order at 1. cbn [bind].
  assert (Hh : mapM (np.getitem [[0; 0]; [1; 0]; [1; 1]]) (seqZ 0 (Z.of_nat (length [[0; 0]; [1; 0]; [1; 1]])))
    = Ok [[0; 0]; [1; 0]; [1; 1]]) by reflexivity.
  rewrite Hh. cbn [bind]. clear Hh.
  cbn [tail length Nat.sub take zip_with].
  assert (H1 : ∀ a b c d : R, col_of [[a; b]; [c; d]] 1 = Ok [b; d]) by reflexivity.
  assert (H0 : ∀ a b c d : R, col_of [[a; b]; [c; d]] 0 = Ok [a; c]) by reflexivity.
  rewrite H1, H0. cbn [bind zip_with fmap list_fmap].
  assert (Hpi : PI / 2 <> 0) by (pose proof PI_RGT_0; lra).
  assert (Ha0 : axis_arctan2 (0 - 0)%num (1 - 0)%num = 0).
  { unfold axis_arctan2. cbn [nsub R_num]. destruct (Req_dec_T _ _); [reflexivity|lra]. }
  assert (Ha1 : axis_arctan2 (1 - 0)%num (1 - 1)%num = PI / 2).
  { unfold axis_arctan2. cbn [nsub R_num]. destruct (Req_dec_T _ _); [lra|reflexivity]. }
  rewrite Ha0, Ha1. unfold mod_below. cbn [ndiv of_Z R_num].
  destruct (Req_dec_T 0 (PI / 2)) as [Hz|_]; [lra|].
  destruct (Req_dec_T (PI / 2) (PI / 2)) as [_|Hz]; [|done].
  cbn [nabs R_num]. rewrite Rabs_R0, unique_twice_R.
  cbn [fmap list_fmap].
  assert (Hc : cos 0 = 1) by apply cos_0.
  assert (Hm : cos (0 - PI / 2) = 0).
  { replace (0 - PI / 2) with (- (PI / 2)) by lra.
    rewrite cos_neg. apply cos_PI2. }
  assert (Hp : cos (0 + PI / 2) = 0).
  { rewrite Rplus_0_l. apply cos_PI2. }
  cbn [nsub nadd R_num]. rewrite Hc, Hm, Hp.
  assert (Hdot : ∀ a b c d : R, np.dot [a; b] [c; d] = a * c + b * d).
  { intros. unfold np.dot. cbn. lra. }
  rewrite !Hdot.
  assert (G0 : ∀ (A : Type) (a b : A), np.getitem [a; b] 0 = Ok a) by reflexivity.
  assert (G1 : ∀ (A : Type) (a b : A), np.getitem [a; b] 1 = Ok b) by reflexivity.
  cbn [mapM]. rewrite G0, G1.
  replace (1 * 0 + 0 * 0) with 0 by lra. replace (1 * 1 + 0 * 0) with 1 by lra.
  replace (1 * 1 + 0 * 1) with 1 by lra. replace (0 * 0 + 1 * 0) with 0 by lra.
  replace (0 * 1 + 1 * 0) with 0 by lra. replace (0 * 1 + 1 * 1) with 1 by lra.
  assert (HM : ∀ (A : Type) (l : A),
            (Ok l ≫= λ y, mret [] ≫= λ k : list A, mret (y :: k)) = Ok [l])
    by reflexivity.
  rewrite !HM. cbn [bind mapM]. rewrite !nanmin_R, !nanmax_R. cbn [foldl].
  rewrite !HM. cbn [bind zip_with].
  assert (Ha : ∀ v : R, np.argmin [v] = Ok 0%nat) by reflexivity.
  rewrite Ha. cbn [bind].
  assert (G : ∀ (A : Type) (a : A), np.getitem [a] (Z.of_nat 0) = Ok a) by reflexivity.
  rewrite !G. cbn [bind].
  replace (Rmax (Rmax 0 1) 1) with 1 by (rewrite (Rmax_right 0 1), Rmax_left; lra).
  replace (Rmin (Rmin 0 0) 1) with 0 by (rewrite (Rmin_left 0 0), Rmin_left; lra).
  replace (Rmin (Rmin 0 1) 1) with 0 by (rewrite (Rmin_left 0 1), Rmin_left; lra).
  replace (Rmax (Rmax 0 0) 1) with 1 by (rewrite (Rmax_left 0 0), Rmax_right; lra).
  assert (Hv : ∀ a b : R,
            vecmat [a; b] [[1; 0]; [0; 1]] = Ok [a * 1 + b * 0; a * 0 + b * 1]).
  { intros a b. unfold vecmat. rewrite H0, H1. cbn [bind]. by rewrite !Hdot. }
  rewrite !Hv. cbn [bind zip_with fmap list_fmap].
  assert (H30 : ∀ a b c d e f : R, col_of [[a; b]; [c; d]; [e; f]] 0 = Ok [a; c; e])
    by reflexivity.
  assert (H31 : ∀ a b c d e f : R, col_of [[a; b]; [c; d]; [e; f]] 1 = Ok [b; d; f])
    by reflexivity.
  rewrite H30, H31. cbn [bind zip_with fmap list_fmap take].
  eexists _, _, _. split; [reflexivity|].
  unfold sqr. cbn [nsub nadd nmul nsqrt R_num].
  split; apply sqrt_lt_R0; lra.
Qed.

End rectangle_reals.

Section sides.
Local Open Scope R_scope.
Variable pi : R.
Variable cos : R → R.
Variable arctan2 mod_ : R → R → R.
Variable ConvexHull : list (list R) → result (list Z).

Local Abbreviation rect := (minBoundRect pi cos arctan2 mod_ ConvexHull).
Local Abbreviation ratio := (aspectRatio pi cos arctan2 mod_ ConvexHull).

(** X22.  Over the reals, when [minBoundRect] returns two positive side
    lengths, [aspectRatio] returns the longer side over the shorter one, a
    ratio of at least one, and as elongation one minus the inverse of that
    ratio, a number in [[0, 1)]; the ratio is one, and the elongation zero,
    exactly when the rectangle is a square. *)
Theorem aspect_ratio_at_least_one (x y : list R) (rs : list (list R)) (ls : list R) :
  rect x y = Ok (rs, ls) → Forall (λ l, 0 < l) ls →
  ∃ a b ar el,
    ls = [a; b]
    ∧ ratio x y = Ok (ar, el)
    ∧ ar = Rmax a b / Rmin a b
    ∧ 1 <= ar ∧ 0 <= el < 1 ∧ el = 1 - / ar
    ∧ (ar = 1 ↔ a = b) ∧ (el = 0 ↔ a = b).
Proof.
  intros Hrun Hpos.
  destruct (minBoundRect_shape _ _ _ _ _ _ _ _ _ Hrun) as (_ & _ & Hlen).
  destruct ls as [|a [|b [|c ls]]]; try discriminate Hlen.
  apply Forall_cons in Hpos as [Ha Hb]. apply Forall_cons in Hb as [Hb _].
  exists a, b, (Rmax a b / Rmin a b), (1 - Rmin a b / Rmax a b).
  split; [reflexivity|]. split.
  { unfold aspectRatio. rewrite Hrun. cbn [bind np.max np.min foldl].
    by rewrite maximum_R, minimum_R. }
  split; [reflexivity|].
  assert (Hlo : 0 < Rmin a b) by (apply Rmin_glb_lt; assumption).
  assert (Hle : Rmin a b <= Rmax a b).
  { apply Rle_trans with a; [apply Rmin_l|apply Rmax_l]. }
  assert (Hhi : 0 < Rmax a b) by lra.
  assert (Heq : Rmax a b = Rmin a b ↔ a = b).
  { unfold Rmax, Rmin. destruct (Rle_dec a b); split; intros; lra. }
  assert (Hinv : / (Rmax a b / Rmin a b) = Rmin a b / Rmax a b).
  { field. split; lra. }
  assert (Hq : Rmin a b / Rmax a b <= 1).
  { apply Rmult_le_reg_r with (Rmax a b); [assumption|].
    replace (Rmin a b / Rmax a b * Rmax a b) with (Rmin a b) by (field; lra). lra. }
  assert (Hq0 : 0 < Rmin a b / Rmax a b) by (apply Rdiv_lt_0_compat; assumption).
  assert (Har : 1 <= Rmax a b / Rmin a b).
  { apply Rmult_le_reg_r with (Rmin a b); [assumption|].
    replace (Rmax a b / Rmin a b * Rmin a b) with (Rmax a b) by (field; lra). lra. }
  split; [assumption|]. split; [lra|]. split; [by rewrite Hinv|].
  split.
  - rewrite <- Heq. split; intros Hr.
    + apply (f_equal (λ v, v * Rmin a b)) in Hr.
      replace (Rmax a b / Rmin a b * Rmin a b) with (Rmax a b) in Hr by (field; lra). lra.
    + rewrite Hr. field. lra.
  - rewrite <- Heq. split; intros Hr.
    + assert (Hone : Rmin a b / Rmax a b = 1) by lra.
      apply (f_equal (λ v, v * Rmax a b)) in Hone.
      replace (Rmin a b / Rmax a b * Rmax a b) with (Rmin a b) in Hone by (field; lra). lra.
    + rewrite Hr. field. lra.
Qed.
End sides.

Section sides_witness.
Local Open Scope R_scope.

Lemma aspect_ratio_at_least_one_witness :
  ∃ a b ar el,
    aspectRatio PI Rtrigo_def.cos axis_arctan2 mod_below hull_in_order [0; 1; 1] [0; 0; 1] = Ok (ar, el)
    ∧ 0 < a ∧ 0 < b ∧ ar = Rmax a b / Rmin a b ∧ 1 <= ar ∧ 0 <= el < 1.
Proof.
  destruct triangle_rectangle as (rs & l0 & l1 & Hrun & H0 & H1).
  destruct (aspect_ratio_at_least_one PI Rtrigo_def.cos axis_arctan2 mod_below hull_in_order
              [0; 1; 1] [0; 0; 1] rs [l0; l1] Hrun)
    as (a & b & ar & el & Hls & Hr & Har & Hge & Hel & _).
  { by repeat constructor. }
  injection Hls as -> ->.
  exists a, b, ar, el. repeat split; try assumption; apply Hel.
Defined.
End sides_witness.
